(** * Audiobook tagger: identification-and-organization pipeline

    A shallow embedding of the scanner, grouper, match scorer, path
    sanitizer and task queue of the audiobook tagger, together with the
    properties its specification states about them; and of the code
    around them (the retry helper, [runWithConcurrency], the event
    dispatcher, the filter of the file scanner, the file processor and
    the number formats of the organizer), with properties that the code
    itself shows.

    Conventions of the embedding.

    - A JavaScript string is the list of its UTF-16 code units; the model
      covers the code units below 256 (ASCII and the Latin-1 supplement),
      which is what [ascii] holds.  [js "..."] writes a literal.
    - A JavaScript number that only ever holds a count or a byte size is a
      [nat] or a [Z]; the scores, which are quotients, are exact rationals
      ([Q]): the rounding of IEEE doubles is not modelled.
    - [undefined] and [null] are [None]; a key that an options object may
      leave out is an option of its value; an object reference that the
      code mutates through two names is an index into a store.
    - [Array.prototype.sort] is the stable sort the language standard
      requires, written as an insertion sort. *)

From Stdlib Require Import ZArith QArith Qminmax Ascii String List Lia Lqa.
From Stdlib Require Import Permutation DecimalString Sorted Qround DecimalPos.
From stdpp Require Import base list gmap strings.
Import ListNotations.

(* ================================================================= *)
(** ** JavaScript strings *)
(* ================================================================= *)

Module JS.

Abbreviation jsstring := (list ascii).

Definition js (s : string) : jsstring := list_ascii_of_string s.

Definition code (c : ascii) : N := N_of_ascii c.

(** [\d] *)
Definition isDigit (c : ascii) : bool :=
  ((48 <=? code c) && (code c <=? 57))%N.

(** [\s]: tab, line feed, vertical tab, form feed, carriage return,
    space and the no-break space. *)
Definition isSpace (c : ascii) : bool :=
  let n := code c in
  ((9 <=? n) && (n <=? 13) || (n =? 32) || (n =? 160))%N.

(** [\w] is ASCII only: letters, digits and the underscore. *)
Definition isWordChar (c : ascii) : bool :=
  let n := code c in
  ((48 <=? n) && (n <=? 57) || (65 <=? n) && (n <=? 90)
   || (97 <=? n) && (n <=? 122) || (n =? 95))%N.

(** [String.prototype.toLowerCase] on one code unit. *)
Definition toLowerChar (c : ascii) : ascii :=
  let n := code c in
  if ((65 <=? n) && (n <=? 90))%N then ascii_of_N (n + 32)
  else if ((192 <=? n) && (n <=? 222) && negb (n =? 215))%N
       then ascii_of_N (n + 32)
  else c.

Definition toLowerCase (s : jsstring) : jsstring := map toLowerChar s.

(** [a === b] on strings. *)
Definition streq (a b : jsstring) : bool := bool_decide (a = b).

Fixpoint startsWith (s p : jsstring) : bool :=
  match p, s with
  | [], _ => true
  | _ :: _, [] => false
  | c :: p', d :: s' => bool_decide (c = d) && startsWith s' p'
  end.

(** [s.includes(sub)] *)
Fixpoint includes (s sub : jsstring) : bool :=
  startsWith s sub ||
  match s with
  | [] => false
  | _ :: s' => includes s' sub
  end.

Definition endsWith (s p : jsstring) : bool :=
  startsWith (rev s) (rev p).

Fixpoint dropWhile {A} (f : A -> bool) (l : list A) : list A :=
  match l with
  | [] => []
  | x :: l' => if f x then dropWhile f l' else l
  end.

Fixpoint takeWhile {A} (f : A -> bool) (l : list A) : list A :=
  match l with
  | [] => []
  | x :: l' => if f x then x :: takeWhile f l' else []
  end.

(** [s.trim()] *)
Definition trim (s : jsstring) : jsstring :=
  rev (dropWhile isSpace (rev (dropWhile isSpace s))).

(** [s.replace(/[^\w\s]/g, '')] *)
Definition removePunctuation (s : jsstring) : jsstring :=
  filter (fun c => isWordChar c || isSpace c = true) s.

(** [s.replace(/\s+/g, ' ')]: every maximal run of white space becomes
    one space. *)
Fixpoint collapseSpaces (s : jsstring) : jsstring :=
  match s with
  | [] => []
  | c :: s' =>
      if isSpace c then
        match s' with
        | d :: _ => if isSpace d then collapseSpaces s'
                    else " "%char :: collapseSpaces s'
        | [] => [" "%char]
        end
      else c :: collapseSpaces s'
  end.

(** [s.split(/\s+/)]: the pieces between the maximal runs of white
    space; a run at either end leaves an empty piece there. *)
Fixpoint splitSpaces_from (cur : jsstring) (s : jsstring) : list jsstring :=
  match s with
  | [] => [rev cur]
  | c :: s' =>
      if isSpace c then
        match s' with
        | d :: _ => if isSpace d then splitSpaces_from cur s'
                    else rev cur :: splitSpaces_from [] s'
        | [] => [rev cur; []]
        end
      else splitSpaces_from (c :: cur) s'
  end.

Definition splitSpaces (s : jsstring) : list jsstring := splitSpaces_from [] s.

(** The stable sort of [Array.prototype.sort(cmp)]: [x] stays in front of
    a later [y] unless [cmp x y] is positive. *)
Section Sort.
Context {A : Type} (cmp : A -> A -> Z).

Fixpoint sort_insert (x : A) (l : list A) : list A :=
  match l with
  | [] => [x]
  | y :: l' => if (cmp x y <=? 0)%Z then x :: l else y :: sort_insert x l'
  end.

Definition sort (l : list A) : list A := foldr sort_insert [] l.
End Sort.

(** [Number.MAX_SAFE_INTEGER], two to the 53 less one.  The numbers of
    the code are doubles.  An integer up to this magnitude is held as
    itself, [String] prints its digits and [parseInt] reads them back;
    beyond it [parseInt] rounds, and gives [Infinity] from 309 digits
    on, and from ten to the 21 [String] prints an exponent.  The
    numbers of this development are integers without a bound, so that
    [numberToString] and [parseInt] below are those of the code on the
    safe integers. *)
Definition MAX_SAFE_INTEGER : Z := 9007199254740991.

(** Decimal digits of a number, as [Number.prototype.toString] prints a
    safe integer. *)
Definition numberToString (z : Z) : jsstring :=
  js (NilZero.string_of_int (Z.to_int z)).

Definition digitValue (c : ascii) : Z := Z.of_N (code c) - 48.

(** [parseInt(s, 10)]: leading white space is skipped, a sign is read,
    then the longest run of digits; [None] is [NaN].  The value is the
    one that the digits write; it is the value of the code when it is a
    safe integer. *)
Definition parseDigits (ds : jsstring) : option Z :=
  match ds with
  | [] => None
  | _ => Some (fold_left (fun acc c => 10 * acc + digitValue c)%Z ds 0%Z)
  end.

Definition parseInt (s : jsstring) : option Z :=
  match dropWhile isSpace s with
  | "-"%char :: r => option_map Z.opp (parseDigits (takeWhile isDigit r))
  | "+"%char :: r => parseDigits (takeWhile isDigit r)
  | r => parseDigits (takeWhile isDigit r)
  end.

End JS.

(* ================================================================= *)
(** ** MatchScorer: [calculateMatchScore] and [rankMetadataResults] *)
(* ================================================================= *)

Module Matcher.
Import JS.
Local Open Scope Q_scope.

(** A series position is a string or a number; the numbers of the model
    are the integers. *)
Inductive Position :=
| PosStr (s : jsstring)
| PosNum (n : Z).

(** [position.toString()] *)
Definition positionToString (p : Position) : jsstring :=
  match p with
  | PosStr s => s
  | PosNum n => numberToString n
  end.

(** [parseInt(position, 10)] *)
Definition positionParseInt (p : Position) : option Z :=
  parseInt (positionToString p).

(** Truthiness of a position: the empty string and the number 0 are
    falsy, and so is an absent position. *)
Definition truthyPosition (p : option Position) : bool :=
  match p with
  | Some (PosStr (_ :: _)) => true
  | Some (PosNum n) => negb (n =? 0)%Z
  | _ => false
  end.

(** Truthiness of a string-valued field. *)
Definition truthyString (s : option jsstring) : bool :=
  match s with
  | Some (_ :: _) => true
  | _ => false
  end.

Module Series.
Record t := { name : option jsstring; position : option Position }.
End Series.

Module FileInfo.
Record t := {
  title : option jsstring;
  author : option jsstring;
  series : option Series.t
}.
End FileInfo.

Module Author.
Record t := { name : option jsstring }.
End Author.

Module Metadata.
Record t := {
  title : option jsstring;
  authors : option (list Author.t);
  series : option Series.t
}.
End Metadata.

Definition normalizeString (str : jsstring) : jsstring :=
  trim (collapseSpaces (removePunctuation (toLowerCase str))).

(** The inner loop over [words2], left at the first match ([break]). *)
Fixpoint wordMatches (word1 : jsstring) (words2 : list jsstring) : bool :=
  match words2 with
  | [] => false
  | word2 :: rest =>
      if (length word2 <? 3)%nat then wordMatches word1 rest
      else if streq word1 word2 || includes word1 word2 || includes word2 word1
           then true
           else wordMatches word1 rest
  end.

(** The outer loop over [words1], threading [matchingWords]. *)
Fixpoint countMatchingWords (words1 words2 : list jsstring) (matchingWords : nat)
  : nat :=
  match words1 with
  | [] => matchingWords
  | word1 :: rest =>
      if (length word1 <? 3)%nat then countMatchingWords rest words2 matchingWords
      else if wordMatches word1 words2
           then countMatchingWords rest words2 (S matchingWords)
           else countMatchingWords rest words2 matchingWords
  end.

(** The loop [for (i = 0; i < shorterLength; i++)] that counts the
    indices at which the two strings hold the same code unit. *)
Fixpoint countSameChars (norm1 norm2 : jsstring) (sameCharCount : nat) : nat :=
  match norm1, norm2 with
  | c :: r1, d :: r2 =>
      countSameChars r1 r2
        (if bool_decide (c = d) then S sameCharCount else sameCharCount)
  | _, _ => sameCharCount
  end.

Definition ofNat (n : nat) : Q := inject_Z (Z.of_nat n).

Definition calculateStringMatchScore (str1 str2 : option jsstring) : Q :=
  match str1, str2 with
  | Some (c1 :: r1), Some (c2 :: r2) =>
      let norm1 := normalizeString (c1 :: r1) in
      let norm2 := normalizeString (c2 :: r2) in
      if streq norm1 norm2 then 1
      else if includes norm1 norm2 || includes norm2 norm1 then
        let lengthRatio :=
          ofNat (Nat.min (length norm1) (length norm2)) /
          ofNat (Nat.max (length norm1) (length norm2)) in
        (8 # 10) * lengthRatio
      else
        let words1 := splitSpaces norm1 in
        let words2 := splitSpaces norm2 in
        let matchingWords := countMatchingWords words1 words2 0 in
        let wordSimilarity :=
          ofNat matchingWords / ofNat (Nat.max (length words1) (length words2)) in
        let longerLength := Nat.max (length norm1) (length norm2) in
        let sameCharCount := countSameChars norm1 norm2 0 in
        let charSimilarity := ofNat sameCharCount / ofNat longerLength in
        wordSimilarity * (7 # 10) + charSimilarity * (3 # 10)
  | _, _ => 0
  end.

(** [Math.max(...xs, 0)] *)
Definition mathMax0 (xs : list Q) : Q := foldr Qmax 0 xs.

(** The position comparison of the series branch. *)
Definition seriesPositionScore (fp mp : option Position) : Q :=
  match fp, mp with
  | Some p1, Some p2 =>
      if truthyPosition fp && truthyPosition mp then
        if streq (positionToString p1) (positionToString p2) then 1
        else
          match positionParseInt p1, positionParseInt p2 with
          | Some filePosition, Some metaPosition =>
              if (filePosition =? metaPosition)%Z then 1 else 0
          | _, _ => 0
          end
      else 0
  | _, _ => 0
  end.

(** The three optional contributions; each yields what it adds to
    [score] and to [maxScore]. *)
Definition titlePart (fileInfo : FileInfo.t) (metadata : Metadata.t) : Q * Q :=
  if truthyString (FileInfo.title fileInfo) && truthyString (Metadata.title metadata)
  then (calculateStringMatchScore (FileInfo.title fileInfo) (Metadata.title metadata) * 60,
        60)
  else (0, 0).

Definition authorPart (fileInfo : FileInfo.t) (metadata : Metadata.t) : Q * Q :=
  match Metadata.authors metadata with
  | Some (a :: rest) =>
      if truthyString (FileInfo.author fileInfo) then
        let authorMatches :=
          map (fun author =>
                 calculateStringMatchScore (FileInfo.author fileInfo) (Author.name author))
              (a :: rest) in
        let bestAuthorMatch := mathMax0 authorMatches in
        (bestAuthorMatch * 30, 30)
      else (0, 0)
  | _ => (0, 0)
  end.

Definition seriesPart (fileInfo : FileInfo.t) (metadata : Metadata.t) : Q * Q :=
  match FileInfo.series fileInfo, Metadata.series metadata with
  | Some fs, Some ms =>
      let seriesNameScore :=
        calculateStringMatchScore (Series.name fs) (Series.name ms) in
      let seriesPositionScore :=
        seriesPositionScore (Series.position fs) (Series.position ms) in
      let combinedSeriesScore :=
        seriesNameScore * (7 # 10) + seriesPositionScore * (3 # 10) in
      (combinedSeriesScore * 10, 10)
  | _, _ => (0, 0)
  end.

Definition calculateMatchScore
    (fileInfo : option FileInfo.t) (metadata : option Metadata.t) : Q :=
  match fileInfo, metadata with
  | Some fileInfo, Some metadata =>
      let '(s1, m1) := titlePart fileInfo metadata in
      let '(s2, m2) := authorPart fileInfo metadata in
      let '(s3, m3) := seriesPart fileInfo metadata in
      let score := 0 + s1 + s2 + s3 in
      let maxScore := 0 + m1 + m2 + m3 in
      if Qeq_bool maxScore 0 then 0 else score / maxScore
  | _, _ => 0
  end.

(** What [rankMetadataResults] may be handed as [results]. *)
Inductive Results :=
| ResultsNull
| ResultsNotArray
| ResultsArray (rs : list (option Metadata.t)).

(** [{ ...result, _matchScore: score }]: spreading [null] copies no
    field. *)
Definition noFields : Metadata.t :=
  {| Metadata.title := None; Metadata.authors := None; Metadata.series := None |}.

Record Scored := { fields : Metadata.t; _matchScore : Q }.

Definition spread (result : option Metadata.t) (score : Q) : Scored :=
  {| fields := default noFields result; _matchScore := score |}.

(** The comparator [(a, b) => b._matchScore - a._matchScore], by sign. *)
Definition byScoreDescending (a b : Scored) : Z :=
  match (_matchScore b ?= _matchScore a)%Q with
  | Lt => (-1)%Z
  | Eq => 0%Z
  | Gt => 1%Z
  end.

Definition rankMetadataResults
    (fileInfo : option FileInfo.t) (results : Results) : list Scored :=
  match fileInfo, results with
  | Some _, ResultsArray rs =>
      let scoredResults :=
        map (fun result => spread result (calculateMatchScore fileInfo result)) rs in
      sort byScoreDescending scoredResults
  | _, _ => []
  end.

End Matcher.

(* ================================================================= *)
(** ** The [path] module of the platform (POSIX flavour) *)
(* ================================================================= *)

Module Path.
Import JS.

Definition slash : ascii := "/"%char.
Definition dot : ascii := "."%char.

Definition isSlash (c : ascii) : bool := bool_decide (c = slash).
Definition notSlash (c : ascii) : bool := negb (isSlash c).

(** The last segment of a path, trailing separators dropped. *)
Definition lastSegment (path : jsstring) : jsstring :=
  rev (takeWhile notSlash (dropWhile isSlash (rev path))).

(** The separators that end a path. *)
Definition trailingSlashes (path : jsstring) : jsstring :=
  takeWhile isSlash (rev path).

(** [path.basename(path)] *)
Definition basename (path : jsstring) : jsstring := lastSegment path.

(** [path.basename(path, suffix)].  The suffix is taken off the last
    segment when that segment is longer than the suffix and ends with it.
    When the segment is a proper ending of the suffix the scan runs out
    before the suffix does, and the segment is returned with the
    separators that follow it. *)
Definition basenameExt (path suffix : jsstring) : jsstring :=
  if bool_decide (suffix = []) || (length path <? length suffix)%nat
  then lastSegment path
  else if streq suffix path then []
  else
    let base := lastSegment path in
    match base with
    | [] => path
    | _ =>
        if (length suffix <? length base)%nat && endsWith base suffix
        then take (length base - length suffix) base
        else if (length base <? length suffix)%nat && endsWith suffix base
        then base ++ rev (trailingSlashes path)
        else base
    end.

(** [path.dirname(path)]: code unit 0 is never inspected by the scan. *)
Definition dirname (path : jsstring) : jsstring :=
  match path with
  | [] => [dot]
  | c0 :: body =>
      let hasRoot := isSlash c0 in
      match dropWhile notSlash (dropWhile isSlash (rev body)) with
      | [] => if hasRoot then [slash] else [dot]
      | _ :: before =>
          match before with
          | [] => if hasRoot then [slash; slash] else [c0]
          | _ => c0 :: rev before
          end
      end
  end.

(** Splitting at the last dot: what is in front of it and what follows. *)
Definition afterLastDot (base : jsstring) : jsstring :=
  rev (takeWhile (fun c => negb (bool_decide (c = dot))) (rev base)).

(** [path.extname(path)] *)
Definition extname (path : jsstring) : jsstring :=
  let base := lastSegment path in
  let tail := afterLastDot base in
  if (length base <=? length tail)%nat then []            (* no dot *)
  else if (length base =? S (length tail))%nat then []    (* dot leads *)
  else if streq base [dot; dot] then []
  else dot :: tail.

(** [s.split('/')] *)
Fixpoint splitSlash_from (cur : jsstring) (s : jsstring) : list jsstring :=
  match s with
  | [] => [rev cur]
  | c :: s' =>
      if isSlash c then rev cur :: splitSlash_from [] s'
      else splitSlash_from (c :: cur) s'
  end.

Definition splitSlash (s : jsstring) : list jsstring := splitSlash_from [] s.

(** [segments.join('/')] *)
Fixpoint joinSlash (segs : list jsstring) : jsstring :=
  match segs with
  | [] => []
  | [s] => s
  | s :: rest => s ++ slash :: joinSlash rest
  end.

(** One step of the segment walk of [normalizeString]; [res] is the
    stack of kept segments, last kept segment first. *)
Definition normalizeStep (allowAboveRoot : bool) (res : list jsstring)
    (seg : jsstring) : list jsstring :=
  if bool_decide (seg = []) || bool_decide (seg = [dot]) then res
  else if bool_decide (seg = [dot; dot]) then
    match res with
    | [] => if allowAboveRoot then [seg] else []
    | top :: below =>
        if bool_decide (top = [dot; dot])
        then (if allowAboveRoot then seg :: res else res)
        else below
    end
  else seg :: res.

Definition normalizeSegments (allowAboveRoot : bool) (path : jsstring)
  : list jsstring :=
  rev (fold_left (normalizeStep allowAboveRoot) (splitSlash path) []).

Definition endsWithSlash (s : jsstring) : bool :=
  match rev s with
  | c :: _ => isSlash c
  | [] => false
  end.

(** [path.normalize(path)] *)
Definition normalize (path : jsstring) : jsstring :=
  match path with
  | [] => [dot]
  | c0 :: _ =>
      let isAbsolute := isSlash c0 in
      let trailingSeparator := endsWithSlash path in
      let p := joinSlash (normalizeSegments (negb isAbsolute) path) in
      match p with
      | [] =>
          if isAbsolute then [slash]
          else if trailingSeparator then [dot; slash] else [dot]
      | _ =>
          let p' := if trailingSeparator then p ++ [slash] else p in
          if isAbsolute then slash :: p' else p'
      end
  end.

(** [path.join(a, b)]: empty arguments are skipped. *)
Definition join (a b : jsstring) : jsstring :=
  match a, b with
  | [], [] => [dot]
  | [], _ => normalize b
  | _, [] => normalize a
  | _, _ => normalize (a ++ slash :: b)
  end.

(** Measures used to show that normalizing does not lengthen a path:
    the length of the segments, one more for each. *)
Definition weight (segs : list jsstring) : nat :=
  foldr (fun seg n => S (length seg + n)) 0%nat segs.

(** The number of empty segments. *)
Definition empties (segs : list jsstring) : nat :=
  foldr (fun seg n => if bool_decide (seg = []) then S n else n) 0%nat segs.

End Path.

(* ================================================================= *)
(** ** BookGrouper: [FileScanner.groupFilesByBooks] *)
(* ================================================================= *)

Module Scanner.
Import JS.

Module FileEntry.
Record t := {
  path : jsstring;
  name : jsstring;
  directory : jsstring;
  extension : jsstring;
  size : Z;
  created : Z;
  modified : Z
}.
End FileEntry.

Module Book.
Record t := {
  key : jsstring;
  name : jsstring;
  directory : jsstring;
  files : list FileEntry.t;
  totalSize : Z
}.
End Book.

(** The class [[_-\s]]: underscore, hyphen or white space. *)
Definition isSep (c : ascii) : bool :=
  bool_decide (c = "_"%char) || bool_decide (c = "-"%char) || isSpace c.

(** Matching a literal word under the [i] flag, at the front of [s]. *)
Fixpoint matchWordCI (word s : jsstring) : option jsstring :=
  match word, s with
  | [], _ => Some s
  | _ :: _, [] => None
  | p :: word', c :: s' =>
      if bool_decide (toLowerChar c = toLowerChar p) then matchWordCI word' s'
      else None
  end.

(** [^(\d+)[_-\s]+] at the front of [s]: the digits and what follows the
    separators. *)
Definition matchLeadingNumber (s : jsstring) : option (jsstring * jsstring) :=
  match takeWhile isDigit s, dropWhile isDigit s with
  | d :: ds, c :: rest =>
      if isSep c then Some (d :: ds, dropWhile isSep (c :: rest)) else None
  | _, _ => None
  end.

(** [.replace(/^(\d+)[_-\s]+/, '')] *)
Definition stripLeadingNumber (s : jsstring) : jsstring :=
  match matchLeadingNumber s with
  | Some (_, rest) => rest
  | None => s
  end.

(** [word[_-\s]*(\d+)] under the [i] flag at the front of [s]: the digits
    and what follows them. *)
Definition matchNumbered (word s : jsstring) : option (jsstring * jsstring) :=
  match matchWordCI word s with
  | Some r =>
      let r' := dropWhile isSep r in
      match takeWhile isDigit r' with
      | d :: ds => Some (d :: ds, dropWhile isDigit r')
      | [] => None
      end
  | None => None
  end.

(** [.replace(/word[_-\s]*\d+[_-\s]*/i, '')]: the leftmost match goes. *)
Fixpoint stripNumbered (word s : jsstring) : jsstring :=
  match matchNumbered word s with
  | Some (_, rest) => dropWhile isSep rest
  | None =>
      match s with
      | [] => []
      | c :: s' => c :: stripNumbered word s'
      end
  end.

(** [\s+word\s*\d+$] under the [i] flag at the front of [s]. *)
Definition matchTrailing (word s : jsstring) : bool :=
  match s with
  | c :: _ =>
      isSpace c &&
      match matchWordCI word (dropWhile isSpace s) with
      | Some r =>
          let r' := dropWhile isSpace r in
          match takeWhile isDigit r', dropWhile isDigit r' with
          | _ :: _, [] => true
          | _, _ => false
          end
      | None => false
      end
  | [] => false
  end.

(** [.replace(/\s+word\s*\d+$/i, '')] *)
Fixpoint stripTrailing (word s : jsstring) : jsstring :=
  match s with
  | [] => []
  | c :: s' => if matchTrailing word s then [] else c :: stripTrailing word s'
  end.

(** The first capture of [/word[_-\s]*(\d+)/i], leftmost match. *)
Fixpoint findNumbered (word s : jsstring) : option jsstring :=
  match matchNumbered word s with
  | Some (digits, _) => Some digits
  | None =>
      match s with
      | [] => None
      | _ :: s' => findNumbered word s'
      end
  end.

(** [\s(\d+)\s*\.[^.]+$] at the front of [s]: the digits. *)
Definition matchNumberBeforeExt (s : jsstring) : option jsstring :=
  match s with
  | c :: r =>
      if isSpace c then
        match takeWhile isDigit r with
        | d :: ds =>
            match dropWhile isSpace (dropWhile isDigit r) with
            | "."%char :: e :: ext =>
                if forallb (fun x => negb (bool_decide (x = "."%char))) (e :: ext)
                then Some (d :: ds) else None
            | _ => None
            end
        | [] => None
        end
      else None
  | [] => None
  end.

Fixpoint findNumberBeforeExt (s : jsstring) : option jsstring :=
  match matchNumberBeforeExt s with
  | Some digits => Some digits
  | None =>
      match s with
      | [] => None
      | _ :: s' => findNumberBeforeExt s'
      end
  end.

(** The four patterns in their order; the first one that matches gives
    the number, [None] is [null]. *)
Definition _extractTrackNumber (filename : jsstring) : option Z :=
  match findNumbered (js "track") filename with
  | Some digits => parseInt digits
  | None =>
  match findNumbered (js "chapter") filename with
  | Some digits => parseInt digits
  | None =>
  match matchLeadingNumber filename with
  | Some (digits, _) => parseInt digits
  | None =>
  match findNumberBeforeExt filename with
  | Some digits => parseInt digits
  | None => None
  end end end end.

Definition stripPatterns (baseName : jsstring) : jsstring :=
  stripTrailing (js "disc")
    (stripTrailing (js "part")
       (stripNumbered (js "chapter")
          (stripNumbered (js "track")
             (stripLeadingNumber baseName)))).

Definition _identifyBookKey (file : FileEntry.t) : jsstring :=
  let baseName := Path.basenameExt (FileEntry.name file) (FileEntry.extension file) in
  let bookName := trim (stripPatterns baseName) in
  let bookName :=
    if (length bookName <? 3)%nat && (0 <? length baseName)%nat
    then baseName else bookName in
  let dirBaseName := Path.basename (FileEntry.directory file) in
  toLowerCase (dirBaseName ++ "_"%char :: bookName).

(** [.replace(/[_-]+/g, ' ')] *)
Definition isUnderscoreOrHyphen (c : ascii) : bool :=
  bool_decide (c = "_"%char) || bool_decide (c = "-"%char).

Fixpoint dashesToSpace (s : jsstring) : jsstring :=
  match s with
  | [] => []
  | c :: s' =>
      if isUnderscoreOrHyphen c then
        match s' with
        | d :: _ => if isUnderscoreOrHyphen d then dashesToSpace s'
                    else " "%char :: dashesToSpace s'
        | [] => [" "%char]
        end
      else c :: dashesToSpace s'
  end.

Definition _extractBookName (filename : jsstring) : jsstring :=
  let baseName := Path.basenameExt filename (Path.extname filename) in
  trim (dashesToSpace (stripPatterns baseName)).

(** [this._extractTrackNumber(x.name) || 0] *)
Definition trackNumberOrZero (file : FileEntry.t) : Z :=
  default 0%Z (_extractTrackNumber (FileEntry.name file)).

(** The comparator of the sort inside each book. *)
Definition byTrackNumber (a b : FileEntry.t) : Z :=
  (trackNumberOrZero a - trackNumberOrZero b)%Z.

(** The loop state: the array [books] and the map [bookMap].  The map
    holds the very objects of the array; here it holds their index. *)
Record Grouping := {
  books : list Book.t;
  bookMap : gmap jsstring nat
}.

Definition newBook (bookKey : jsstring) (file : FileEntry.t) : Book.t :=
  {| Book.key := bookKey;
     Book.name := _extractBookName (FileEntry.name file);
     Book.directory := FileEntry.directory file;
     Book.files := [file];
     Book.totalSize := FileEntry.size file |}.

(** [book.files.push(file); book.totalSize += file.size] *)
Definition addFile (file : FileEntry.t) (book : Book.t) : Book.t :=
  {| Book.key := Book.key book;
     Book.name := Book.name book;
     Book.directory := Book.directory book;
     Book.files := Book.files book ++ [file];
     Book.totalSize := (Book.totalSize book + FileEntry.size file)%Z |}.

(** The body of the loop over the sorted files. *)
Definition groupStep (st : Grouping) (file : FileEntry.t) : Grouping :=
  let bookKey := _identifyBookKey file in
  match bookMap st !! bookKey with
  | None =>
      {| books := books st ++ [newBook bookKey file];
         bookMap := <[bookKey := length (books st)]> (bookMap st) |}
  | Some i =>
      {| books := alter (addFile file) i (books st);
         bookMap := bookMap st |}
  end.

Definition sortBookFiles (book : Book.t) : Book.t :=
  {| Book.key := Book.key book;
     Book.name := Book.name book;
     Book.directory := Book.directory book;
     Book.files := sort byTrackNumber (Book.files book);
     Book.totalSize := Book.totalSize book |}.

Section Grouping.
(** [a.localeCompare(b)], by sign; the collation is the platform's. *)
Variable localeCompare : jsstring -> jsstring -> Z.

Definition byName (a b : FileEntry.t) : Z :=
  localeCompare (FileEntry.name a) (FileEntry.name b).

Definition groupFilesByBooks (files : list FileEntry.t) : list Book.t :=
  let sortedFiles := sort byName files in
  let st := fold_left groupStep sortedFiles {| books := []; bookMap := ∅ |} in
  map sortBookFiles (books st).
End Grouping.

End Scanner.

(* ================================================================= *)
(** ** PathTemplateEngine: [FileOrganizer._sanitizeFilePath] *)
(* ================================================================= *)

Module Organizer.
Import JS.

(** The invalid characters: less-than, greater-than, colon, double
    quote, bar, question mark, asterisk and backslash. *)
Definition isInvalidChar (c : ascii) : bool :=
  let n := code c in
  ((n =? 60) || (n =? 62) || (n =? 58) || (n =? 34) || (n =? 124)
   || (n =? 63) || (n =? 42) || (n =? 92))%N.

(** [.replace(invalidChars, '_')] *)
Definition replaceInvalid (s : jsstring) : jsstring :=
  map (fun c => if isInvalidChar c then "_"%char else c) s.

Definition MAX_PATH_LENGTH : Z := 240.

(** [s.substring(0, n)]: a negative [n] counts as 0. *)
Definition substring0 (s : jsstring) (n : Z) : jsstring := take (Z.to_nat n) s.

Definition _sanitizeFilePath (filePath : jsstring) : jsstring :=
  let sanitized := replaceInvalid filePath in
  let sanitized := collapseSpaces sanitized in
  if (MAX_PATH_LENGTH <? Z.of_nat (length sanitized))%Z then
    let ext := Path.extname sanitized in
    let dirName := Path.dirname sanitized in
    let baseName := Path.basenameExt sanitized ext in
    let maxBaseNameLength :=
      (MAX_PATH_LENGTH - Z.of_nat (length dirName) - Z.of_nat (length ext) - 1)%Z in
    let truncatedBaseName := substring0 baseName maxBaseNameLength in
    Path.join dirName (truncatedBaseName ++ ext)
  else sanitized.

End Organizer.

(* ================================================================= *)
(** ** DirectoryScanner: [FileSystemService.scanDirectory] *)
(* ================================================================= *)

Module FileSystem.
Import JS.

(** What is thrown: an error of the platform, which carries a code, or
    an [Error] made from a message. *)
Inductive Error :=
| SystemError (code : string)
| MessageError (message : string).

(** The course of a computation: it returns, it throws, or the fuel of
    the model ran out before it did either. *)
Inductive Run (A : Type) :=
| Done (a : A)
| Thrown (e : Error)
| OutOfFuel.
Arguments Done {A} a.
Arguments Thrown {A} e.
Arguments OutOfFuel {A}.

Definition bind {A B} (m : Run A) (k : A -> Run B) : Run B :=
  match m with
  | Done a => k a
  | Thrown e => Thrown e
  | OutOfFuel => OutOfFuel
  end.

Notation "'do' x <- m ;; k" := (bind m (fun x => k))
  (at level 10, x name, m at level 99, k at level 200).

Definition liftResult {A} (r : Error + A) : Run A :=
  match r with
  | inl e => Thrown e
  | inr a => Done a
  end.

(** [try { m } catch (error) { h error }] *)
Definition tryCatch {A} (m : Run A) (h : Error -> Run A) : Run A :=
  match m with
  | Thrown e => h e
  | _ => m
  end.

Inductive Kind := KFile | KDirectory | KSymbolicLink | KOther.

Module Dirent.
Record t := { name : jsstring; kind : Kind }.
End Dirent.

Module Stats.
Record t := {
  isDirectory : bool;
  isFile : bool;
  size : Z;
  birthtime : Z;
  mtime : Z
}.
End Stats.

(** The file system the service talks to, as its calls see it. *)
Record FS := {
  stat : jsstring -> Error + Stats.t;
  readdir : jsstring -> Error + list Dirent.t;
  readlink : jsstring -> Error + jsstring;
  cwd : jsstring
}.

Definition SUPPORTED_EXTENSIONS : list jsstring :=
  map js [".mp3"; ".m4a"; ".m4b"; ".aac"; ".ogg"; ".flac"; ".opus"]%string.

Definition isSupportedAudioFormat (filePath : jsstring) : bool :=
  let ext := toLowerCase (Path.extname filePath) in
  existsb (streq ext) SUPPORTED_EXTENSIONS.

(** [validateFilePath]: not blank, no NUL, and none of less-than,
    greater-than, colon, double quote, bar, question mark, asterisk. *)
Definition isForbiddenInPath (c : ascii) : bool :=
  let n := code c in
  ((n =? 0) || (n =? 60) || (n =? 62) || (n =? 58) || (n =? 34)
   || (n =? 124) || (n =? 63) || (n =? 42))%N.

Definition validateFilePath (value : jsstring) (name : string) : Run unit :=
  match trim value with
  | [] => Thrown (MessageError (name ++ " must not be empty"))
  | _ =>
      if existsb isForbiddenInPath value
      then Thrown (MessageError (name ++ " contains invalid characters"))
      else Done tt
  end.

(** [path.resolve(dirPath, targetPath)] *)
Definition resolve (fs : FS) (dirPath targetPath : jsstring) : jsstring :=
  let full :=
    match targetPath with
    | c :: _ =>
        if Path.isSlash c then targetPath
        else
          match dirPath with
          | d :: _ =>
              if Path.isSlash d then dirPath ++ Path.slash :: targetPath
              else cwd fs ++ Path.slash :: dirPath ++ Path.slash :: targetPath
          | [] => cwd fs ++ Path.slash :: targetPath
          end
    | [] =>
        match dirPath with
        | d :: _ =>
            if Path.isSlash d then dirPath
            else cwd fs ++ Path.slash :: dirPath
        | [] => cwd fs
        end
    end in
  Path.slash :: Path.joinSlash (Path.normalizeSegments false full).

Module Config.
Record t := {
  maxScanDepth : option Z;
  followSymlinks : option bool;
  includeHidden : option bool
}.
End Config.

(** The options of one scan, as the caller gives them: a field that the
    caller leaves out is [None].  The code only tests the flags, so a flag
    that is given is held by its truthiness ([undefined] and [null] are
    falsy); [abortSignal] likewise holds whether a signal is given and
    aborted.  [maxDepth] is compared as a number: [Some (Some d)] is the
    number [d], and [Some None] is the key given with [undefined] or
    [null], which the spread copies over the default like any other
    value. *)
Module ScanArgs.
Record t := {
  recursive : option bool;
  maxDepth : option (option Z);
  followSymlinks : option bool;
  includeHidden : option bool;
  abortSignal : option bool
}.
End ScanArgs.

(** The merged options; [abortSignal] holds the signal's [aborted], and
    a [maxDepth] of [None] is [undefined] or [null]. *)
Module ScanOptions.
Record t := {
  recursive : bool;
  maxDepth : option Z;
  followSymlinks : bool;
  includeHidden : bool;
  abortSignal : option bool
}.
End ScanOptions.

(** [config.maxScanDepth || 5]: 0 is falsy. *)
Definition orDefault (v : option Z) (d : Z) : Z :=
  match v with
  | Some n => if (n =? 0)%Z then d else n
  | None => d
  end.

Definition defaultScanOptions (config : Config.t) : ScanOptions.t :=
  {| ScanOptions.recursive := true;
     ScanOptions.maxDepth := Some (orDefault (Config.maxScanDepth config) 5);
     ScanOptions.followSymlinks :=
       match Config.followSymlinks config with Some false => false | _ => true end;
     ScanOptions.includeHidden :=
       match Config.includeHidden config with Some true => true | _ => false end;
     ScanOptions.abortSignal := None |}.

(** [{ ...this.defaultScanOptions, ...options }] *)
Definition mergeOptions (d : ScanOptions.t) (o : ScanArgs.t) : ScanOptions.t :=
  {| ScanOptions.recursive := default (ScanOptions.recursive d) (ScanArgs.recursive o);
     ScanOptions.maxDepth := default (ScanOptions.maxDepth d) (ScanArgs.maxDepth o);
     ScanOptions.followSymlinks :=
       default (ScanOptions.followSymlinks d) (ScanArgs.followSymlinks o);
     ScanOptions.includeHidden :=
       default (ScanOptions.includeHidden d) (ScanArgs.includeHidden o);
     ScanOptions.abortSignal :=
       match ScanArgs.abortSignal o with
       | Some a => Some a
       | None => ScanOptions.abortSignal d
       end |}.

Definition getFileInfo (fs : FS) (filePath : jsstring) : Run Scanner.FileEntry.t :=
  do _ <- validateFilePath filePath "File path" ;;
  do stats <- liftResult (stat fs filePath) ;;
  Done {| Scanner.FileEntry.path := filePath;
          Scanner.FileEntry.name := Path.basename filePath;
          Scanner.FileEntry.directory := Path.dirname filePath;
          Scanner.FileEntry.extension := toLowerCase (Path.extname filePath);
          Scanner.FileEntry.size := Stats.size stats;
          Scanner.FileEntry.created := Stats.birthtime stats;
          Scanner.FileEntry.modified := Stats.mtime stats |}.

Definition isHidden (entry : Dirent.t) : bool :=
  startsWith (Dirent.name entry) ["."%char].

Section Scan.
Variable fs : FS.
Variable options : ScanOptions.t.

(** What following one symbolic link adds; its failures are logged and
    add nothing. *)
Definition followLink
    (recur : jsstring -> Z -> Run (list Scanner.FileEntry.t))
    (dirPath fullPath : jsstring) (currentDepth : Z)
  : Run (list Scanner.FileEntry.t) :=
  tryCatch
    (do targetPath <- liftResult (readlink fs fullPath) ;;
     let resolvedPath := resolve fs dirPath targetPath in
     do targetStats <- liftResult (stat fs resolvedPath) ;;
     if Stats.isDirectory targetStats && ScanOptions.recursive options then
       recur resolvedPath (currentDepth + 1)%Z
     else if Stats.isFile targetStats && isSupportedAudioFormat resolvedPath then
       do fileInfo <- getFileInfo fs resolvedPath ;;
       Done [fileInfo]
     else Done [])
    (fun _ => Done []).

(** What one directory entry adds to [results]. *)
Definition scanEntry
    (recur : jsstring -> Z -> Run (list Scanner.FileEntry.t))
    (dirPath : jsstring) (currentDepth : Z) (entry : Dirent.t)
  : Run (list Scanner.FileEntry.t) :=
  if negb (ScanOptions.includeHidden options) && isHidden entry then Done []
  else
    let fullPath := Path.join dirPath (Dirent.name entry) in
    match Dirent.kind entry with
    | KDirectory =>
        if ScanOptions.recursive options
        then recur fullPath (currentDepth + 1)%Z
        else Done []
    | KFile =>
        if isSupportedAudioFormat fullPath then
          do fileInfo <- getFileInfo fs fullPath ;;
          Done [fileInfo]
        else Done []
    | KSymbolicLink =>
        if ScanOptions.followSymlinks options
        then followLink recur dirPath fullPath currentDepth
        else Done []
    | KOther => Done []
    end.

(** The loop [for (const entry of entries)]. *)
Fixpoint scanEntries
    (recur : jsstring -> Z -> Run (list Scanner.FileEntry.t))
    (dirPath : jsstring) (currentDepth : Z)
    (entries : list Dirent.t) (results : list Scanner.FileEntry.t)
  : Run (list Scanner.FileEntry.t) :=
  match entries with
  | [] => Done results
  | entry :: rest =>
      do found <- scanEntry recur dirPath currentDepth entry ;;
      scanEntries recur dirPath currentDepth rest (results ++ found)
  end.

(** [options.maxDepth > 0 && currentDepth > options.maxDepth]; both
    [undefined > 0] and [null > 0] are false. *)
Definition depthExceeded (currentDepth : Z) : bool :=
  match ScanOptions.maxDepth options with
  | Some maxDepth => (0 <? maxDepth)%Z && (maxDepth <? currentDepth)%Z
  | None => false
  end.

Definition aborted : bool :=
  match ScanOptions.abortSignal options with
  | Some a => a
  | None => false
  end.

(** [_scanDirectoryRecursive]; each nested call costs one unit of
    fuel. *)
Fixpoint _scanDirectoryRecursive (fuel : nat) (dirPath : jsstring)
    (currentDepth : Z) : Run (list Scanner.FileEntry.t) :=
  if aborted then Done []
  else if depthExceeded currentDepth then Done []
  else
    match fuel with
    | O => OutOfFuel
    | S fuel' =>
        tryCatch
          (do entries <- liftResult (readdir fs dirPath) ;;
           scanEntries (_scanDirectoryRecursive fuel') dirPath currentDepth
             entries [])
          (fun _ => Done [])
    end.
End Scan.

(** What the promise of [scanDirectory] resolves to: the files, or the
    error that [errorHandler.handle] returned. *)
Inductive ScanValue :=
| Files (results : list Scanner.FileEntry.t)
| ErrorValue (error : Error).

(** [errorHandler.handle]: logs and returns the error. *)
Definition handle (error : Error) : Error := error.

Definition checkDirectory (fs : FS) (dirPath : jsstring) : Run unit :=
  tryCatch
    (do stats <- liftResult (stat fs dirPath) ;;
     if negb (Stats.isDirectory stats)
     then Thrown (MessageError
                    ("Path is not a directory: " ++ string_of_list_ascii dirPath))
     else Done tt)
    (fun error =>
       match error with
       | SystemError "ENOENT" =>
           Thrown (MessageError
                     ("Directory does not exist: " ++ string_of_list_ascii dirPath))
       | _ => Thrown error
       end).

Definition scanDirectory (fs : FS) (config : Config.t) (fuel : nat)
    (dirPath : jsstring) (options : ScanArgs.t) : Run ScanValue :=
  tryCatch
    (do _ <- validateFilePath dirPath "Directory path" ;;
     let scanOptions := mergeOptions (defaultScanOptions config) options in
     do _ <- checkDirectory fs dirPath ;;
     do results <- _scanDirectoryRecursive fs scanOptions fuel dirPath 1 ;;
     Done (Files results))
    (fun error => Done (ErrorValue (handle error))).

End FileSystem.

(* ================================================================= *)
(** ** TaskQueue: [createQueue] *)
(* ================================================================= *)

Module Queue.

(** A queued entry [{ fn, resolve, reject }].  Every call of [add] makes
    a new one; [ticket] tells them apart and is the rank of the call. *)
Record Task := { ticket : nat }.

Inductive Outcome := Fulfilled | Rejected | Cancelled.

(** What can be observed of a run: a task is started (its [fn] is
    scheduled), or its promise is settled. *)
Inductive Event :=
| Started (t : Task)
| Settled (t : Task) (o : Outcome).

(** The variables closed over by the queue object, then the promise
    chains that are in flight, the number of tickets handed out and the
    events so far (latest first). *)
Record State := {
  queue : list Task;
  running : nat;
  completed : nat;
  failed : nat;
  inflight : list Task;
  submitted : nat;
  events : list Event
}.

Definition initial : State :=
  {| queue := []; running := 0; completed := 0; failed := 0;
     inflight := []; submitted := 0; events := [] |}.

Section WithConcurrency.
Variable concurrency : nat.

Definition processNext (st : State) : State :=
  match queue st with
  | [] => st
  | task :: rest =>
      if (concurrency <=? running st)%nat then st
      else
        {| queue := rest;
           running := S (running st);
           completed := completed st;
           failed := failed st;
           inflight := inflight st ++ [task];
           submitted := submitted st;
           events := Started task :: events st |}
  end.

(** [add(fn)]: push, then [processNext()]. *)
Definition add (st : State) : State :=
  let task := {| ticket := submitted st |} in
  processNext
    {| queue := queue st ++ [task];
       running := running st;
       completed := completed st;
       failed := failed st;
       inflight := inflight st;
       submitted := S (submitted st);
       events := events st |}.

Definition removeTask (t : Task) (l : list Task) : list Task :=
  filter (fun u => ticket u <> ticket t) l.

(** The success handler of a started task. *)
Definition onSuccess (t : Task) (st : State) : State :=
  processNext
    {| queue := queue st;
       running := pred (running st);
       completed := S (completed st);
       failed := failed st;
       inflight := removeTask t (inflight st);
       submitted := submitted st;
       events := Settled t Fulfilled :: events st |}.

(** The error handler of a started task. *)
Definition onError (t : Task) (st : State) : State :=
  processNext
    {| queue := queue st;
       running := pred (running st);
       completed := completed st;
       failed := S (failed st);
       inflight := removeTask t (inflight st);
       submitted := submitted st;
       events := Settled t Rejected :: events st |}.

(** [clear(reason)]: every waiting task is rejected; the count of those
    is returned. *)
Definition clear (st : State) : nat * State :=
  (length (queue st),
   {| queue := [];
      running := running st;
      completed := completed st;
      failed := failed st;
      inflight := inflight st;
      submitted := submitted st;
      events := rev (map (fun t => Settled t Cancelled) (queue st)) ++ events st |}).

Inductive Label :=
| Add
| Succeed (t : Task)
| Fail (t : Task)
| Clear.

(** One turn of the event loop that touches the queue. *)
Inductive step : State -> Label -> State -> Prop :=
| step_add st : step st Add (add st)
| step_succeed st t : In t (inflight st) -> step st (Succeed t) (onSuccess t st)
| step_fail st t : In t (inflight st) -> step st (Fail t) (onError t st)
| step_clear st : step st Clear (snd (clear st)).

Inductive run : State -> list Label -> State -> Prop :=
| run_nil st : run st [] st
| run_cons st l st' ls st'' : step st l st' -> run st' ls st'' -> run st (l :: ls) st''.

Definition reachable (st : State) : Prop := exists ls, run initial ls st.

Definition isSettle (l : Label) : bool :=
  match l with
  | Succeed _ | Fail _ => true
  | _ => false
  end.

Definition isClear (l : Label) : bool :=
  match l with
  | Clear => true
  | _ => false
  end.
End WithConcurrency.

Record Status := {
  status_queued : nat;
  status_running : nat;
  status_completed : nat;
  status_failed : nat;
  status_total : nat
}.

Definition status (st : State) : Status :=
  {| status_queued := length (queue st);
     status_running := running st;
     status_completed := completed st;
     status_failed := failed st;
     status_total := length (queue st) + running st + completed st + failed st |}.

(** The tickets of the tasks started so far, in the order of starting. *)
Definition startedTickets (st : State) : list nat :=
  rev (omap (fun e => match e with Started t => Some (ticket t) | _ => None end)
         (events st)).

Definition settledTickets (st : State) : list nat :=
  omap (fun e => match e with Settled t _ => Some (ticket t) | _ => None end)
    (events st).

End Queue.

(* ================================================================= *)
(** ** The specification's wording of the string blend *)
(* ================================================================= *)

(** These definitions follow the words of the specification, not the
    code; the properties below compare them with [Matcher]. *)
Module MatcherSpec.
Import JS Matcher.
Local Open Scope Q_scope.

(** A word counts when it has at least three characters. *)
Definition longEnough (w : jsstring) : bool := (3 <=? length w)%nat.

(** Two words pair up when they are equal or one contains the other. *)
Definition pairUp (w1 w2 : jsstring) : bool :=
  streq w1 w2 || includes w1 w2 || includes w2 w1.

(** The words of the first string that pair up with a word of the
    second. *)
Definition wordOverlapCount (words1 words2 : list jsstring) : nat :=
  length (List.filter
            (fun w1 => longEnough w1 &&
                       existsb (fun w2 => longEnough w2 && pairUp w1 w2) words2)
            words1).

(** The indices below the shorter length at which the characters are
    equal. *)
Definition positionalOverlapCount (s1 s2 : jsstring) : nat :=
  length (List.filter (fun i => bool_decide (s1 !! i = s2 !! i))
            (seq 0 (Nat.min (length s1) (length s2)))).

Definition characterPositionalOverlapRatio (s1 s2 : jsstring) : Q :=
  ofNat (positionalOverlapCount s1 s2) / ofNat (Nat.max (length s1) (length s2)).

(** The blend with the count as it is. *)
Definition blend (norm1 norm2 : jsstring) : Q :=
  let words1 := splitSpaces norm1 in
  let words2 := splitSpaces norm2 in
  let wordOverlapRatio :=
    ofNat (wordOverlapCount words1 words2) /
    ofNat (Nat.max (length words1) (length words2)) in
  (7 # 10) * wordOverlapRatio + (3 # 10) * characterPositionalOverlapRatio norm1 norm2.

(** The blend with the count capped at the smaller number of words. *)
Definition cappedBlend (norm1 norm2 : jsstring) : Q :=
  let words1 := splitSpaces norm1 in
  let words2 := splitSpaces norm2 in
  let capped :=
    Nat.min (wordOverlapCount words1 words2)
            (Nat.min (length words1) (length words2)) in
  let wordOverlapRatio :=
    ofNat capped / ofNat (Nat.max (length words1) (length words2)) in
  (7 # 10) * wordOverlapRatio + (3 # 10) * characterPositionalOverlapRatio norm1 norm2.

(** Both sides of a pair without their series field. *)
Definition identityWithoutSeries (fi : FileInfo.t) : FileInfo.t :=
  {| FileInfo.title := FileInfo.title fi;
     FileInfo.author := FileInfo.author fi;
     FileInfo.series := None |}.

Definition candidateWithoutSeries (md : Metadata.t) : Metadata.t :=
  {| Metadata.title := Metadata.title md;
     Metadata.authors := Metadata.authors md;
     Metadata.series := None |}.

Definition identityWithSeries (fi : FileInfo.t) (s : Series.t) : FileInfo.t :=
  {| FileInfo.title := FileInfo.title fi;
     FileInfo.author := FileInfo.author fi;
     FileInfo.series := Some s |}.

Definition candidateWithSeries (md : Metadata.t) (s : Series.t) : Metadata.t :=
  {| Metadata.title := Metadata.title md;
     Metadata.authors := Metadata.authors md;
     Metadata.series := Some s |}.

(** A series pair that matches as the specification says: the names are
    equal once normalized, the positions are equal as strings or as
    parsed integers. *)
Definition positionsEqual (p1 p2 : Position) : Prop :=
  positionToString p1 = positionToString p2 \/
  (exists n, positionParseInt p1 = Some n /\ positionParseInt p2 = Some n).

Definition seriesMatch (fs ms : Series.t) : Prop :=
  exists n1 n2 p1 p2,
    Series.name fs = Some n1 /\ Series.name ms = Some n2 /\
    normalizeString n1 = normalizeString n2 /\
    Series.position fs = Some p1 /\ Series.position ms = Some p2 /\
    positionsEqual p1 p2.


(** Pairs used as examples. *)
Definition exampleIdentity : FileInfo.t :=
  {| FileInfo.title := Some (js "Project Hail Mary");
     FileInfo.author := Some (js "Andy Weir");
     FileInfo.series := None |}.

Definition exampleCandidate : Metadata.t :=
  {| Metadata.title := Some (js "Project Hail Mary");
     Metadata.authors := Some [ {| Author.name := Some (js "Ray Porter") |};
                                {| Author.name := Some (js "Andy Weir") |} ];
     Metadata.series := None |}.

Definition duneIdentity : FileInfo.t :=
  {| FileInfo.title := Some (js "Dune");
     FileInfo.author := Some (js "Frank Herbert");
     FileInfo.series := None |}.

Definition duneCandidate : Metadata.t :=
  {| Metadata.title := Some (js "Dune");
     Metadata.authors := Some [ {| Author.name := Some (js "Frank Herbert") |} ];
     Metadata.series := None |}.

Definition duneSeries (p : Position) : Series.t :=
  {| Series.name := Some (js "Dune Saga"); Series.position := Some p |}.

End MatcherSpec.

(* ================================================================= *)
(** ** The specification's wording of a book's size *)
(* ================================================================= *)

Module ScannerSpec.
Import JS Scanner.

(** The sum of the sizes of the files of a group. *)
Definition sizeSum (files : list FileEntry.t) : Z :=
  foldr (fun f acc => (FileEntry.size f + acc)%Z) 0%Z files.

(** What holds of every book while the files are being taken in: it has
    a file, its files have its key, and its size is the sum of theirs. *)
Definition wellFormed (b : Book.t) : Prop :=
  Book.files b <> [] /\
  (forall f, In f (Book.files b) -> _identifyBookKey f = Book.key b) /\
  Book.totalSize b = sizeSum (Book.files b).

(** The map and the array name the same books: a key is mapped to an
    index exactly when the book at that index has the key. *)
Definition consistent (st : Grouping) : Prop :=
  forall k i, bookMap st !! k = Some i <-> Book.key <$> (books st !! i) = Some k.

(** The loop invariant of the pass over the sorted files. *)
Record groupingInvariant (st : Grouping) (seen : list FileEntry.t) : Prop := {
  inv_consistent : consistent st;
  inv_wellFormed : Forall wellFormed (books st);
  inv_files : Permutation (concat (map Book.files (books st))) seen
}.

(** A file of the example library. *)
Definition chapterFile (n : string) (size : Z) : FileEntry.t :=
  {| FileEntry.path := Path.join (js "/library/MyBook") (js n);
     FileEntry.name := js n;
     FileEntry.directory := js "/library/MyBook";
     FileEntry.extension := js ".mp3";
     FileEntry.size := size;
     FileEntry.created := 0;
     FileEntry.modified := 0 |}.

End ScannerSpec.

(** An example of a collation: code unit order. *)
Module Collation.
Import JS.

Fixpoint codeUnitCompare (a b : jsstring) : Z :=
  match a, b with
  | [], [] => 0
  | [], _ :: _ => -1
  | _ :: _, [] => 1
  | c :: a', d :: b' =>
      match (code c ?= code d)%N with
      | Lt => -1
      | Gt => 1
      | Eq => codeUnitCompare a' b'
      end
  end%Z.
End Collation.

(* ================================================================= *)
(** ** The specification's wording of a sanitized path *)
(* ================================================================= *)

Module OrganizerSpec.
Import JS Organizer.

(** None of the invalid characters occurs. *)
Definition freeOfInvalid (s : jsstring) : Prop :=
  Forall (fun c => isInvalidChar c = false) s.

(** Every run of white space is a single space: a white space character
    is the space, and the character in front of it ([prevSpace] tells
    whether that is white space) is not. *)
Fixpoint singleSpaced (prevSpace : bool) (s : jsstring) : bool :=
  match s with
  | [] => true
  | c :: s' =>
      if isSpace c
      then bool_decide (c = " "%char) && negb prevSpace && singleSpaced true s'
      else singleSpaced false s'
  end.

(** The path in front of the length check. *)
Definition cleaned (filePath : jsstring) : jsstring :=
  collapseSpaces (replaceInvalid filePath).

(** A directory of 250 characters that holds "x.mp3". *)
Definition longDirectoryPath : jsstring :=
  repeat "a"%char 250 ++ js "/x.mp3".

End OrganizerSpec.

(* ================================================================= *)
(** ** The specification's wording of the levels of a scan *)
(* ================================================================= *)

Module FileSystemSpec.
Import JS FileSystem.

Section Levels.
Variable fs : FS.
Variable options : ScanOptions.t.

(** An entry is looked at unless it is hidden and hidden entries are
    left out. *)
Definition lookedAt (entry : Dirent.t) : Prop :=
  negb (ScanOptions.includeHidden options) && isHidden entry = false.

(** The entry [entry] of the directory [dir] gives the file [info]: it
    is a supported audio file, or a followed link to one. *)
Inductive entryYields (dir : jsstring) (entry : Dirent.t)
  : Scanner.FileEntry.t -> Prop :=
| yields_file info :
    lookedAt entry ->
    Dirent.kind entry = KFile ->
    isSupportedAudioFormat (Path.join dir (Dirent.name entry)) = true ->
    getFileInfo fs (Path.join dir (Dirent.name entry)) = Done info ->
    entryYields dir entry info
| yields_link target stats info :
    lookedAt entry ->
    Dirent.kind entry = KSymbolicLink ->
    ScanOptions.followSymlinks options = true ->
    readlink fs (Path.join dir (Dirent.name entry)) = inr target ->
    stat fs (resolve fs dir target) = inr stats ->
    Stats.isFile stats = true ->
    isSupportedAudioFormat (resolve fs dir target) = true ->
    getFileInfo fs (resolve fs dir target) = Done info ->
    entryYields dir entry info.

(** The entry [entry] of the directory [dir] leads one level down, into
    [sub]: it is a directory, or a followed link to one. *)
Inductive entryDescends (dir : jsstring) (entry : Dirent.t) : jsstring -> Prop :=
| descends_directory :
    lookedAt entry ->
    Dirent.kind entry = KDirectory ->
    ScanOptions.recursive options = true ->
    entryDescends dir entry (Path.join dir (Dirent.name entry))
| descends_link target stats :
    lookedAt entry ->
    Dirent.kind entry = KSymbolicLink ->
    ScanOptions.followSymlinks options = true ->
    readlink fs (Path.join dir (Dirent.name entry)) = inr target ->
    stat fs (resolve fs dir target) = inr stats ->
    Stats.isDirectory stats = true ->
    ScanOptions.recursive options = true ->
    entryDescends dir entry (resolve fs dir target).

Definition yields (dir : jsstring) (info : Scanner.FileEntry.t) : Prop :=
  exists entries entry,
    readdir fs dir = inr entries /\ In entry entries /\ entryYields dir entry info.

Definition descends (dir sub : jsstring) : Prop :=
  exists entries entry,
    readdir fs dir = inr entries /\ In entry entries /\ entryDescends dir entry sub.

(** [atLevel root k dir]: the directory [dir] is [k] levels below the
    start of the scan, the root itself being at level 1; so the files
    of a directory at level [k] are [k] levels below the root.  A level
    is one step of the traversal: into a subdirectory, or into the
    directory that a followed link points to, wherever that one lies in
    the tree; the file that a followed link points to counts with the
    directory that holds the link. *)
Inductive atLevel (root : jsstring) : nat -> jsstring -> Prop :=
| atLevel_root : atLevel root 1 root
| atLevel_down k dir sub :
    atLevel root k dir -> descends dir sub -> atLevel root (S k) sub.

(** The file [info] is found [k] levels below [root]. *)
Definition foundAtLevel (root : jsstring) (k : nat) (info : Scanner.FileEntry.t)
  : Prop :=
  exists dir, atLevel root k dir /\ yields dir info.
End Levels.

(** [below root names]: the path that the names lead to from [root],
    one level of the tree for each name. *)
Definition below (root : jsstring) (names : list jsstring) : jsstring :=
  fold_left Path.join names root.


(** A chain of directories: "/r", "/r/d", "/r/d/d", ... *)
Fixpoint chainDir (k : nat) : jsstring :=
  match k with
  | O => js "/r"
  | S k' => chainDir k' ++ js "/d"
  end.

Definition someStats (isDir : bool) : Error + Stats.t :=
  inr {| Stats.isDirectory := isDir; Stats.isFile := negb isDir;
         Stats.size := 4096; Stats.birthtime := 0; Stats.mtime := 0 |}.

(** [deepFs n]: below "/r" there are [n] nested directories named "d";
    the innermost one holds "x.mp3". *)
Definition deepFs (n : nat) : FS :=
  {| stat := fun p =>
       if existsb (fun k => streq p (chainDir k)) (seq 0 (S n)) then someStats true
       else if streq p (chainDir n ++ js "/x.mp3") then someStats false
       else inl (SystemError "ENOENT");
     readdir := fun p =>
       if streq p (chainDir n)
       then inr [ {| Dirent.name := js "x.mp3"; Dirent.kind := KFile |} ]
       else if existsb (fun k => streq p (chainDir k)) (seq 0 n)
       then inr [ {| Dirent.name := js "d"; Dirent.kind := KDirectory |} ]
       else inl (SystemError "ENOENT");
     readlink := fun _ => inl (SystemError "EINVAL");
     cwd := js "/" |}.

(** The file of [deepFs 2] as the scan reports it. *)
Definition thirdLevelFile : Scanner.FileEntry.t :=
  {| Scanner.FileEntry.path := js "/r/d/d/x.mp3";
     Scanner.FileEntry.name := js "x.mp3";
     Scanner.FileEntry.directory := js "/r/d/d";
     Scanner.FileEntry.extension := js ".mp3";
     Scanner.FileEntry.size := 4096;
     Scanner.FileEntry.created := 0;
     Scanner.FileEntry.modified := 0 |}.


(** A library whose root directory exists but cannot be listed. *)
Definition unreadableRootFs : FS :=
  {| stat := fun p =>
       if streq p (js "/audiobooks") then someStats true
       else inl (SystemError "ENOENT");
     readdir := fun _ => inl (SystemError "EACCES");
     readlink := fun _ => inl (SystemError "EINVAL");
     cwd := js "/" |}.

Definition noArgs : ScanArgs.t :=
  {| ScanArgs.recursive := None; ScanArgs.maxDepth := None;
     ScanArgs.followSymlinks := None; ScanArgs.includeHidden := None;
     ScanArgs.abortSignal := None |}.

Definition withMaxDepth (d : Z) : ScanArgs.t :=
  {| ScanArgs.recursive := None; ScanArgs.maxDepth := Some (Some d);
     ScanArgs.followSymlinks := None; ScanArgs.includeHidden := None;
     ScanArgs.abortSignal := None |}.

(** [{ maxDepth: undefined }] *)
Definition withUndefinedMaxDepth : ScanArgs.t :=
  {| ScanArgs.recursive := None; ScanArgs.maxDepth := Some None;
     ScanArgs.followSymlinks := None; ScanArgs.includeHidden := None;
     ScanArgs.abortSignal := None |}.


Definition noConfig : Config.t :=
  {| Config.maxScanDepth := None; Config.followSymlinks := None;
     Config.includeHidden := None |}.


End FileSystemSpec.

(* ================================================================= *)
(** ** The specification's wording of the queue's guarantees *)
(* ================================================================= *)

Module QueueSpec.
Import Queue.

Definition queuedTickets (st : State) : list nat := map ticket (queue st).

Definition inflightTickets (st : State) : list nat := map ticket (inflight st).

(** The tasks that are not settled yet: waiting or running. *)
Definition unsettled (st : State) : nat :=
  (length (queue st) + length (inflight st))%nat.

(** Every task handed to [add] so far is settled. *)
Definition allSettled (st : State) : Prop :=
  forall t, (t < submitted st)%nat -> In t (settledTickets st).

(** First in, first out: the tickets of the started tasks in the order
    of starting, followed by those of the waiting tasks in the order of
    the queue, go up strictly. *)
Definition fifo (st : State) : Prop :=
  StronglySorted lt (startedTickets st ++ queuedTickets st).

(** What holds in every state the queue can be in. *)
Record invariant (concurrency : nat) (st : State) : Prop := {
  inv_running : running st = length (inflight st);
  inv_bound : running st <= concurrency;
  inv_busy : queue st <> [] -> concurrency <= running st;
  inv_fifo : fifo st;
  inv_below : Forall (fun t => t < submitted st)
                (startedTickets st ++ queuedTickets st);
  inv_inflight_started :
    forall t, In t (inflight st) -> In (ticket t) (startedTickets st);
  inv_inflight_nodup : NoDup (inflightTickets st);
  inv_accounted :
    forall t, t < submitted st ->
              In t (queuedTickets st) \/ In t (inflightTickets st)
              \/ In t (settledTickets st)
}.

(** A run in which tasks only settle. *)
Definition settleOnly (ls : list Label) : Prop :=
  Forall (fun l => isSettle l = true) ls.

(** Three tasks on a queue of concurrency 2: the first two are started at
    once, the third waits. *)
Definition threeAdded : State := add 2 (add 2 (add 2 initial)).

End QueueSpec.

(* ================================================================= *)
(** ** What the grouping computes, told without the loop *)
(* ================================================================= *)

Module GroupingSpec.
Import JS Scanner.

(** The files that are the first of their key, in their order. *)
Fixpoint firstFiles (files : list FileEntry.t) : list FileEntry.t :=
  match files with
  | [] => []
  | f :: rest =>
      f :: filter (fun g => _identifyBookKey g <> _identifyBookKey f) (firstFiles rest)
  end.

(** The files of [files] that have the key [k], in their order. *)
Definition filesOfKey (k : jsstring) (files : list FileEntry.t) : list FileEntry.t :=
  filter (fun f => _identifyBookKey f = k) files.

(** The book that the loop has built for the key of [first] once it has
    seen [seen], where [first] is the first file with that key. *)
Definition bookOf (first : FileEntry.t) (seen : list FileEntry.t) : Book.t :=
  {| Book.key := _identifyBookKey first;
     Book.name := _extractBookName (FileEntry.name first);
     Book.directory := FileEntry.directory first;
     Book.files := filesOfKey (_identifyBookKey first) seen;
     Book.totalSize := ScannerSpec.sizeSum (filesOfKey (_identifyBookKey first) seen) |}.

End GroupingSpec.

(* ================================================================= *)
(** ** Libraries used as examples of a scan *)
(* ================================================================= *)

Module FileSystemCases.
Import JS FileSystem FileSystemSpec.

(** A library with two audio files of which the second cannot be
    examined: [stat] is refused for it. *)
Definition guardedFileFs : FS :=
  {| stat := fun p =>
       if streq p (js "/lib") then someStats true
       else if streq p (js "/lib/a.mp3") then someStats false
       else if streq p (js "/lib/b.mp3") then inl (SystemError "EACCES")
       else inl (SystemError "ENOENT");
     readdir := fun p =>
       if streq p (js "/lib")
       then inr [ {| Dirent.name := js "a.mp3"; Dirent.kind := KFile |};
                  {| Dirent.name := js "b.mp3"; Dirent.kind := KFile |} ]
       else inl (SystemError "ENOENT");
     readlink := fun _ => inl (SystemError "EINVAL");
     cwd := js "/" |}.

(** A directory that holds a link to itself. *)
Definition cycleFs : FS :=
  {| stat := fun p =>
       if streq p (js "/loop") then someStats true
       else inl (SystemError "ENOENT");
     readdir := fun p =>
       if streq p (js "/loop")
       then inr [ {| Dirent.name := js "again"; Dirent.kind := KSymbolicLink |} ]
       else inl (SystemError "ENOENT");
     readlink := fun p =>
       if streq p (js "/loop/again") then inr (js "/loop")
       else inl (SystemError "EINVAL");
     cwd := js "/" |}.

Definition notRecursive : ScanArgs.t :=
  {| ScanArgs.recursive := Some false; ScanArgs.maxDepth := None;
     ScanArgs.followSymlinks := None; ScanArgs.includeHidden := None;
     ScanArgs.abortSignal := None |}.

End FileSystemCases.

(* ================================================================= *)
(** ** The counters of the queue, told by its events *)
(* ================================================================= *)

Module QueueAccounts.
Import Queue.

Definition sameOutcome (o o' : Outcome) : bool :=
  match o, o' with
  | Fulfilled, Fulfilled | Rejected, Rejected | Cancelled, Cancelled => true
  | _, _ => false
  end.

(** The number of promises settled so far with the outcome [o]. *)
Definition settledWith (o : Outcome) (st : State) : nat :=
  length (List.filter
            (fun e => match e with
                      | Settled _ o' => sameOutcome o o'
                      | Started _ => false
                      end)
            (events st)).

(** The counters agree with the events, and every task handed to [add]
    is waiting, running, or settled in one of the three ways. *)
Record balanced (st : State) : Prop := {
  bal_completed : completed st = settledWith Fulfilled st;
  bal_failed : failed st = settledWith Rejected st;
  bal_total :
    (length (queue st) + running st + completed st + failed st
     + settledWith Cancelled st = submitted st)%nat
}.

(** Every promise is settled at most once: no ticket is settled twice,
    a settled task neither waits nor runs, a cancelled task was never
    started, and a task that completed or failed was. *)
Record settledOnce (st : State) : Prop := {
  once_nodup : NoDup (settledTickets st);
  once_below : forall i, In i (settledTickets st) -> i < submitted st;
  once_gone :
    forall i, In i (settledTickets st) ->
              ~ In i (map ticket (queue st)) /\ ~ In i (map ticket (inflight st));
  once_cancelled :
    forall t, In (Settled t Cancelled) (events st) ->
              ~ In (ticket t) (startedTickets st);
  once_started :
    forall t o, In (Settled t o) (events st) -> o <> Cancelled ->
                In (ticket t) (startedTickets st)
}.

(** Three tasks on a queue of concurrency 1: the first completes, which
    starts the second; [clear] cancels the third, which still waits;
    then the second fails. *)
Definition threeSettled : State :=
  onError 1 {| ticket := 1 |}
    (snd (clear (onSuccess 1 {| ticket := 0 |} (add 1 (add 1 (add 1 initial)))))).

End QueueAccounts.

(* ================================================================= *)
(** ** Retrying: [retry] of the async utilities *)
(* ================================================================= *)

Module Retry.

(** The options as the caller gives them; a field left out is [None].
    The delays are whole numbers of milliseconds. *)
Record Options (E : Type) := {
  maxRetries : option Z;
  initialDelay : option Z;
  maxDelay : option Z;
  shouldRetry : option (E -> bool)
}.
Arguments maxRetries {E} _.
Arguments initialDelay {E} _.
Arguments maxDelay {E} _.
Arguments shouldRetry {E} _.

(** How the promise of [retry] settles: with the value of [fn], or with
    [lastError], which is [undefined] ([None]) when [fn] was never
    called. *)
Inductive Outcome (A E : Type) :=
| Returned (a : A)
| Threw (lastError : option E).
Arguments Returned {A E} a.
Arguments Threw {A E} lastError.

(** What can be seen of one run: how it settled and the delays it
    waited for, in their order. *)
Record Trace (A E : Type) := {
  outcome : Outcome A E;
  slept : list Z
}.
Arguments outcome {A E} _.
Arguments slept {A E} _.

Section Retry.
Context {A E : Type}.

(** [fn attempt]: the call either resolves or rejects. *)
Variable fn : Z -> E + A.
(** [Math.random()] as drawn after the failure of attempt number
    [attempt]. *)
Variable random : Z -> Q.
Variable options : Options E.

Definition maxRetriesOf : Z := default 3%Z (maxRetries options).
Definition initialDelayOf : Z := default 1000%Z (initialDelay options).
Definition maxDelayOf : Z := default 10000%Z (maxDelay options).
Definition shouldRetryOf : E -> bool := default (fun _ => true) (shouldRetry options).

(** [Math.min(initialDelay * Math.pow(2, attempt - 1), maxDelay)] *)
Definition backoffDelay (attempt : Z) : Z :=
  Z.min (initialDelayOf * 2 ^ (attempt - 1)) maxDelayOf.

(** [Math.floor(backoffDelay + Math.random() * 100)] *)
Definition delayMs (attempt : Z) : Z :=
  Qfloor (inject_Z (backoffDelay attempt) + random attempt * 100)%Q.

(** The [while] loop; each turn costs one unit of fuel, and [None] says
    that the fuel ran out. *)
Fixpoint retryLoop (fuel : nat) (attempt : Z) (lastError : option E)
    (waited : list Z) : option (Trace A E) :=
  if (attempt <? maxRetriesOf + 1)%Z then
    match fuel with
    | O => None
    | S fuel' =>
        match fn attempt with
        | inr a => Some {| outcome := Returned a; slept := waited |}
        | inl error =>
            let lastError := Some error in
            let attempt := (attempt + 1)%Z in
            if (maxRetriesOf <? attempt)%Z || negb (shouldRetryOf error)
            then Some {| outcome := Threw lastError; slept := waited |}
            else retryLoop fuel' attempt lastError (waited ++ [delayMs attempt])
        end
    end
  else Some {| outcome := Threw lastError; slept := waited |}.

(** [retry(fn, options)]: the loop runs at most [maxRetries + 1] times,
    which is the fuel it is given. *)
Definition retry : option (Trace A E) :=
  retryLoop (Z.to_nat (maxRetriesOf + 1)) 0 None [].
End Retry.

(** The options of a call that names none. *)
Definition noOptions {E} : Options E :=
  {| maxRetries := None; initialDelay := None; maxDelay := None;
     shouldRetry := None |}.

Definition oneRetry {E} : Options E :=
  {| maxRetries := Some 1%Z; initialDelay := None; maxDelay := None;
     shouldRetry := None |}.

(** A call that fails twice and then succeeds. *)
Definition thirdTimeLucky (attempt : Z) : string + Z :=
  if (attempt <? 2)%Z then inl "busy"%string else inr attempt.

End Retry.

(* ================================================================= *)
(** ** EventDispatcher *)
(* ================================================================= *)

(** The event names are strings; an absent name is [None].  A handler
    is known by whether it returns or throws on the data it is given;
    the handlers of the model do not call back into the dispatcher.  The
    subscription id "sub_n" is the number [n].  [delivered] records the
    calls of handlers, latest first. *)
Module Events.
Import JS.

Section Dispatcher.
Context {Data : Type}.

Record Entry := {
  handler : Data -> bool;
  once : bool;
  subscriptionId : nat
}.

Record State := {
  handlers : gmap jsstring (list Entry);
  lastEvents : gmap jsstring Data;
  subscriptions : gmap nat jsstring;
  subscriptionCounter : nat;
  delivered : list (nat * Data)
}.

Definition initial : State :=
  {| handlers := ∅; lastEvents := ∅; subscriptions := ∅;
     subscriptionCounter := 0; delivered := [] |}.

(** [validateNotEmpty(value, name)] *)
Definition validateNotEmpty (value : option jsstring) (name : string)
  : FileSystem.Error + jsstring :=
  match value with
  | None => inl (FileSystem.MessageError (name ++ " must not be null or undefined"))
  | Some s =>
      match trim s with
      | [] => inl (FileSystem.MessageError (name ++ " must not be empty"))
      | _ => inr s
      end
  end.

(** The callback that [subscribe] hands to [setTimeout] when it is asked
    for an immediate call. *)
Record Timer := {
  timerHandler : Data -> bool;
  timerEvent : Data;
  timerOnce : bool;
  timerId : nat
}.

(** [eventHandlers.findIndex(h => h.subscriptionId === subscriptionId)];
    [None] is -1. *)
Fixpoint findIndex (id : nat) (eventHandlers : list Entry) : option nat :=
  match eventHandlers with
  | [] => None
  | h :: rest =>
      if (subscriptionId h =? id)%nat then Some 0%nat
      else option_map S (findIndex id rest)
  end.

Definition subscribe (eventName : option jsstring) (h : Data -> bool)
    (once immediate : bool) (st : State)
  : FileSystem.Error + (nat * option Timer * State) :=
  match validateNotEmpty eventName "Event name" with
  | inl e => inl e
  | inr eventName =>
      let subscriptionId := S (subscriptionCounter st) in
      let eventHandlers := default [] (handlers st !! eventName) in
      let entry := {| handler := h; once := once; subscriptionId := subscriptionId |} in
      let st' :=
        {| handlers := <[eventName := eventHandlers ++ [entry]]> (handlers st);
           lastEvents := lastEvents st;
           subscriptions := <[subscriptionId := eventName]> (subscriptions st);
           subscriptionCounter := subscriptionId;
           delivered := delivered st |} in
      let timer :=
        if immediate then
          match lastEvents st !! eventName with
          | Some lastEvent =>
              Some {| timerHandler := h; timerEvent := lastEvent;
                      timerOnce := once; timerId := subscriptionId |}
          | None => None
          end
        else None in
      inr (subscriptionId, timer, st')
  end.

(** [subscribeOnce(eventName, handler, options)] *)
Definition subscribeOnce (eventName : option jsstring) (h : Data -> bool)
    (immediate : bool) (st : State) :=
  subscribe eventName h true immediate st.

Definition unsubscribe (id : nat) (st : State) : bool * State :=
  match subscriptions st !! id with
  | None => (false, st)
  | Some eventName =>
      match handlers st !! eventName with
      | None => (false, st)
      | Some eventHandlers =>
          match findIndex id eventHandlers with
          | Some index =>
              let eventHandlers := delete index eventHandlers in
              (true,
               {| handlers :=
                    if (length eventHandlers =? 0)%nat
                    then delete eventName (handlers st)
                    else <[eventName := eventHandlers]> (handlers st);
                  lastEvents := lastEvents st;
                  subscriptions := delete id (subscriptions st);
                  subscriptionCounter := subscriptionCounter st;
                  delivered := delivered st |})
          | None => (false, st)
          end
      end
  end.

(** The body of the loop over the handlers in [emit]: the ids of the
    handlers to remove, which are those that were subscribed once and
    have returned. *)
Definition toRemove (data : Data) (eventHandlers : list Entry) : list nat :=
  omap (fun h => if handler h data && once h then Some (subscriptionId h) else None)
    eventHandlers.

Definition calls (data : Data) (eventHandlers : list Entry) : list (nat * Data) :=
  map (fun h => (subscriptionId h, data)) eventHandlers.

Definition emit (eventName : option jsstring) (data : Data) (st : State)
  : FileSystem.Error + (nat * State) :=
  match validateNotEmpty eventName "Event name" with
  | inl e => inl e
  | inr eventName =>
      let st :=
        {| handlers := handlers st;
           lastEvents := <[eventName := data]> (lastEvents st);
           subscriptions := subscriptions st;
           subscriptionCounter := subscriptionCounter st;
           delivered := delivered st |} in
      match handlers st !! eventName with
      | None => inr (0%nat, st)
      | Some eventHandlers =>
          let handlerCount := length eventHandlers in
          let handlersToRemove := toRemove data eventHandlers in
          let st :=
            {| handlers := handlers st;
               lastEvents := lastEvents st;
               subscriptions := subscriptions st;
               subscriptionCounter := subscriptionCounter st;
               delivered := rev (calls data eventHandlers) ++ delivered st |} in
          inr (handlerCount,
               fold_left (fun st id => snd (unsubscribe id st)) handlersToRemove st)
      end
  end.

(** The callback of an immediate subscription, when its time comes. *)
Definition runTimer (t : Timer) (st : State) : State :=
  let st' :=
    {| handlers := handlers st;
       lastEvents := lastEvents st;
       subscriptions := subscriptions st;
       subscriptionCounter := subscriptionCounter st;
       delivered := (timerId t, timerEvent t) :: delivered st |} in
  if timerHandler t (timerEvent t) then
    if timerOnce t then snd (unsubscribe (timerId t) st') else st'
  else st'.

Definition getLastEvent (eventName : jsstring) (st : State) : option Data :=
  lastEvents st !! eventName.

Definition hasSubscribers (eventName : jsstring) (st : State) : bool :=
  match handlers st !! eventName with
  | Some eventHandlers => (0 <? length eventHandlers)%nat
  | None => false
  end.

Definition subscriberCount (eventName : jsstring) (st : State) : nat :=
  match handlers st !! eventName with
  | Some eventHandlers => length eventHandlers
  | None => 0%nat
  end.

Definition clearEvent (eventName : jsstring) (st : State) : nat * State :=
  match handlers st !! eventName with
  | None => (0%nat, st)
  | Some eventHandlers =>
      (length eventHandlers,
       {| handlers := delete eventName (handlers st);
          lastEvents := lastEvents st;
          subscriptions :=
            fold_left (fun subs h => delete (subscriptionId h) subs) eventHandlers
              (subscriptions st);
          subscriptionCounter := subscriptionCounter st;
          delivered := delivered st |})
  end.

Definition clearAllEvents (st : State) : nat * State :=
  (map_fold (fun _ eventHandlers totalCount => (totalCount + length eventHandlers)%nat)
     0%nat (handlers st),
   {| handlers := ∅;
      lastEvents := lastEvents st;
      subscriptions := ∅;
      subscriptionCounter := subscriptionCounter st;
      delivered := delivered st |}).

Definition shutdown (st : State) : State :=
  let st := snd (clearAllEvents st) in
  {| handlers := handlers st;
     lastEvents := ∅;
     subscriptions := subscriptions st;
     subscriptionCounter := subscriptionCounter st;
     delivered := delivered st |}.

(** The calls that a client can make, and the timers that can fire. *)
Inductive Call :=
| CallSubscribe (eventName : option jsstring) (h : Data -> bool) (once immediate : bool)
| CallUnsubscribe (id : nat)
| CallEmit (eventName : option jsstring) (data : Data)
| CallClearEvent (eventName : jsstring)
| CallClearAllEvents
| CallShutdown
| FireTimer (t : Timer).

(** The state after a call; a call that throws leaves it as it was. *)
Definition after (c : Call) (st : State) : State :=
  match c with
  | CallSubscribe eventName h once immediate =>
      match subscribe eventName h once immediate st with
      | inr (_, _, st') => st'
      | inl _ => st
      end
  | CallUnsubscribe id => snd (unsubscribe id st)
  | CallEmit eventName data =>
      match emit eventName data st with
      | inr (_, st') => st'
      | inl _ => st
      end
  | CallClearEvent eventName => snd (clearEvent eventName st)
  | CallClearAllEvents => snd (clearAllEvents st)
  | CallShutdown => shutdown st
  | FireTimer t => runTimer t st
  end.

Inductive reachable : State -> Prop :=
| reachable_initial : reachable initial
| reachable_after c st : reachable st -> reachable (after c st).

(** The subscribers of an event, in the order of subscription. *)
Definition subscribersOf (eventName : jsstring) (st : State) : list Entry :=
  default [] (handlers st !! eventName).

(** What holds of the three maps in every state. *)
Record consistent (st : State) : Prop := {
  con_nonempty : forall eventName, handlers st !! eventName <> Some [];
  con_subscriptions :
    forall id eventName,
      subscriptions st !! id = Some eventName <->
      exists h, h ∈ subscribersOf eventName st /\ subscriptionId h = id;
  con_nodup :
    forall eventName, NoDup (map subscriptionId (subscribersOf eventName st));
  con_counter :
    forall id eventName,
      subscriptions st !! id = Some eventName -> (id <= subscriptionCounter st)%nat
}.

End Dispatcher.
Arguments Entry : clear implicits.
Arguments State : clear implicits.
Arguments Timer : clear implicits.
Arguments Call : clear implicits.

(** Two handlers subscribed once to the same event: the first returns,
    the second throws. *)
Definition scanStarted : jsstring := js "file:scan:started".

Definition twoSubscribers : State nat :=
  after (CallSubscribe (Some scanStarted) (fun _ => false) true false)
    (after (CallSubscribe (Some scanStarted) (fun _ => true) true false) initial).

End Events.

(* ================================================================= *)
(** ** FileScanner: [filterAudiobooks] and [scanDirectory] *)
(* ================================================================= *)

Module FileScanner.
Import JS Scanner FileSystem.

(** An element of [excludePatterns]: a regular expression, known by its
    [test] (it has neither the [g] nor the [y] flag, so that [test]
    keeps no state), a string, or a value that is neither. *)
Inductive Pattern :=
| PatRegExp (test : jsstring -> bool)
| PatString (text : jsstring)
| PatOther.

Record FilterOptions := {
  minSize : Z;
  maxSize : Z;
  extensions : list jsstring;
  excludePatterns : list Pattern
}.

(** [options.filter], as the caller gives it. *)
Record FilterArgs := {
  argMinSize : option Z;
  argMaxSize : option Z;
  argExtensions : option (list jsstring);
  argExcludePatterns : option (list Pattern)
}.

Record ScannerConfig := {
  minFileSize : option Z;
  maxFileSize : option Z;
  configExcludePatterns : option (list Pattern)
}.

(** A line terminator, which the dot of a regular expression does not
    match. *)
Definition isLineTerminator (c : ascii) : bool :=
  ((code c =? 10) || (code c =? 13))%N.

(** The default pattern: the start, a backslash, then any character. *)
Definition backslashThenAny (s : jsstring) : bool :=
  match s with
  | b :: c :: _ => (code b =? 92)%N && negb (isLineTerminator c)
  | _ => false
  end.

Definition defaultFilterOptions (config : ScannerConfig) : FilterOptions :=
  {| minSize := orDefault (minFileSize config) (1024 * 1024);
     maxSize := orDefault (maxFileSize config) (5 * 1024 * 1024 * 1024);
     extensions := SUPPORTED_EXTENSIONS;
     excludePatterns :=
       default [PatRegExp backslashThenAny] (configExcludePatterns config) |}.

(** [{ ...this.defaultFilterOptions, ...(options.filter || {}) }] *)
Definition mergeFilter (d : FilterOptions) (filter : option FilterArgs)
  : FilterOptions :=
  match filter with
  | None => d
  | Some f =>
      {| minSize := default (minSize d) (argMinSize f);
         maxSize := default (maxSize d) (argMaxSize f);
         extensions := default (extensions d) (argExtensions f);
         excludePatterns := default (excludePatterns d) (argExcludePatterns f) |}
  end.

(** What the event system is handed.  The percentage of a progress
    event is left out. *)
Inductive Payload :=
| ScanStarted (dirPath : jsstring)
| ScanProgress (processed total : nat)
| ScanCompleted (dirPath : jsstring) (fileCount totalFiles : nat)
| ScanFailed (dirPath : jsstring) (error : Error).

(** The names in [FileEvents]; it has no entry [SCAN_FAILED], so that
    name is [undefined]. *)
Definition SCAN_STARTED : option jsstring := Some (js "file:scan:started").
Definition SCAN_PROGRESS : option jsstring := Some (js "file:scan:progress").
Definition SCAN_COMPLETED : option jsstring := Some (js "file:scan:completed").
Definition SCAN_FAILED : option jsstring := None.

(** [if (this.events) this.events.emit(name, payload)]: the event that
    is emitted, if any, or the error that [emit] throws for a name that
    is not a string or is blank. *)
Definition emit (hasEvents : bool) (eventName : option jsstring) (payload : Payload)
  : Error + list (jsstring * Payload) :=
  if hasEvents then
    match Events.validateNotEmpty eventName "Event name" with
    | inl e => inl e
    | inr name => inr [(name, payload)]
    end
  else inr [].

Definition excludes (filePath : jsstring) (pattern : Pattern) : bool :=
  match pattern with
  | PatRegExp test => test filePath
  | PatString text => includes filePath text
  | PatOther => false
  end.

(** The checks of the callback of [files.filter]. *)
Definition passes (filterOptions : FilterOptions) (file : FileEntry.t) : bool :=
  if negb (isSupportedAudioFormat (FileEntry.path file)) then false
  else if (FileEntry.size file <? minSize filterOptions)%Z
          || (maxSize filterOptions <? FileEntry.size file)%Z then false
  else if existsb (excludes (FileEntry.path file)) (excludePatterns filterOptions)
       then false
  else true.

Definition progressDue (processedCount totalCount : nat) : bool :=
  (processedCount mod 100 =? 0)%nat || (processedCount =? totalCount)%nat.

(** [files.filter(callback)], with the counter and the events of the
    callback. *)
Fixpoint filterLoop (hasEvents : bool) (filterOptions : FilterOptions)
    (totalCount processedCount : nat) (files : list FileEntry.t)
  : list FileEntry.t * list (jsstring * Payload) :=
  match files with
  | [] => ([], [])
  | file :: rest =>
      let processedCount := S processedCount in
      let emitted :=
        if progressDue processedCount totalCount then
          match emit hasEvents SCAN_PROGRESS (ScanProgress processedCount totalCount) with
          | inr evs => evs
          | inl _ => []
          end
        else [] in
      let keep := passes filterOptions file in
      let '(audiobooks, later) :=
        filterLoop hasEvents filterOptions totalCount processedCount rest in
      (if keep then file :: audiobooks else audiobooks, emitted ++ later)
  end.

Definition filterAudiobooks (hasEvents : bool) (config : ScannerConfig)
    (files : list FileEntry.t) (filter : option FilterArgs)
  : list FileEntry.t * list (jsstring * Payload) :=
  let filterOptions := mergeFilter (defaultFilterOptions config) filter in
  filterLoop hasEvents filterOptions (length files) 0 files.

(** How a call of [scanDirectory] ends, and the events it has emitted
    by then, in their order. *)
Record Scan := {
  result : Run (list FileEntry.t);
  emitted : list (jsstring * Payload)
}.

(** The [catch] block: the failure event, then the error again. *)
Definition scanFailed (hasEvents : bool) (dirPath : jsstring) (error : Error)
    (sofar : list (jsstring * Payload)) : Scan :=
  match emit hasEvents SCAN_FAILED (ScanFailed dirPath error) with
  | inl e => {| result := Thrown e; emitted := sofar |}
  | inr evs => {| result := Thrown error; emitted := sofar ++ evs |}
  end.

(** [scanDirectory]; [fs], [serviceConfig] and [fuel] are those of the
    file system service that the scanner was made with.  An error value
    has no [filter]: calling it is a type error, which carries the
    message that V8 gives it. *)
Definition scanDirectory (hasEvents : bool) (config : ScannerConfig)
    (fs : FS) (serviceConfig : Config.t) (fuel : nat)
    (dirPath : jsstring) (options : ScanArgs.t) (filter : option FilterArgs)
  : Scan :=
  match emit hasEvents SCAN_STARTED (ScanStarted dirPath) with
  | inl e => scanFailed hasEvents dirPath e []
  | inr started =>
      match FileSystem.scanDirectory fs serviceConfig fuel dirPath options with
      | OutOfFuel => {| result := OutOfFuel; emitted := started |}
      | Thrown e => scanFailed hasEvents dirPath e started
      | Done (ErrorValue _) =>
          scanFailed hasEvents dirPath
            (MessageError "files.filter is not a function") started
      | Done (Files allFiles) =>
          let '(audiobooks, progress) :=
            filterAudiobooks hasEvents config allFiles filter in
          match emit hasEvents SCAN_COMPLETED
                  (ScanCompleted dirPath (length audiobooks) (length allFiles)) with
          | inl e => scanFailed hasEvents dirPath e (started ++ progress)
          | inr completed =>
              {| result := Done audiobooks;
                 emitted := started ++ progress ++ completed |}
          end
      end
  end.

(** The options of a scanner that is configured with nothing. *)
Definition noScannerConfig : ScannerConfig :=
  {| minFileSize := None; maxFileSize := None; configExcludePatterns := None |}.

(** [{ minSize: 0 }], a filter that lets small files through. *)
Definition anySize : FilterArgs :=
  {| argMinSize := Some 0%Z; argMaxSize := None; argExtensions := None;
     argExcludePatterns := None |}.

End FileScanner.

(* ================================================================= *)
(** ** FileOrganizer: the numbers of a target path *)
(* ================================================================= *)

Module OrganizerFormat.
Import JS Matcher.

(** [_formatSeriesPosition(position)]; the template literal joins a
    zero and the digits of the number. *)
Definition _formatSeriesPosition (position : option Position) : jsstring :=
  match position with
  | Some p =>
      if negb (truthyPosition position) then []
      else
        match positionParseInt p with
        | Some posNum =>
            if (posNum <? 10)%Z then "0"%char :: numberToString posNum
            else numberToString posNum
        | None => positionToString p
        end
  | None => []
  end.

(** [_formatPartNumber(partNumber)] *)
Definition _formatPartNumber (partNumber : option Position) : jsstring :=
  match partNumber with
  | Some p =>
      if negb (truthyPosition partNumber) then js "01"
      else
        match positionParseInt p with
        | Some num =>
            if (num <? 10)%Z then "0"%char :: numberToString num
            else if (num <? 100)%Z then numberToString num
            else numberToString num
        | None => positionToString p
        end
  | None => js "01"
  end.

End OrganizerFormat.

(* ================================================================= *)
(** ** FileProcessor: [processDirectory] and [processBook] *)
(* ================================================================= *)

(** The metadata extractor and the metadata processor are known by what
    their calls give: a value, which may be [null] ([None]), or an
    error.  The metadata of a result is left out, and so is the
    percentage of a progress event. *)
Module FileProcessor.
Import JS Scanner FileSystem.

Inductive Status := StatusProcessed | StatusMetadataOnly | StatusFailed | StatusSkipped.

(** A result of a book; the entry that the loop of [processDirectory]
    makes for a call that threw has no [files]. *)
Record BookResult := {
  name : jsstring;
  files : option nat;
  status : Status
}.

Record Results := {
  processed : nat;
  failed : nat;
  skipped : nat;
  books : list BookResult
}.

Inductive Payload :=
| DirectoryStarted (dirPath : jsstring)
| BookStarted (filePath bookName : jsstring) (files : nat)
| BookCompleted (filePath bookName : jsstring) (status : Status)
| BookFailed (filePath bookName : jsstring)
| BatchProgress (processed total success failed skipped : nat)
| BatchCompleted (dirPath : jsstring) (processed failed skipped total : nat)
| BatchFailed (dirPath : jsstring).

(** The names in [FileEvents]; it has no entry [BATCH_FAILED]. *)
Definition PROCESSING_STARTED : option jsstring := Some (js "file:processing:started").
Definition PROCESSING_COMPLETED : option jsstring :=
  Some (js "file:processing:completed").
Definition PROCESSING_FAILED : option jsstring := Some (js "file:processing:failed").
Definition BATCH_PROGRESS : option jsstring := Some (js "file:batch:progress").
Definition BATCH_COMPLETED : option jsstring := Some (js "file:batch:completed").
Definition BATCH_FAILED : option jsstring := None.

Section Processor.
Context {M : Type}.
Variable extractMetadata : jsstring -> Error + option M.
Variable extractMetadataFromFile : jsstring -> option M -> Error + option M.
Variable hasEvents : bool.

(** [if (this.events) this.events.emit(name, payload)] *)
Definition emit (eventName : option jsstring) (payload : Payload)
  : Error + list (jsstring * Payload) :=
  if hasEvents then
    match Events.validateNotEmpty eventName "Event name" with
    | inl e => inl e
    | inr name => inr [(name, payload)]
    end
  else inr [].

(** An emission with a name that passes the validation. *)
Definition emitted (eventName : option jsstring) (payload : Payload)
  : list (jsstring * Payload) :=
  match emit eventName payload with
  | inr evs => evs
  | inl _ => []
  end.

(** [processBook]: how the call ends and the events it emits.  A book
    without files has no primary file, and reading its path throws
    before the [try]. *)
Definition processBook (book : Book.t) : Run BookResult * list (jsstring * Payload) :=
  match Book.files book with
  | [] =>
      (Thrown (MessageError "Cannot read properties of undefined (reading 'path')"),
       [])
  | primaryFile :: _ =>
      let filePath := FileEntry.path primaryFile in
      let started :=
        emitted PROCESSING_STARTED
          (BookStarted filePath (Book.name book) (length (Book.files book))) in
      match extractMetadata filePath with
      | inl _ =>
          (Done {| name := Book.name book;
                   files := Some (length (Book.files book));
                   status := StatusFailed |},
           started
           ++ emitted PROCESSING_FAILED (BookFailed filePath (Book.name book)))
      | inr existingMetadata =>
          let apiMetadata :=
            match extractMetadataFromFile filePath existingMetadata with
            | inr m => m
            | inl _ => None
            end in
          let status :=
            match apiMetadata with
            | Some _ => StatusProcessed
            | None => StatusMetadataOnly
            end in
          (Done {| name := Book.name book;
                   files := Some (length (Book.files book));
                   status := status |},
           started
           ++ emitted PROCESSING_COMPLETED
                (BookCompleted filePath (Book.name book) status))
      end
  end.

(** The counters after a result. *)
Definition count (bookResult : BookResult) (results : Results) : Results :=
  {| processed :=
       match status bookResult with
       | StatusProcessed => S (processed results)
       | _ => processed results
       end;
     failed :=
       match status bookResult with
       | StatusFailed => S (failed results)
       | _ => failed results
       end;
     skipped :=
       match status bookResult with
       | StatusSkipped => S (skipped results)
       | _ => skipped results
       end;
     books := books results ++ [bookResult] |}.

(** The loop over the books of [processDirectory]. *)
Fixpoint processBooks (totalCount processedCount : nat) (results : Results)
    (todo : list Book.t) : Results * list (jsstring * Payload) :=
  match todo with
  | [] => (results, [])
  | book :: rest =>
      match processBook book with
      | (Done bookResult, evs) =>
          let results := count bookResult results in
          let processedCount := S processedCount in
          let progress :=
            emitted BATCH_PROGRESS
              (BatchProgress processedCount totalCount (processed results)
                 (failed results) (skipped results)) in
          let '(final, later) := processBooks totalCount processedCount results rest in
          (final, evs ++ progress ++ later)
      | (_, evs) =>
          let results :=
            {| processed := processed results;
               failed := S (failed results);
               skipped := skipped results;
               books := books results
                        ++ [{| name := Book.name book; files := None;
                               status := StatusFailed |}] |} in
          let '(final, later) := processBooks totalCount processedCount results rest in
          (final, evs ++ later)
      end
  end.

Definition noResults : Results :=
  {| processed := 0; failed := 0; skipped := 0; books := [] |}.

(** How [processDirectory] ends, and the events the processor has
    emitted by then. *)
Record Processing := {
  outcome : Run Results;
  events : list (jsstring * Payload)
}.

(** The outer [catch] block. *)
Definition batchFailed (dirPath : jsstring) (error : Error)
    (sofar : list (jsstring * Payload)) : Processing :=
  match emit BATCH_FAILED (BatchFailed dirPath) with
  | inl e => {| outcome := Thrown e; events := sofar |}
  | inr evs => {| outcome := Thrown error; events := sofar ++ evs |}
  end.

(** [processDirectory]; [scan] is the call of [this.scanner.scanDirectory]
    and [localeCompare] the collation that the grouping sorts with. *)
Definition processDirectory (localeCompare : jsstring -> jsstring -> Z)
    (scan : FileScanner.Scan) (dirPath : jsstring) : Processing :=
  let started := emitted PROCESSING_STARTED (DirectoryStarted dirPath) in
  match FileScanner.result scan with
  | OutOfFuel => {| outcome := OutOfFuel; events := started |}
  | Thrown e => batchFailed dirPath e started
  | Done files =>
      let groups := groupFilesByBooks localeCompare files in
      let '(results, evs) := processBooks (length groups) 0 noResults groups in
      {| outcome := Done results;
         events :=
           started ++ evs
           ++ emitted BATCH_COMPLETED
                (BatchCompleted dirPath (processed results) (failed results)
                   (skipped results) (length groups)) |}
  end.
End Processor.

(** The number of results with the status [s]. *)
Definition withStatus (s : Status) (results : list BookResult) : nat :=
  length (List.filter
            (fun r => match status r, s with
                      | StatusProcessed, StatusProcessed
                      | StatusMetadataOnly, StatusMetadataOnly
                      | StatusFailed, StatusFailed
                      | StatusSkipped, StatusSkipped => true
                      | _, _ => false
                      end)
            results).

End FileProcessor.

(* ================================================================= *)
(** ** [runWithConcurrency] *)
(* ================================================================= *)

(** The functions are known by how their promises settle: [settles i] is
    the value or the error of [fns[i]].  The task that wraps [fns[i]] is
    the one added as number [i], so its ticket is [i]. *)
Module RunAll.
Import Queue.

Section RunAll.
Context {V E : Type}.
Variable concurrency : nat.
Variable settles : nat -> E + V.

(** The queue, the array [results] (a slot that was never written is
    absent) and the first rejection that [Promise.all] has seen. *)
Record State := {
  queueState : Queue.State;
  results : gmap nat V;
  rejection : option E
}.

(** [fns.map(...)]: the tasks are added one after the other. *)
Fixpoint addAll (count : nat) (st : Queue.State) : Queue.State :=
  match count with
  | O => st
  | S count' => addAll count' (add concurrency st)
  end.

Definition start (count : nat) : State :=
  {| queueState := addAll count initial; results := ∅; rejection := None |}.

(** A running task settles: its function resolves, the slot of its
    index is written and the task's promise is fulfilled; or its
    function rejects, and so does the task's promise. *)
Inductive settle : State -> State -> Prop :=
| settle_resolved st t v :
    In t (inflight (queueState st)) -> settles (ticket t) = inr v ->
    settle st
      {| queueState := onSuccess concurrency t (queueState st);
         results := <[ticket t := v]> (results st);
         rejection := rejection st |}
| settle_rejected st t e :
    In t (inflight (queueState st)) -> settles (ticket t) = inl e ->
    settle st
      {| queueState := onError concurrency t (queueState st);
         results := results st;
         rejection := match rejection st with
                      | Some first => Some first
                      | None => Some e
                      end |}.

Inductive settleMany : State -> nat -> State -> Prop :=
| settleMany_none st : settleMany st 0 st
| settleMany_more st st' k st'' :
    settle st st' -> settleMany st' k st'' -> settleMany st (S k) st''.

(** What [await Promise.all(tasks)] has come to in a state: it is
    pending while no task has been rejected and some task is not
    settled; [return results] gives the array, slot by slot. *)
Inductive Outcome :=
| Pending
| Resolved (array : list (option V))
| RejectedWith (e : E).

Definition outcome (count : nat) (st : State) : Outcome :=
  match rejection st with
  | Some e => RejectedWith e
  | None =>
      if (length (queue (queueState st)) + length (inflight (queueState st)) =? 0)%nat
      then Resolved (map (fun i => results st !! i) (seq 0 count))
      else Pending
  end.

(** Where every task stands: waiting, running, resolved with its slot
    written, or rejected with [Promise.all] rejected. *)
Definition accounted (st : State) : Prop :=
  forall i, i < submitted (queueState st) ->
    In i (map ticket (queue (queueState st))) \/
    In i (map ticket (inflight (queueState st))) \/
    (exists v, settles i = inr v /\ results st !! i = Some v) \/
    (exists e, settles i = inl e /\ rejection st <> None).

End RunAll.
Arguments State : clear implicits.
Arguments Outcome : clear implicits.

(** Two functions that resolve with their index, run one at a time:
    the state after both have settled. *)
Definition bothSettled : State nat string :=
  {| queueState :=
       onSuccess 1 {| ticket := 1 |}
         (onSuccess 1 {| ticket := 0 |} (addAll 1 2 initial));
     results := <[1%nat := 1%nat]> (<[0%nat := 0%nat]> ∅);
     rejection := None |}.

End RunAll.

(* ================================================================= *)
(** ** The runs of digits of a file name *)
(* ================================================================= *)

Module DigitRuns.
Import JS.

(** The length of the longest run of digits in [s]: at every place of
    [s], the digits that stand there in a row are counted. *)
Fixpoint longestDigitRun (s : jsstring) : nat :=
  match s with
  | [] => 0
  | _ :: s' => Nat.max (length (takeWhile isDigit s)) (longestDigitRun s')
  end.

(** What a pattern captures with [(\d+)]: digits, at least one, that
    stand in a row somewhere in [s]. *)
Definition captured (s digits : jsstring) : Prop :=
  digits <> [] /\
  exists before from, s = before ++ from /\ digits = takeWhile isDigit from.

End DigitRuns.

(* ================================================================= *)
(** * Properties *)
(* ================================================================= *)

(** ** The definitions at work *)

Module Examples.
Import JS.

Example normalizeString_novel :
  Matcher.normalizeString (js "  Project Hail Mary:  A Novel ")
  = js "project hail mary a novel".
Proof. reflexivity. Qed.

Example splitSpaces_ends :
  splitSpaces (js " a  b ") = [[]; js "a"; js "b"; []].
Proof. reflexivity. Qed.

Example parseInt_forms :
  parseInt (js " 07x") = Some 7%Z /\ parseInt (js "-12") = Some (-12)%Z
  /\ parseInt (js "Book One") = None.
Proof. repeat split. Qed.

Example title_only_exact :
  Matcher.calculateMatchScore
    (Some {| Matcher.FileInfo.title := Some (js "Project Hail Mary");
             Matcher.FileInfo.author := None; Matcher.FileInfo.series := None |})
    (Some {| Matcher.Metadata.title := Some (js "Project Hail Mary");
             Matcher.Metadata.authors := None; Matcher.Metadata.series := None |})
  == 1.
Proof. reflexivity. Qed.

Example title_contained :
  Matcher.calculateStringMatchScore
    (Some (js "Project Hail Mary")) (Some (js "Project Hail Mary: A Novel"))
  == (8 # 10) * (17 # 25).
Proof. reflexivity. Qed.

Example basename_forms :
  Path.basename (js "/library/MyBook/") = js "MyBook"
  /\ Path.basenameExt (js "01 - Chapter.mp3") (js ".mp3") = js "01 - Chapter"
  /\ Path.basenameExt (js "Book.MP3") (js ".mp3") = js "Book.MP3"
  /\ Path.basenameExt (js ".mp3") (js ".mp3") = [].
Proof. repeat split. Qed.

Example dirname_forms :
  Path.dirname (js "/a/b/c.mp3") = js "/a/b" /\ Path.dirname (js "c.mp3") = js "."
  /\ Path.dirname (js "/c.mp3") = js "/" /\ Path.dirname (js "a//b") = js "a/".
Proof. repeat split. Qed.

Example extname_forms :
  Path.extname (js "a/b.tar.gz") = js ".gz" /\ Path.extname (js ".bashrc") = []
  /\ Path.extname (js "x.") = js "." /\ Path.extname (js "..") = [].
Proof. repeat split. Qed.

Example join_forms :
  Path.join (js "/out/Author") (js "Title/../Part 01.mp3") = js "/out/Author/Part 01.mp3"
  /\ Path.join (js "a/") (js "./b//c/") = js "a/b/c/"
  /\ Path.join (js "..") (js "../x") = js "../../x".
Proof. repeat split. Qed.

Example identifyBookKey_strips :
  Scanner.stripPatterns (js "03_Track 12 - The Hobbit  Part 2") = js "The Hobbit"
  /\ Scanner.stripPatterns (js "Chapter07") = []
  /\ Scanner._extractBookName (js "The_Hobbit-disc 1.m4b") = js "The Hobbit disc 1".
Proof. repeat split. Qed.

Example extractTrackNumber_forms :
  Scanner._extractTrackNumber (js "Track_12 intro.mp3") = Some 12%Z
  /\ Scanner._extractTrackNumber (js "The Hobbit chapter 3.mp3") = Some 3%Z
  /\ Scanner._extractTrackNumber (js "07 - Riddles.mp3") = Some 7%Z
  /\ Scanner._extractTrackNumber (js "The Hobbit 11.mp3") = Some 11%Z
  /\ Scanner._extractTrackNumber (js "The Hobbit.mp3") = None.
Proof. repeat split. Qed.

Example sanitize_title_with_colon :
  Organizer._sanitizeFilePath (js "/out/Some Author/Book: Two?.mp3")
  = js "/out/Some Author/Book_ Two_.mp3".
Proof. reflexivity. Qed.

End Examples.

(** ** Facts about the string primitives *)

Module JSFacts.
Import JS.

Lemma streq_true (a b : jsstring) : streq a b = true <-> a = b.
Proof. unfold streq. apply bool_decide_eq_true. Qed.

Lemma streq_refl (a : jsstring) : streq a a = true.
Proof. by apply streq_true. Qed.

Lemma startsWith_nil (s : jsstring) : startsWith s [] = true.
Proof. by destruct s. Qed.

Lemma includes_nil (s : jsstring) : includes s [] = true.
Proof. destruct s; simpl; by rewrite ?startsWith_nil. Qed.

Lemma sort_insert_perm {A} (cmp : A -> A -> Z) x l :
  Permutation (sort_insert cmp x l) (x :: l).
Proof.
  induction l as [|y l IH]; simpl; [done|].
  destruct (cmp x y <=? 0)%Z; [done|].
  rewrite IH. apply perm_swap.
Qed.

Lemma sort_perm {A} (cmp : A -> A -> Z) l : Permutation (sort cmp l) l.
Proof.
  induction l as [|x l IH]; simpl; [done|].
  rewrite sort_insert_perm. by constructor.
Qed.

Lemma sort_length {A} (cmp : A -> A -> Z) (l : list A) :
  length (sort cmp l) = length l.
Proof. apply Permutation_length, sort_perm. Qed.

Lemma sort_In {A} (cmp : A -> A -> Z) (l : list A) x :
  In x (sort cmp l) <-> In x l.
Proof.
  split; apply Permutation_in; [|symmetry]; apply sort_perm.
Qed.
End JSFacts.

(** ** MatchScorer *)

Module MatcherFacts.
Import JS JSFacts Matcher MatcherSpec.
Local Open Scope Q_scope.

Lemma ofNat_nonneg n : 0 <= ofNat n.
Proof.
  unfold ofNat. change 0 with (inject_Z 0). rewrite <- Zle_Qle. lia.
Qed.

Lemma ofNat_le a b : (a <= b)%nat -> ofNat a <= ofNat b.
Proof. intros H. unfold ofNat. rewrite <- Zle_Qle. lia. Qed.

Lemma ofNat_pos n : (0 < n)%nat -> 0 < ofNat n.
Proof.
  intros H. unfold ofNat. change 0 with (inject_Z 0). rewrite <- Zlt_Qlt. lia.
Qed.

(** A quotient of two counts, the upper one the smaller, lies in the
    unit interval; so it does when both are 0. *)
Lemma ratio_bounds a b : (a <= b)%nat -> 0 <= ofNat a / ofNat b <= 1.
Proof.
  intros Hab. destruct b as [|b].
  - assert (a = 0%nat) as -> by lia. vm_compute. split; discriminate.
  - assert (0 < ofNat (S b)) as Hpos by (apply ofNat_pos; lia).
    split.
    + apply Qle_shift_div_l; [done|]. rewrite Qmult_0_l. apply ofNat_nonneg.
    + apply Qle_shift_div_r; [done|]. rewrite Qmult_1_l. by apply ofNat_le.
Qed.

Lemma countMatchingWords_le words1 words2 acc :
  (countMatchingWords words1 words2 acc <= acc + length words1)%nat.
Proof.
  revert acc. induction words1 as [|w ws IH]; intros acc; simpl; [lia|].
  destruct (length w <? 3)%nat.
  - specialize (IH acc). lia.
  - destruct (wordMatches w words2).
    + specialize (IH (S acc)). lia.
    + specialize (IH acc). lia.
Qed.

Lemma countSameChars_le norm1 norm2 acc :
  (countSameChars norm1 norm2 acc
   <= acc + Nat.min (length norm1) (length norm2))%nat.
Proof.
  revert norm2 acc. induction norm1 as [|c r1 IH]; intros [|d r2] acc; simpl; try lia.
  case_bool_decide.
  - specialize (IH r2 (S acc)). lia.
  - specialize (IH r2 acc). lia.
Qed.

Lemma calculateStringMatchScore_bounds str1 str2 :
  0 <= calculateStringMatchScore str1 str2 <= 1.
Proof.
  unfold calculateStringMatchScore.
  destruct str1 as [[|c1 r1]|], str2 as [[|c2 r2]|]; try (split; discriminate).
  set (norm1 := normalizeString (c1 :: r1)).
  set (norm2 := normalizeString (c2 :: r2)).
  destruct (streq norm1 norm2); [split; discriminate|].
  destruct (includes norm1 norm2 || includes norm2 norm1).
  - pose proof (ratio_bounds (Nat.min (length norm1) (length norm2))
                  (Nat.max (length norm1) (length norm2)) ltac:(lia)) as [H0 H1].
    split; nra.
  - cbv zeta.
    pose proof (ratio_bounds (countMatchingWords (splitSpaces norm1) (splitSpaces norm2) 0)
                  (Nat.max (length (splitSpaces norm1)) (length (splitSpaces norm2))))
      as Hw.
    pose proof (countMatchingWords_le (splitSpaces norm1) (splitSpaces norm2) 0) as Hc.
    destruct Hw as [Hw0 Hw1]; [lia|].
    pose proof (ratio_bounds (countSameChars norm1 norm2 0)
                  (Nat.max (length norm1) (length norm2))) as Hs.
    pose proof (countSameChars_le norm1 norm2 0) as Hd.
    destruct Hs as [Hs0 Hs1]; [lia|].
    split; nra.
Qed.

Lemma calculateStringMatchScore_same (s : jsstring) :
  s <> [] -> calculateStringMatchScore (Some s) (Some s) = 1.
Proof.
  intros Hs. destruct s as [|c r]; [done|].
  unfold calculateStringMatchScore. by rewrite streq_refl.
Qed.

Lemma mathMax0_bounds xs :
  (forall x, In x xs -> 0 <= x <= 1) -> 0 <= mathMax0 xs <= 1.
Proof.
  induction xs as [|x xs IH]; intros H; simpl.
  - split; discriminate.
  - destruct (H x (or_introl eq_refl)) as [Hx0 Hx1].
    destruct IH as [I0 I1]; [intros y Hy; apply H; by right|].
    split.
    + apply Q.max_le_iff. by left.
    + by apply Q.max_lub.
Qed.

Lemma mathMax0_ge xs x : In x xs -> x <= mathMax0 xs.
Proof.
  induction xs as [|y xs IH]; simpl; [done|].
  intros [->|H].
  - apply Q.le_max_l.
  - eapply Qle_trans; [by apply IH|]. apply Q.le_max_r.
Qed.

Lemma seriesPositionScore_bounds fp mp : 0 <= seriesPositionScore fp mp <= 1.
Proof.
  unfold seriesPositionScore.
  repeat (case_match; try (split; discriminate)).
Qed.

Lemma titlePart_bounds fi md :
  0 <= fst (titlePart fi md) <= snd (titlePart fi md).
Proof.
  unfold titlePart. destruct (_ && _); simpl; [|split; discriminate].
  pose proof (calculateStringMatchScore_bounds (FileInfo.title fi) (Metadata.title md))
    as [H0 H1].
  split; nra.
Qed.

Lemma authorPart_bounds fi md :
  0 <= fst (authorPart fi md) <= snd (authorPart fi md).
Proof.
  unfold authorPart.
  destruct (Metadata.authors md) as [[|a rest]|]; cbn [fst snd];
    try (split; discriminate).
  destruct (truthyString (FileInfo.author fi)); cbn [fst snd]; [|split; discriminate].
  match goal with |- context [mathMax0 ?l] =>
    pose proof (mathMax0_bounds l) as [H0 H1] end.
  { intros x Hx.
    apply in_map_iff in Hx as (y & <- & _). apply calculateStringMatchScore_bounds. }
  split; nra.
Qed.

Lemma seriesPart_bounds fi md :
  0 <= fst (seriesPart fi md) <= snd (seriesPart fi md).
Proof.
  unfold seriesPart.
  destruct (FileInfo.series fi) as [fs|], (Metadata.series md) as [ms|]; simpl;
    try (split; discriminate).
  pose proof (calculateStringMatchScore_bounds (Series.name fs) (Series.name ms))
    as [H0 H1].
  pose proof (seriesPositionScore_bounds (Series.position fs) (Series.position ms))
    as [P0 P1].
  split; nra.
Qed.

Lemma quotient_bounds s m : 0 <= s <= m -> ~ m == 0 -> 0 <= s / m <= 1.
Proof.
  intros [Hs Hm] Hne.
  assert (0 < m) as Hpos.
  { destruct (Qlt_le_dec 0 m); [done|]. exfalso. apply Hne. lra. }
  split.
  - apply Qle_shift_div_l; [done|]. lra.
  - apply Qle_shift_div_r; [done|]. lra.
Qed.

(** The score as the quotient of the two sums. *)
Lemma calculateMatchScore_unfold fi md :
  calculateMatchScore (Some fi) (Some md) =
  let score := 0 + fst (titlePart fi md) + fst (authorPart fi md)
               + fst (seriesPart fi md) in
  let maxScore := 0 + snd (titlePart fi md) + snd (authorPart fi md)
                  + snd (seriesPart fi md) in
  if Qeq_bool maxScore 0 then 0 else score / maxScore.
Proof.
  unfold calculateMatchScore.
  destruct (titlePart fi md), (authorPart fi md), (seriesPart fi md). done.
Qed.

Lemma calculateMatchScore_bounds fileInfo metadata :
  0 <= calculateMatchScore fileInfo metadata <= 1.
Proof.
  destruct fileInfo as [fi|], metadata as [md|]; try (split; discriminate).
  rewrite calculateMatchScore_unfold. cbv zeta.
  destruct (Qeq_bool _ 0) eqn:E; [split; discriminate|].
  apply Qeq_bool_neq in E.
  pose proof (titlePart_bounds fi md). pose proof (authorPart_bounds fi md).
  pose proof (seriesPart_bounds fi md).
  apply quotient_bounds; [|done]. split; lra.
Qed.

(** **** C1 *)

(** C1: the score of any identity and candidate lies in [0,1]; and when
    both carry the same non-empty title, the identity's non-empty author
    is the name of one of the candidate's authors, and the series field
    is missing on at least one side, the score is 1. *)
Theorem calculateMatchScore_unit_interval_and_exact_match :
  (forall fileInfo metadata, 0 <= calculateMatchScore fileInfo metadata <= 1) /\
  (forall fi md t a authors,
      FileInfo.title fi = Some t -> Metadata.title md = Some t -> t <> [] ->
      FileInfo.author fi = Some a -> a <> [] ->
      Metadata.authors md = Some authors ->
      In {| Author.name := Some a |} authors ->
      FileInfo.series fi = None \/ Metadata.series md = None ->
      calculateMatchScore (Some fi) (Some md) == 1).
Proof.
  split; [apply calculateMatchScore_bounds|].
  intros fi md t a authors Ht1 Ht2 Ht Ha1 Ha Hau Hin Hser.
  rewrite calculateMatchScore_unfold. cbv zeta.
  assert (titlePart fi md = (1 * 60, 60)) as ->.
  { unfold titlePart. rewrite Ht1, Ht2.
    rewrite calculateStringMatchScore_same by done. by destruct t. }
  assert (seriesPart fi md = (0, 0)) as ->.
  { unfold seriesPart. destruct Hser as [-> | ->]; [done|].
    by destruct (FileInfo.series fi). }
  assert (exists best, authorPart fi md = (best * 30, 30) /\ best == 1)
    as (best & -> & Hbest).
  { unfold authorPart. rewrite Hau, Ha1.
    destruct authors as [|a0 rest]; [done|].
    destruct a as [|c r]; [done|]. simpl truthyString. cbv iota.
    eexists; split; [reflexivity|].
    match goal with |- mathMax0 ?l == 1 =>
      pose proof (mathMax0_bounds l) as [_ Hle];
      [|pose proof (mathMax0_ge l 1) as Hge] end.
    - intros x Hx. apply in_map_iff in Hx as (y & <- & _).
      apply calculateStringMatchScore_bounds.
    - apply Qle_antisym; [done|]. apply Hge.
      apply in_map_iff. eexists; split; [|exact Hin].
      cbn [Author.name]. by rewrite calculateStringMatchScore_same. }
  simpl fst; simpl snd.
  destruct (Qeq_bool _ 0) eqn:E.
  - apply Qeq_bool_iff in E. lra.
  - rewrite Hbest. reflexivity.
Qed.

Lemma calculateMatchScore_exact_match_witness :
  calculateMatchScore (Some exampleIdentity) (Some exampleCandidate) == 1.
Proof.
  apply (proj2 calculateMatchScore_unit_interval_and_exact_match
           exampleIdentity exampleCandidate
           (js "Project Hail Mary") (js "Andy Weir")
           [ {| Author.name := Some (js "Ray Porter") |};
             {| Author.name := Some (js "Andy Weir") |} ]);
    try reflexivity; try discriminate.
  - simpl. right. left. reflexivity.
  - left. reflexivity.
Defined.
End MatcherFacts.

Module BlendFacts.
Import JS JSFacts Matcher MatcherSpec MatcherFacts.
Local Open Scope Q_scope.

Lemma wordMatches_spec word1 words2 :
  wordMatches word1 words2 =
  existsb (fun w2 => longEnough w2 && pairUp word1 w2) words2.
Proof.
  induction words2 as [|w ws IH]; simpl; [done|].
  unfold longEnough at 1, pairUp at 1.
  destruct (Nat.ltb_spec (length w) 3) as [Hlt|Hge].
  - replace (3 <=? length w)%nat with false by (symmetry; apply Nat.leb_gt; lia).
    simpl. exact IH.
  - replace (3 <=? length w)%nat with true by (symmetry; apply Nat.leb_le; lia).
    simpl. destruct (streq word1 w || includes word1 w || includes w word1); [done|].
    exact IH.
Qed.

Lemma countMatchingWords_spec words1 words2 acc :
  countMatchingWords words1 words2 acc = (acc + wordOverlapCount words1 words2)%nat.
Proof.
  unfold wordOverlapCount.
  revert acc. induction words1 as [|w ws IH]; intros acc; simpl; [lia|].
  unfold longEnough at 1.
  destruct (Nat.ltb_spec (length w) 3) as [Hlt|Hge].
  - replace (3 <=? length w)%nat with false by (symmetry; apply Nat.leb_gt; lia).
    simpl. apply IH.
  - replace (3 <=? length w)%nat with true by (symmetry; apply Nat.leb_le; lia).
    simpl. rewrite wordMatches_spec.
    destruct (existsb _ words2); simpl; rewrite IH; lia.
Qed.

Lemma filter_seq_shift (P : nat -> bool) a n :
  length (List.filter (fun i => P (S i)) (seq a n)) =
  length (List.filter P (seq (S a) n)).
Proof.
  revert a. induction n as [|n IH]; intros a; simpl; [done|].
  destruct (P (S a)); simpl; by rewrite IH.
Qed.

Lemma positionalOverlapCount_cons c r1 d r2 :
  positionalOverlapCount (c :: r1) (d :: r2) =
  ((if bool_decide (c = d) then 1 else 0) + positionalOverlapCount r1 r2)%nat.
Proof.
  unfold positionalOverlapCount.
  change (Nat.min (length (c :: r1)) (length (d :: r2)))
    with (S (Nat.min (length r1) (length r2))).
  cbn [seq List.filter].
  pose proof (filter_seq_shift
                (fun i => bool_decide ((c :: r1) !! i = (d :: r2) !! i))
                0 (Nat.min (length r1) (length r2))) as Hshift.
  cbn [lookup list_lookup] in Hshift. cbn [lookup list_lookup].
  destruct (bool_decide (c = d)) eqn:E.
  - apply bool_decide_eq_true in E as ->.
    rewrite bool_decide_eq_true_2 by done.
    cbn [length Nat.add]. f_equal. symmetry. exact Hshift.
  - apply bool_decide_eq_false in E.
    rewrite bool_decide_eq_false_2 by congruence.
    cbn [Nat.add]. symmetry. exact Hshift.
Qed.

Lemma countSameChars_spec norm1 norm2 acc :
  countSameChars norm1 norm2 acc = (acc + positionalOverlapCount norm1 norm2)%nat.
Proof.
  revert norm2 acc.
  induction norm1 as [|c r1 IH]; intros [|d r2] acc;
    try (unfold positionalOverlapCount; simpl; lia).
  rewrite positionalOverlapCount_cons. cbn [countSameChars]. rewrite IH.
  destruct (bool_decide (c = d)); lia.
Qed.

Lemma wordOverlapCount_le words1 words2 :
  (wordOverlapCount words1 words2 <= length words1)%nat.
Proof.
  pose proof (countMatchingWords_le words1 words2 0) as H.
  rewrite countMatchingWords_spec in H. lia.
Qed.

Lemma splitSpaces_from_nonempty cur s : (0 < length (splitSpaces_from cur s))%nat.
Proof.
  revert cur. induction s as [|c s IH]; intros cur; simpl; [lia|].
  destruct (isSpace c).
  - destruct s as [|d s']; [simpl; lia|].
    destruct (isSpace d); [apply IH|simpl; lia].
  - apply IH.
Qed.

(** **** C4 *)

(** C4, amended: for two non-empty strings whose normalized forms are
    neither equal nor contained in one another, the score is
    0.7 x wordOverlapRatio + 0.3 x characterPositionalOverlapRatio,
    where the word-overlap count is the number of words of the first
    string, of length at least 3, that equal, contain or are contained
    in a word of the second of length at least 3; the count is divided
    by the larger word count and is at most the word count of the first
    string; both divisors are positive. *)
Theorem calculateStringMatchScore_blend (str1 str2 : jsstring) :
  str1 <> [] -> str2 <> [] ->
  normalizeString str1 <> normalizeString str2 ->
  includes (normalizeString str1) (normalizeString str2) = false ->
  includes (normalizeString str2) (normalizeString str1) = false ->
  calculateStringMatchScore (Some str1) (Some str2)
    == blend (normalizeString str1) (normalizeString str2)
  /\ (wordOverlapCount (splitSpaces (normalizeString str1))
                       (splitSpaces (normalizeString str2))
      <= length (splitSpaces (normalizeString str1)))%nat
  /\ (0 < Nat.max (length (splitSpaces (normalizeString str1)))
                  (length (splitSpaces (normalizeString str2))))%nat
  /\ (0 < Nat.max (length (normalizeString str1)) (length (normalizeString str2)))%nat.
Proof.
  intros H1 H2 Hne Hi1 Hi2.
  split; [|split; [apply wordOverlapCount_le|split]].
  - destruct str1 as [|c1 r1]; [done|]. destruct str2 as [|c2 r2]; [done|].
    unfold calculateStringMatchScore.
    replace (streq _ _) with false
      by (symmetry; apply not_true_iff_false; by rewrite streq_true).
    rewrite Hi1, Hi2. cbv zeta. cbn [orb].
    rewrite countMatchingWords_spec, countSameChars_spec.
    unfold blend, characterPositionalOverlapRatio. cbv zeta. simpl Nat.add.
    ring.
  - pose proof (splitSpaces_from_nonempty [] (normalizeString str1)).
    unfold splitSpaces. lia.
  - destruct (normalizeString str1) as [|x xs] eqn:E1; [|simpl; lia].
    rewrite includes_nil in Hi2. done.
Qed.

Lemma calculateStringMatchScore_blend_witness :
  calculateStringMatchScore (Some (js "Dune Messiah")) (Some (js "Children of Dune"))
    == blend (normalizeString (js "Dune Messiah"))
             (normalizeString (js "Children of Dune")).
Proof.
  apply (calculateStringMatchScore_blend (js "Dune Messiah") (js "Children of Dune"));
    try discriminate; reflexivity.
Defined.

(** C4 as stated fails: with "abcx abcy abcz" against "abc q" all three
    words of the first string contain "abc", so the count is 3 although
    the second string has only 2 words; the score is built from 3, not
    from the capped 2. *)
Lemma calculateStringMatchScore_count_not_capped :
  let s1 := js "abcx abcy abcz" in
  let s2 := js "abc q" in
  s1 <> [] /\ s2 <> [] /\
  normalizeString s1 <> normalizeString s2 /\
  includes (normalizeString s1) (normalizeString s2) = false /\
  includes (normalizeString s2) (normalizeString s1) = false /\
  wordOverlapCount (splitSpaces (normalizeString s1)) (splitSpaces (normalizeString s2))
    = 3%nat /\
  Nat.min (length (splitSpaces (normalizeString s1)))
          (length (splitSpaces (normalizeString s2))) = 2%nat /\
  ~ calculateStringMatchScore (Some s1) (Some s2)
      == cappedBlend (normalizeString s1) (normalizeString s2).
Proof.
  cbv zeta. repeat split; try discriminate; reflexivity.
Qed.
End BlendFacts.

Module SeriesFacts.
Import JS JSFacts Matcher MatcherSpec MatcherFacts.
Local Open Scope Q_scope.

Lemma titlePart_series_irrelevant fi md fs ms :
  titlePart (identityWithSeries fi fs) (candidateWithSeries md ms) = titlePart fi md
  /\ titlePart (identityWithoutSeries fi) (candidateWithoutSeries md) = titlePart fi md.
Proof. split; reflexivity. Qed.

Lemma authorPart_series_irrelevant fi md fs ms :
  authorPart (identityWithSeries fi fs) (candidateWithSeries md ms) = authorPart fi md
  /\ authorPart (identityWithoutSeries fi) (candidateWithoutSeries md) = authorPart fi md.
Proof. split; reflexivity. Qed.

Lemma seriesPositionScore_equal p1 p2 :
  truthyPosition (Some p1) = true -> truthyPosition (Some p2) = true ->
  positionsEqual p1 p2 ->
  seriesPositionScore (Some p1) (Some p2) = 1.
Proof.
  intros T1 T2 Heq. unfold seriesPositionScore. rewrite T1, T2. cbn [andb].
  destruct (streq (positionToString p1) (positionToString p2)) eqn:E; [done|].
  destruct Heq as [Hs | (n & -> & ->)].
  - apply streq_true in Hs. congruence.
  - by rewrite Z.eqb_refl.
Qed.

Lemma calculateStringMatchScore_normalized_equal (n1 n2 : jsstring) :
  n1 <> [] -> n2 <> [] -> normalizeString n1 = normalizeString n2 ->
  calculateStringMatchScore (Some n1) (Some n2) = 1.
Proof.
  intros H1 H2 Hn. destruct n1 as [|c1 r1]; [done|]. destruct n2 as [|c2 r2]; [done|].
  unfold calculateStringMatchScore. rewrite Hn. by rewrite streq_refl.
Qed.

(** Adding a part that earns its whole weight does not lower the
    quotient. *)
Lemma adding_full_weight t mt a ma c :
  0 <= t <= mt -> 0 <= a <= ma -> c == 10 ->
  (if Qeq_bool (0 + mt + ma + 0) 0 then 0 else (0 + t + a + 0) / (0 + mt + ma + 0))
  <= (if Qeq_bool (0 + mt + ma + 10) 0 then 0 else (0 + t + a + c) / (0 + mt + ma + 10)).
Proof.
  intros [Ht Hmt] [Ha Hma] Hc.
  assert (0 < 0 + mt + ma + 10) as Hq by lra.
  replace (Qeq_bool (0 + mt + ma + 10) 0) with false.
  2:{ symmetry. apply not_true_iff_false. rewrite Qeq_bool_iff. lra. }
  destruct (Qeq_bool (0 + mt + ma + 0) 0) eqn:E.
  - apply Qle_shift_div_l; [done|]. lra.
  - apply Qeq_bool_neq in E.
    assert (0 < 0 + mt + ma + 0) as Hm.
    { destruct (Qlt_le_dec 0 (0 + mt + ma + 0)); [done|]. exfalso. apply E. lra. }
    apply Qle_shift_div_l; [done|].
    assert ((0 + t + a + 0) / (0 + mt + ma + 0) * (0 + mt + ma + 10)
            == (0 + t + a + 0) * (0 + mt + ma + 10) / (0 + mt + ma + 0)) as ->
      by (field; lra).
    apply Qle_shift_div_r; [done|]. nra.
Qed.

(** **** C9 *)

(** C9, amended: when both sides are extended with a series field whose
    names are non-empty and equal after normalization and whose
    positions are both truthy (neither the empty string nor the number
    0) and equal as strings or as parsed integers, the score is not
    lower than the score of the same pair without series fields. *)
Theorem series_match_never_lowers_score
    (fi : FileInfo.t) (md : Metadata.t) (fs ms : Series.t)
    (n1 n2 : jsstring) (p1 p2 : Position) :
  Series.name fs = Some n1 -> Series.name ms = Some n2 ->
  n1 <> [] -> n2 <> [] ->
  normalizeString n1 = normalizeString n2 ->
  Series.position fs = Some p1 -> Series.position ms = Some p2 ->
  truthyPosition (Some p1) = true -> truthyPosition (Some p2) = true ->
  positionsEqual p1 p2 ->
  calculateMatchScore (Some (identityWithoutSeries fi))
                      (Some (candidateWithoutSeries md))
  <= calculateMatchScore (Some (identityWithSeries fi fs))
                         (Some (candidateWithSeries md ms)).
Proof.
  intros Hn1 Hn2 Hne1 Hne2 Hnorm Hp1 Hp2 T1 T2 Hpos.
  rewrite !calculateMatchScore_unfold. cbv zeta.
  destruct (titlePart_series_irrelevant fi md fs ms) as [-> ->].
  destruct (authorPart_series_irrelevant fi md fs ms) as [-> ->].
  assert (seriesPart (identityWithoutSeries fi) (candidateWithoutSeries md) = (0, 0))
    as -> by reflexivity.
  assert (seriesPart (identityWithSeries fi fs) (candidateWithSeries md ms)
          = ((1 * (7 # 10) + 1 * (3 # 10)) * 10, 10)) as ->.
  { unfold seriesPart. cbn [FileInfo.series Metadata.series identityWithSeries
                             candidateWithSeries].
    rewrite Hn1, Hn2, Hp1, Hp2.
    rewrite calculateStringMatchScore_normalized_equal by done.
    by rewrite seriesPositionScore_equal. }
  cbn [fst snd].
  apply adding_full_weight.
  - apply titlePart_bounds.
  - apply authorPart_bounds.
  - reflexivity.
Qed.

Lemma series_match_never_lowers_score_witness :
  calculateMatchScore (Some (identityWithoutSeries duneIdentity))
                      (Some (candidateWithoutSeries duneCandidate))
  <= calculateMatchScore
       (Some (identityWithSeries duneIdentity (duneSeries (PosStr (js "01")))))
       (Some (candidateWithSeries duneCandidate (duneSeries (PosNum 1)))).
Proof.
  apply (series_match_never_lowers_score duneIdentity duneCandidate
           (duneSeries (PosStr (js "01"))) (duneSeries (PosNum 1))
           (js "Dune Saga") (js "Dune Saga") (PosStr (js "01")) (PosNum 1));
    try reflexivity; try discriminate.
  right. exists 1%Z. split; reflexivity.
Defined.

(** C9 as stated fails: a series at position 0 on both sides, with equal
    names, matches in the specification's sense, but the number 0 is
    falsy, the positions are not compared, and the pair that scored 1
    scores 97/100. *)
Lemma series_match_at_position_zero_lowers_score :
  seriesMatch (duneSeries (PosNum 0)) (duneSeries (PosNum 0)) /\
  calculateMatchScore (Some (identityWithoutSeries duneIdentity))
                      (Some (candidateWithoutSeries duneCandidate)) == 1 /\
  calculateMatchScore
    (Some (identityWithSeries duneIdentity (duneSeries (PosNum 0))))
    (Some (candidateWithSeries duneCandidate (duneSeries (PosNum 0)))) == 97 # 100 /\
  ~ calculateMatchScore (Some (identityWithoutSeries duneIdentity))
                        (Some (candidateWithoutSeries duneCandidate))
    <= calculateMatchScore
         (Some (identityWithSeries duneIdentity (duneSeries (PosNum 0))))
         (Some (candidateWithSeries duneCandidate (duneSeries (PosNum 0)))).
Proof.
  split; [|split; [reflexivity|split; [reflexivity|]]].
  - exists (js "Dune Saga"), (js "Dune Saga"), (PosNum 0), (PosNum 0).
    repeat split; try reflexivity. left. reflexivity.
  - vm_compute. intros H. apply H. reflexivity.
Qed.

(** The same happens with an empty series name on both sides: the names
    are equal, but an empty string scores 0. *)
Example series_match_with_empty_name_lowers_score :
  let s := {| Series.name := Some []; Series.position := Some (PosStr (js "1")) |} in
  calculateMatchScore (Some (identityWithSeries duneIdentity s))
                      (Some (candidateWithSeries duneCandidate s)) == 93 # 100.
Proof. reflexivity. Qed.

(** **** C10 *)

Lemma calculateMatchScore_spread fi result :
  calculateMatchScore (Some fi) result
  = calculateMatchScore (Some fi) (Some (fields (spread result
                                           (calculateMatchScore (Some fi) result)))).
Proof.
  destruct result as [md|]; [reflexivity|].
  cbn [spread fields default]. rewrite calculateMatchScore_unfold.
  unfold titlePart, authorPart, seriesPart. cbn [noFields Metadata.title
    Metadata.authors Metadata.series truthyString].
  rewrite andb_false_r. by destruct (FileInfo.series fi).
Qed.

(** C10: [rankMetadataResults] returns the empty sequence when
    [fileInfo] is null or absent or [results] is null or not an array;
    otherwise every returned element carries, as [_matchScore], the
    [calculateMatchScore] of that element, and there are as many
    elements as results; [calculateMatchScore] is 0 when either argument
    is null or absent. *)
Theorem rankMetadataResults_total_and_scored :
  (forall results, rankMetadataResults None results = []) /\
  (forall fileInfo, rankMetadataResults fileInfo ResultsNull = []
                    /\ rankMetadataResults fileInfo ResultsNotArray = []) /\
  (forall fi rs,
      length (rankMetadataResults (Some fi) (ResultsArray rs)) = length rs /\
      forall e, In e (rankMetadataResults (Some fi) (ResultsArray rs)) ->
                _matchScore e = calculateMatchScore (Some fi) (Some (fields e))) /\
  (forall x, calculateMatchScore None x = 0) /\
  (forall x, calculateMatchScore x None = 0).
Proof.
  repeat split.
  - by destruct fileInfo.
  - by destruct fileInfo.
  - cbn [rankMetadataResults]. by rewrite sort_length, length_map.
  - cbn [rankMetadataResults]. intros e He.
    apply sort_In, in_map_iff in He as (r & <- & _).
    cbn [_matchScore]. apply calculateMatchScore_spread.
  - by destruct x.
Qed.

Lemma rankMetadataResults_total_and_scored_witness :
  length (rankMetadataResults (Some duneIdentity)
            (ResultsArray [None; Some duneCandidate])) = 2%nat /\
  (forall e,
      In e (rankMetadataResults (Some duneIdentity)
              (ResultsArray [None; Some duneCandidate])) ->
      _matchScore e = calculateMatchScore (Some duneIdentity) (Some (fields e))).
Proof.
  exact (proj1 (proj2 (proj2 rankMetadataResults_total_and_scored))
           duneIdentity [None; Some duneCandidate]).
Defined.
End SeriesFacts.

(** ** BookGrouper *)

Module ScannerFacts.
Import JS JSFacts Scanner ScannerSpec.

Lemma sizeSum_app l1 l2 : sizeSum (l1 ++ l2) = (sizeSum l1 + sizeSum l2)%Z.
Proof. induction l1 as [|f l IH]; simpl; lia. Qed.

Lemma sizeSum_perm l1 l2 : Permutation l1 l2 -> sizeSum l1 = sizeSum l2.
Proof. induction 1; simpl; lia. Qed.

Lemma concat_files_alter file i (bs : list Book.t) b :
  bs !! i = Some b ->
  Permutation (concat (map Book.files (alter (addFile file) i bs)))
              (concat (map Book.files bs) ++ [file]).
Proof.
  revert i. induction bs as [|b0 bs IH]; intros [|i] Hi; simplify_eq/=.
  - rewrite <- !app_assoc. apply Permutation_app_head, Permutation_app_comm.
  - rewrite IH by done. by rewrite app_assoc.
Qed.

Lemma wellFormed_newBook file : wellFormed (newBook (_identifyBookKey file) file).
Proof.
  split; [done|]. split; simpl; [|lia].
  intros f [<-|[]]. done.
Qed.

Lemma wellFormed_addFile file b :
  wellFormed b -> _identifyBookKey file = Book.key b -> wellFormed (addFile file b).
Proof.
  intros (Hne & Hkey & Hsize) Hk. split; [|split]; simpl.
  - by destruct (Book.files b).
  - intros f [Hf|[<-|[]]]%in_app_or; [by apply Hkey|done].
  - rewrite sizeSum_app, Hsize. simpl. lia.
Qed.

Lemma groupingInvariant_initial : groupingInvariant {| books := []; bookMap := ∅ |} [].
Proof.
  split; [|constructor|done].
  intros k i. cbn [books bookMap]. by rewrite lookup_empty, lookup_nil.
Qed.

Lemma groupingInvariant_step st seen file :
  groupingInvariant st seen -> groupingInvariant (groupStep st file) (seen ++ [file]).
Proof.
  intros [Hc Hw Hf]. unfold groupStep. unfold consistent in Hc.
  destruct (bookMap st !! _identifyBookKey file) as [i|] eqn:E.
  - apply Hc in E. destruct (books st !! i) as [b|] eqn:Eb; [|done].
    simpl in E. injection E as Hkb.
    split; unfold consistent; cbn [books bookMap].
    + intros k j. rewrite Hc. rewrite list_lookup_alter.
      destruct (decide (i = j)) as [<-|Hne]; [|done].
      rewrite Eb. done.
    + apply Forall_alter; [done|]. intros b' Hb' Hwb.
      assert (b' = b) as -> by congruence.
      by apply wellFormed_addFile.
    + rewrite (concat_files_alter _ _ _ _ Eb). by rewrite Hf.
  - split; unfold consistent; cbn [books bookMap].
    + intros k j.
      destruct (decide (_identifyBookKey file = k)) as [<-|Hne].
      * rewrite lookup_insert_eq. split.
        -- intros [= <-]. by rewrite lookup_app_r, Nat.sub_diag by lia.
        -- intros Hj.
           destruct (decide (j < length (books st))) as [Hlt|Hge].
           ++ rewrite lookup_app_l in Hj by done. apply Hc in Hj. congruence.
           ++ destruct (decide (j = length (books st))) as [->|Hne]; [done|].
              rewrite lookup_ge_None_2 in Hj; [done|].
              rewrite length_app. simpl. lia.
      * rewrite lookup_insert_ne by done. rewrite Hc.
        destruct (decide (j < length (books st))) as [Hlt|Hge].
        -- by rewrite lookup_app_l.
        -- rewrite (lookup_ge_None_2 (books st)) by lia.
           split; [done|]. intros Hj. exfalso.
           rewrite lookup_app_r in Hj by lia.
           destruct (j - length (books st)) as [|n]; simpl in Hj; [|done].
           congruence.
    + apply Forall_app. split; [done|]. constructor; [|constructor].
      apply wellFormed_newBook.
    + rewrite map_app, concat_app. simpl. by rewrite Hf.
Qed.

Lemma groupingInvariant_fold files st seen :
  groupingInvariant st seen -> groupingInvariant (fold_left groupStep files st) (seen ++ files).
Proof.
  revert st seen. induction files as [|f fs IH]; intros st seen H; simpl.
  - by rewrite app_nil_r.
  - replace (seen ++ f :: fs) with ((seen ++ [f]) ++ fs) by by rewrite <- app_assoc.
    apply IH. by apply groupingInvariant_step.
Qed.

Lemma consistent_NoDup st : consistent st -> NoDup (map Book.key (books st)).
Proof.
  intros Hc. unfold consistent in Hc. apply NoDup_alt. intros i j k Hi Hj.
  rewrite list_lookup_fmap in Hi, Hj.
  apply Hc in Hi, Hj. congruence.
Qed.

Lemma NoDup_map_inj_on {A B} (f : A -> B) (l : list A) a b :
  NoDup (map f l) -> In a l -> In b l -> f a = f b -> a = b.
Proof.
  induction l as [|x l IH]; simpl; [done|].
  intros Hnd. apply NoDup_cons in Hnd as [Hx Hnd].
  intros [->|Ha] [->|Hb] Hab; try done.
  - exfalso. apply Hx. rewrite Hab. apply list_elem_of_In. by apply in_map.
  - exfalso. apply Hx. rewrite <- Hab. apply list_elem_of_In. by apply in_map.
  - by apply IH.
Qed.

Lemma wellFormed_sortBookFiles b : wellFormed b -> wellFormed (sortBookFiles b).
Proof.
  intros (Hne & Hkey & Hsize). split; [|split]; simpl.
  - intros E. apply Hne. apply (f_equal length) in E.
    rewrite sort_length in E. by destruct (Book.files b).
  - intros f Hf. apply Hkey. by apply sort_In in Hf.
  - rewrite Hsize. symmetry. apply sizeSum_perm, sort_perm.
Qed.

Lemma concat_files_sorted bs :
  Permutation (concat (map Book.files (map sortBookFiles bs)))
              (concat (map Book.files bs)).
Proof.
  induction bs as [|b bs IH]; simpl; [done|].
  by rewrite IH, sort_perm.
Qed.

(** **** C3 *)

(** C3: the groups partition the input.  The files of the groups, taken
    together, are the input files, each as often as the input has it;
    the groups have distinct keys and every file of a group has the
    group's key, so that a file lies in one group only; no group is
    empty; and [totalSize] is the sum of the sizes of the group's
    files. *)
Theorem groupFilesByBooks_partitions_input
    (localeCompare : jsstring -> jsstring -> Z) (files : list FileEntry.t) :
  let groups := groupFilesByBooks localeCompare files in
  Permutation (concat (map Book.files groups)) files /\
  (forall f, In f files -> exists g, In g groups /\ In f (Book.files g)) /\
  (forall f g1 g2, In g1 groups -> In g2 groups ->
                   In f (Book.files g1) -> In f (Book.files g2) -> g1 = g2) /\
  (NoDup files -> forall g, In g groups -> NoDup (Book.files g)) /\
  (forall g, In g groups ->
             Book.files g <> [] /\ Book.totalSize g = sizeSum (Book.files g)).
Proof.
  intros groups.
  pose proof (groupingInvariant_fold (sort (byName localeCompare) files) _ []
                groupingInvariant_initial) as [Hc Hw Hf].
  simpl in Hf.
  set (st := fold_left groupStep (sort (byName localeCompare) files)
               {| books := []; bookMap := ∅ |}) in *.
  assert (Permutation (concat (map Book.files groups)) files) as Hperm.
  { subst groups. unfold groupFilesByBooks. fold st.
    rewrite concat_files_sorted, Hf. apply sort_perm. }
  assert (Forall wellFormed groups) as Hwf.
  { subst groups. unfold groupFilesByBooks. fold st.
    apply Forall_fmap. eapply Forall_impl; [exact Hw|].
    intros b Hb. by apply wellFormed_sortBookFiles. }
  assert (NoDup (map Book.key groups)) as Hnd.
  { subst groups. unfold groupFilesByBooks. fold st.
    rewrite map_map. simpl. rewrite (map_ext _ Book.key) by done.
    by apply consistent_NoDup. }
  rewrite Forall_forall in Hwf.
  split; [done|]. split; [|split; [|split]].
  - intros f Hin. eapply Permutation_in in Hin; [|symmetry; exact Hperm].
    apply in_concat in Hin as (l & Hl & Hfl).
    apply in_map_iff in Hl as (g & <- & Hg). eauto.
  - intros f g1 g2 H1 H2 Hf1 Hf2.
    eapply (NoDup_map_inj_on Book.key); eauto.
    destruct (Hwf g1) as (_ & K1 & _); [by apply list_elem_of_In|].
    destruct (Hwf g2) as (_ & K2 & _); [by apply list_elem_of_In|].
    rewrite <- (K1 f), <- (K2 f); done.
  - intros Hnodup g Hg.
    assert (NoDup (concat (map Book.files groups))) as Hcat
      by (by rewrite Hperm).
    clear -Hcat Hg. induction groups as [|g0 gs IH]; [done|].
    simpl in Hcat. apply NoDup_app in Hcat as (H0 & _ & Hrest).
    destruct Hg as [->|Hg]; [done|]. by apply IH.
  - intros g Hg. destruct (Hwf g) as (Hne & _ & Hs); [by apply list_elem_of_In|].
    done.
Qed.

Lemma groupFilesByBooks_partitions_input_witness :
  let files := [chapterFile "02 - Chapter.mp3" 2000; chapterFile "01 - Chapter.mp3" 1000] in
  let groups := groupFilesByBooks Collation.codeUnitCompare files in
  Permutation (concat (map Book.files groups)) files /\
  (forall g, In g groups -> NoDup (Book.files g)).
Proof.
  cbv zeta. split.
  - apply (groupFilesByBooks_partitions_input Collation.codeUnitCompare).
  - apply (groupFilesByBooks_partitions_input Collation.codeUnitCompare
             [chapterFile "02 - Chapter.mp3" 2000; chapterFile "01 - Chapter.mp3" 1000]).
    apply NoDup_cons. split; [|apply NoDup_singleton].
    intros [E|E]%elem_of_cons; [discriminate E|by apply elem_of_nil in E].
Defined.

(** **** C8 *)

Lemma groupStep_two a b k :
  _identifyBookKey a = k -> _identifyBookKey b = k ->
  books (fold_left groupStep [a; b] {| books := []; bookMap := ∅ |})
  = [addFile b (newBook k a)].
Proof.
  intros Ka Kb. cbn [fold_left]. unfold groupStep at 2. cbn [books bookMap].
  rewrite Ka, lookup_empty. unfold groupStep. cbn [books bookMap].
  rewrite Kb, lookup_insert_eq. reflexivity.
Qed.

(** C8: two files named "01 - Chapter.mp3" and "02 - Chapter.mp3", with
    the extension ".mp3", in a directory whose base name is "MyBook",
    given in either order and under any collation, come out as one
    group with the key "mybook_chapter" whose files are the first then
    the second, the track numbers being 1 and 2. *)
Theorem two_chapters_make_one_book
    (localeCompare : jsstring -> jsstring -> Z)
    (f1 f2 : FileEntry.t) (files : list FileEntry.t) :
  FileEntry.name f1 = js "01 - Chapter.mp3" ->
  FileEntry.name f2 = js "02 - Chapter.mp3" ->
  FileEntry.extension f1 = js ".mp3" ->
  FileEntry.extension f2 = js ".mp3" ->
  Path.basename (FileEntry.directory f1) = js "MyBook" ->
  Path.basename (FileEntry.directory f2) = js "MyBook" ->
  files = [f1; f2] \/ files = [f2; f1] ->
  exists g,
    groupFilesByBooks localeCompare files = [g] /\
    Book.key g = js "mybook_chapter" /\
    Book.files g = [f1; f2] /\
    _extractTrackNumber (FileEntry.name f1) = Some 1%Z /\
    _extractTrackNumber (FileEntry.name f2) = Some 2%Z.
Proof.
  intros N1 N2 E1 E2 D1 D2 Hfiles.
  assert (_identifyBookKey f1 = js "mybook_chapter") as K1.
  { unfold _identifyBookKey. rewrite N1, E1, D1. reflexivity. }
  assert (_identifyBookKey f2 = js "mybook_chapter") as K2.
  { unfold _identifyBookKey. rewrite N2, E2, D2. reflexivity. }
  assert (_extractTrackNumber (FileEntry.name f1) = Some 1%Z) as T1
    by (rewrite N1; reflexivity).
  assert (_extractTrackNumber (FileEntry.name f2) = Some 2%Z) as T2
    by (rewrite N2; reflexivity).
  assert (sort byTrackNumber [f1; f2] = [f1; f2]) as S12.
  { cbn [sort foldr sort_insert]. unfold byTrackNumber, trackNumberOrZero.
    rewrite T1, T2. reflexivity. }
  assert (sort byTrackNumber [f2; f1] = [f1; f2]) as S21.
  { cbn [sort foldr sort_insert]. unfold byTrackNumber, trackNumberOrZero.
    rewrite T1, T2. reflexivity. }
  assert (exists a b, sort (byName localeCompare) files = [a; b] /\
                      ([a; b] = [f1; f2] \/ [a; b] = [f2; f1])) as (a & b & Hs & Hab).
  { destruct Hfiles as [-> | ->]; cbn [sort foldr sort_insert];
      destruct (_ <=? 0)%Z; eauto. }
  unfold groupFilesByBooks. rewrite Hs.
  destruct Hab as [[= -> ->] | [= -> ->]].
  - rewrite (groupStep_two f1 f2 _ K1 K2). cbn [map].
    eexists; split; [reflexivity|].
    unfold sortBookFiles. cbn [addFile newBook Book.files Book.key app].
    rewrite S12. done.
  - rewrite (groupStep_two f2 f1 _ K2 K1). cbn [map].
    eexists; split; [reflexivity|].
    unfold sortBookFiles. cbn [addFile newBook Book.files Book.key app].
    rewrite S21. done.
Qed.

Lemma two_chapters_make_one_book_witness :
  exists g,
    groupFilesByBooks Collation.codeUnitCompare
      [chapterFile "02 - Chapter.mp3" 2000; chapterFile "01 - Chapter.mp3" 1000] = [g] /\
    Book.key g = js "mybook_chapter" /\
    Book.files g = [chapterFile "01 - Chapter.mp3" 1000;
                    chapterFile "02 - Chapter.mp3" 2000] /\
    _extractTrackNumber (js "01 - Chapter.mp3") = Some 1%Z /\
    _extractTrackNumber (js "02 - Chapter.mp3") = Some 2%Z.
Proof.
  apply (two_chapters_make_one_book Collation.codeUnitCompare
           (chapterFile "01 - Chapter.mp3" 1000) (chapterFile "02 - Chapter.mp3" 2000));
    try reflexivity.
  right. reflexivity.
Defined.
End ScannerFacts.

(** ** The [path] functions keep what they are given *)

Module PathFacts.
Import JS JSFacts Path.

Lemma takeWhile_dropWhile {A} (f : A -> bool) (l : list A) :
  takeWhile f l ++ dropWhile f l = l.
Proof. induction l as [|x l IH]; simpl; [done|]. destruct (f x); simpl; congruence. Qed.

Lemma dropWhile_suffix {A} (f : A -> bool) (l : list A) :
  exists p, l = p ++ dropWhile f l.
Proof. exists (takeWhile f l). by rewrite takeWhile_dropWhile. Qed.

(** The last segment, with what is in front of it and what follows. *)
Lemma lastSegment_split (path : jsstring) :
  exists front, path = front ++ lastSegment path ++ rev (trailingSlashes path).
Proof.
  unfold lastSegment, trailingSlashes.
  exists (rev (dropWhile notSlash (dropWhile isSlash (rev path)))).
  rewrite <- !rev_app_distr, <- app_assoc.
  rewrite (takeWhile_dropWhile notSlash), (takeWhile_dropWhile isSlash).
  by rewrite rev_involutive.
Qed.

Lemma afterLastDot_split (base : jsstring) :
  (length (afterLastDot base) < length base)%nat ->
  exists front, base = front ++ dot :: afterLastDot base.
Proof.
  unfold afterLastDot. intros Hlen.
  pose proof (takeWhile_dropWhile (fun c => negb (bool_decide (c = dot))) (rev base))
    as Hsplit.
  destruct (dropWhile (fun c => negb (bool_decide (c = dot))) (rev base))
    as [|c rest] eqn:E.
  - rewrite app_nil_r in Hsplit. rewrite Hsplit, !length_rev in Hlen. lia.
  - assert (c = dot) as ->.
    { clear -E. induction (rev base) as [|x l IH]; simpl in E; [done|].
      destruct (bool_decide (x = dot)) eqn:Ex; simpl in E.
      - injection E as -> _. by apply bool_decide_eq_true in Ex.
      - by apply IH. }
    exists (rev rest). apply (f_equal (@rev ascii)) in Hsplit.
    rewrite rev_involutive, rev_app_distr in Hsplit. simpl in Hsplit.
    by rewrite <- app_assoc in Hsplit.
Qed.

Lemma extname_cases (path : jsstring) :
  extname path = [] \/
  exists front, lastSegment path = front ++ extname path
                /\ extname path = dot :: afterLastDot (lastSegment path).
Proof.
  unfold extname.
  destruct (Nat.leb_spec (length (lastSegment path))
              (length (afterLastDot (lastSegment path)))) as [|Hlt]; [by left|].
  destruct (_ =? _)%nat; [by left|]. destruct (streq _ _); [by left|].
  right. destruct (afterLastDot_split _ Hlt) as (front & Hf). eauto.
Qed.

Lemma splitSlash_from_weight cur s :
  foldr (fun seg n => S (length seg + n)) 0%nat (splitSlash_from cur s)
  = S (length cur + length s).
Proof.
  revert cur. induction s as [|c s IH]; intros cur; simpl.
  - rewrite length_rev. lia.
  - destruct (isSlash c); simpl; rewrite IH; simpl; rewrite ?length_rev; lia.
Qed.

Section Closed.
(** A property of strings that passes to every part of a string and
    holds again when two strings that have it are put together with a
    separator or a dot between them. *)
Variable Q : jsstring -> Prop.
Hypothesis Q_nil : Q [].
Hypothesis Q_part : forall a b c, Q (a ++ b ++ c) -> Q b.
Hypothesis Q_glue :
  forall a b c, c = slash \/ c = dot -> Q a -> Q b -> Q (a ++ c :: b).

Lemma Q_prefix a b : Q (a ++ b) -> Q a.
Proof using Q_part. intros H. apply (Q_part [] a b). exact H. Qed.

Lemma Q_suffix a b : Q (a ++ b) -> Q b.
Proof using Q_part. intros H. apply (Q_part a b []). by rewrite app_nil_r. Qed.

Lemma Q_cons c b : c = slash \/ c = dot -> Q b -> Q (c :: b).
Proof using Q_nil Q_glue. intros Hc Hb. by apply (Q_glue [] b c). Qed.

Lemma Q_snoc a c : c = slash \/ c = dot -> Q a -> Q (a ++ [c]).
Proof using Q_nil Q_glue. intros Hc Ha. by apply Q_glue. Qed.

Lemma Q_take n s : Q s -> Q (take n s).
Proof using Q_part. intros H. apply (Q_prefix _ (drop n s)). by rewrite take_drop. Qed.

Lemma Q_lastSegment s : Q s -> Q (lastSegment s).
Proof using Q_part.
  intros H. destruct (lastSegment_split s) as (front & Hs).
  rewrite Hs in H. by apply Q_part in H.
Qed.

Lemma Q_basenameExt s e : Q s -> Q (basenameExt s e).
Proof using Q_nil Q_part.
  intros H. unfold basenameExt.
  destruct (_ || _); [by apply Q_lastSegment|].
  destruct (streq e s); [done|].
  pose proof (Q_lastSegment s H) as Hb.
  destruct (lastSegment_split s) as (front & Hs).
  destruct (lastSegment s) as [|b0 base]; [done|].
  destruct (_ && _); [by apply Q_take|].
  destruct (_ && _); [|done].
  rewrite Hs in H. by apply Q_suffix in H.
Qed.

Lemma Q_extname s : Q s -> Q (extname s).
Proof using Q_nil Q_part.
  intros H. destruct (extname_cases s) as [-> | (front & Hf & _)]; [done|].
  apply Q_lastSegment in H. rewrite Hf in H. by apply Q_suffix in H.
Qed.

Lemma Q_dirname s : Q s -> Q (dirname s).
Proof using Q_nil Q_part Q_glue.
  intros H. unfold dirname. destruct s as [|c0 body]; [apply Q_cons; auto|].
  destruct (dropWhile_suffix isSlash (rev body)) as (p1 & H1).
  destruct (dropWhile_suffix notSlash (dropWhile isSlash (rev body))) as (p2 & H2).
  destruct (dropWhile notSlash (dropWhile isSlash (rev body))) as [|x before] eqn:E.
  - destruct (isSlash c0); apply Q_cons; auto.
  - assert (Q (c0 :: rev before)) as Hpre.
    { rewrite H2 in H1. apply (f_equal (@rev ascii)) in H1.
      rewrite rev_involutive, !rev_app_distr in H1. simpl in H1.
      rewrite H1 in H. rewrite <- !app_assoc in H.
      apply (Q_prefix (c0 :: rev before) ([x] ++ rev p2 ++ rev p1)). exact H. }
    destruct before as [|y before']; [|done].
    destruct (isSlash c0).
    + apply Q_cons; [auto|]. apply Q_cons; auto.
    + exact Hpre.
Qed.

Lemma Q_splitSlash_from cur s :
  Q (rev cur ++ s) -> Forall Q (splitSlash_from cur s).
Proof using Q_nil Q_part.
  revert cur. induction s as [|c s IH]; intros cur H; simpl.
  - constructor; [|constructor]. by rewrite app_nil_r in H.
  - destruct (isSlash c).
    + constructor; [by apply Q_prefix in H|].
      apply IH. simpl. apply (Q_suffix (rev cur ++ [c])). by rewrite <- app_assoc.
    + apply IH. simpl. by rewrite <- app_assoc.
Qed.

Lemma Q_normalizeStep allow res seg :
  Forall Q res -> Q seg -> Forall Q (normalizeStep allow res seg).
Proof using Type.
  intros Hres Hseg. unfold normalizeStep.
  destruct (_ || _); [done|].
  destruct (bool_decide (seg = _)); [|by constructor].
  destruct res as [|top below].
  - destruct allow; [by constructor|done].
  - destruct (bool_decide (top = _)).
    + destruct allow; [by constructor|done].
    + by inversion Hres.
Qed.

Lemma Q_normalizeFold allow segs res :
  Forall Q res -> Forall Q segs -> Forall Q (fold_left (normalizeStep allow) segs res).
Proof using Type.
  revert res. induction segs as [|seg segs IH]; intros res Hres Hsegs; simpl; [done|].
  inversion Hsegs; subst. apply IH; [|done]. by apply Q_normalizeStep.
Qed.

Lemma Q_joinSlash segs : Forall Q segs -> Q (joinSlash segs).
Proof using Q_nil Q_glue.
  induction 1 as [|seg segs Hseg Hsegs IH]; simpl; [done|].
  destruct segs as [|s' segs']; [done|].
  apply Q_glue; auto.
Qed.

Lemma Q_normalizeSegments allow s : Q s -> Forall Q (normalizeSegments allow s).
Proof using Q_nil Q_part.
  intros H. unfold normalizeSegments. apply Forall_rev.
  apply Q_normalizeFold; [constructor|]. by apply Q_splitSlash_from.
Qed.

Lemma Q_normalize s : Q s -> Q (normalize s).
Proof using Q_nil Q_part Q_glue.
  intros H. unfold normalize. destruct s as [|c0 s']; [apply Q_cons; auto|].
  pose proof (Q_joinSlash _ (Q_normalizeSegments (negb (isSlash c0)) _ H)) as Hj.
  destruct (joinSlash _) as [|x p] eqn:E.
  - destruct (isSlash c0); [apply Q_cons; auto|].
    destruct (endsWithSlash (c0 :: s')).
    + apply Q_cons; [auto|]. apply Q_cons; auto.
    + apply Q_cons; auto.
  - destruct (endsWithSlash (c0 :: s'));
      destruct (isSlash c0).
    + apply Q_cons; [auto|]. apply Q_snoc; auto.
    + apply Q_snoc; auto.
    + apply Q_cons; auto.
    + done.
Qed.

Lemma Q_join a b : Q a -> Q b -> Q (join a b).
Proof using Q_nil Q_part Q_glue.
  intros Ha Hb. unfold join.
  destruct a as [|x a'], b as [|y b']; try (by apply Q_normalize).
  - apply Q_cons; auto.
  - apply Q_normalize. apply Q_glue; auto.
Qed.
End Closed.

(** *** Normalizing does not lengthen a path *)

Lemma weight_app a b : weight (a ++ b) = (weight a + weight b)%nat.
Proof. induction a as [|x a IH]; simpl; [done|]. rewrite IH. lia. Qed.

Lemma weight_rev l : weight (rev l) = weight l.
Proof. induction l as [|x l IH]; simpl; [done|]. rewrite weight_app, IH. simpl. lia. Qed.

Lemma weight_joinSlash segs :
  segs <> [] -> S (length (joinSlash segs)) = weight segs.
Proof.
  induction segs as [|seg segs IH]; [done|]. intros _.
  destruct segs as [|s' segs']; [simpl; lia|].
  change (joinSlash (seg :: s' :: segs')) with (seg ++ slash :: joinSlash (s' :: segs')).
  change (weight (seg :: s' :: segs')) with (S (length seg + weight (s' :: segs'))).
  rewrite <- IH by done. rewrite length_app. simpl. lia.
Qed.

Lemma weight_normalizeStep allow res seg :
  (weight (normalizeStep allow res seg) + (if bool_decide (seg = []) then 1 else 0)
   <= weight res + S (length seg))%nat.
Proof.
  unfold normalizeStep.
  destruct (bool_decide (seg = [])) eqn:E0; simpl; [lia|].
  destruct (bool_decide (seg = [dot])); simpl; [lia|].
  destruct (bool_decide (seg = [dot; dot])) eqn:E2; [|simpl; lia].
  apply bool_decide_eq_true in E2 as ->.
  destruct res as [|top below]; [destruct allow; simpl; lia|].
  destruct (bool_decide (top = _)); [destruct allow; simpl; lia|]. simpl. lia.
Qed.

Lemma weight_normalizeFold allow segs res :
  (weight (fold_left (normalizeStep allow) segs res) + empties segs
   <= weight res + weight segs)%nat.
Proof.
  revert res. induction segs as [|seg segs IH]; intros res; simpl; [lia|].
  specialize (IH (normalizeStep allow res seg)).
  pose proof (weight_normalizeStep allow res seg).
  destruct (bool_decide (seg = [])); lia.
Qed.

Lemma splitSlash_weight s : weight (splitSlash s) = S (length s).
Proof. unfold weight, splitSlash. by rewrite splitSlash_from_weight. Qed.

Lemma endsWithSlash_cons c s : s <> [] -> endsWithSlash (c :: s) = endsWithSlash s.
Proof.
  intros Hs. unfold endsWithSlash. simpl.
  destruct (rev s) as [|x r] eqn:E; [|done].
  apply (f_equal (@rev ascii)) in E. rewrite rev_involutive in E. done.
Qed.

Lemma empties_trailing cur s :
  endsWithSlash s = true -> (1 <= empties (splitSlash_from cur s))%nat.
Proof.
  revert cur. induction s as [|c s IH]; intros cur H; [done|].
  destruct s as [|d s'].
  - unfold endsWithSlash in H. simpl in H. simpl. rewrite H. simpl.
    destruct (bool_decide (rev cur = [])); lia.
  - rewrite endsWithSlash_cons in H by done.
    change (splitSlash_from cur (c :: d :: s'))
      with (if isSlash c then rev cur :: splitSlash_from [] (d :: s')
            else splitSlash_from (c :: cur) (d :: s')).
    destruct (isSlash c).
    + specialize (IH [] H). simpl empties.
      destruct (bool_decide (rev cur = [])); simpl in *; lia.
    + by apply IH.
Qed.

Lemma empties_normalize_budget c0 s :
  ((if isSlash c0 then 1 else 0) + (if endsWithSlash (c0 :: s) then 1 else 0)
   <= empties (splitSlash (c0 :: s)))%nat.
Proof.
  unfold splitSlash.
  destruct (isSlash c0) eqn:E0.
  - change (splitSlash_from [] (c0 :: s))
      with (if isSlash c0 then rev [] :: splitSlash_from [] s
            else splitSlash_from [c0] s).
    rewrite E0. simpl empties.
    destruct s as [|d s']; [simpl; destruct (endsWithSlash _); lia|].
    rewrite endsWithSlash_cons by done.
    destruct (endsWithSlash (d :: s')) eqn:Et; [|lia].
    pose proof (empties_trailing [] (d :: s') Et). lia.
  - destruct (endsWithSlash (c0 :: s)) eqn:Et; [|lia].
    pose proof (empties_trailing [] (c0 :: s) Et). lia.
Qed.

Lemma normalize_length (s : jsstring) :
  s <> [] -> (length (normalize s) <= length s)%nat.
Proof.
  destruct s as [|c0 s']; [done|]. intros _.
  unfold normalize. fold (endsWithSlash (c0 :: s')).
  pose proof (empties_normalize_budget c0 s') as Hbudget.
  pose proof (weight_normalizeFold (negb (isSlash c0)) (splitSlash (c0 :: s')) [])
    as Hfold.
  rewrite splitSlash_weight in Hfold.
  unfold normalizeSegments.
  destruct (rev (fold_left _ _ _)) as [|seg segs] eqn:E.
  - cbn [joinSlash length].
    destruct (isSlash c0) eqn:E0; [simpl; lia|].
    destruct (endsWithSlash (c0 :: s')) eqn:Et; [|simpl; lia].
    destruct s' as [|d s'']; [|simpl; lia].
    unfold endsWithSlash in Et. cbn [rev app] in Et. congruence.
  - assert (S (length (joinSlash (seg :: segs))) = weight (seg :: segs)) as Hj
      by (by apply weight_joinSlash).
    assert (weight (seg :: segs)
            = weight (fold_left (normalizeStep (negb (isSlash c0)))
                        (splitSlash (c0 :: s')) [])) as Hk
      by (by rewrite <- E, weight_rev).
    rewrite Hk in Hj. clear Hk E.
    destruct (joinSlash (seg :: segs)) as [|x p].
    + destruct (isSlash c0) eqn:E0; [simpl; lia|].
      destruct (endsWithSlash (c0 :: s')) eqn:Et; [|simpl; lia].
      destruct s' as [|d s'']; [|simpl; lia].
      unfold endsWithSlash in Et. cbn [rev app] in Et. congruence.
    + cbn [length] in *. change (weight []) with 0%nat in Hfold.
      destruct (endsWithSlash (c0 :: s')), (isSlash c0);
        cbn [length]; rewrite ?length_app; cbn [length]; lia.
Qed.

Lemma join_length (a b : jsstring) :
  (length (join a b) <= length a + 1 + length b)%nat.
Proof.
  unfold join. destruct a as [|x a'], b as [|y b'].
  - simpl. lia.
  - pose proof (normalize_length (y :: b') ltac:(done)). lia.
  - pose proof (normalize_length (x :: a') ltac:(done)). lia.
  - pose proof (normalize_length ((x :: a') ++ slash :: y :: b') ltac:(done)) as H.
    rewrite length_app in H. simpl in *. lia.
Qed.
End PathFacts.

(** ** PathTemplateEngine *)

Module OrganizerFacts.
Import JS JSFacts Path PathFacts Organizer OrganizerSpec.

Lemma isSpace_space : isSpace " "%char = true.
Proof. reflexivity. Qed.

Lemma singleSpaced_weaken s : singleSpaced true s = true -> singleSpaced false s = true.
Proof.
  destruct s as [|c s]; simpl; [done|].
  destruct (isSpace c); [|done]. rewrite andb_false_r. done.
Qed.

Lemma singleSpaced_app p a b :
  singleSpaced p (a ++ b) = true ->
  singleSpaced p a = true /\ singleSpaced false b = true.
Proof.
  revert p. induction a as [|c a IH]; intros p H; simpl in *.
  - split; [done|]. destruct p; [by apply singleSpaced_weaken|done].
  - destruct (isSpace c).
    + apply andb_true_iff in H as [H1 H2]. rewrite H1. simpl. by apply IH.
    + by apply IH.
Qed.

Lemma singleSpaced_glue p a b c :
  isSpace c = false ->
  singleSpaced p a = true -> singleSpaced false b = true ->
  singleSpaced p (a ++ c :: b) = true.
Proof.
  intros Hc. revert p. induction a as [|x a IH]; intros p Ha Hb; simpl in *.
  - by rewrite Hc.
  - destruct (isSpace x).
    + apply andb_true_iff in Ha as [H1 H2]. rewrite H1. simpl. by apply IH.
    + by apply IH.
Qed.

Lemma singleSpaced_collapseSpaces s :
  singleSpaced false (collapseSpaces s) = true /\
  (match s with c :: _ => isSpace c = false | [] => True end ->
   singleSpaced true (collapseSpaces s) = true).
Proof.
  induction s as [|c s [IH1 IH2]]; [done|].
  cbn [collapseSpaces]. destruct (isSpace c) eqn:Ec.
  - split; [|done].
    destruct s as [|d s']; [done|].
    destruct (isSpace d) eqn:Ed; [done|].
    cbn [singleSpaced]. rewrite isSpace_space. simpl. by apply IH2.
  - cbn [singleSpaced]. rewrite Ec. by split.
Qed.

Lemma freeOfInvalid_replaceInvalid s : freeOfInvalid (replaceInvalid s).
Proof.
  unfold freeOfInvalid, replaceInvalid. apply Forall_fmap, Forall_true.
  intros c. simpl. destruct (isInvalidChar c) eqn:E; done.
Qed.

Lemma freeOfInvalid_collapseSpaces s :
  freeOfInvalid s -> freeOfInvalid (collapseSpaces s).
Proof.
  unfold freeOfInvalid. induction 1 as [|c s Hc Hs IH]; [constructor|].
  cbn [collapseSpaces]. destruct (isSpace c).
  - destruct s as [|d s']; [by repeat constructor|].
    destruct (isSpace d); [done|]. by constructor.
  - by constructor.
Qed.

Lemma freeOfInvalid_cleaned s : freeOfInvalid (cleaned s).
Proof. apply freeOfInvalid_collapseSpaces, freeOfInvalid_replaceInvalid. Qed.

Lemma singleSpaced_cleaned s : singleSpaced false (cleaned s) = true.
Proof. apply singleSpaced_collapseSpaces. Qed.

(** The two properties pass through the [path] functions. *)
Section Carried.
Variable Q : jsstring -> Prop.
Hypothesis Q_nil : Q [].
Hypothesis Q_part : forall a b c, Q (a ++ b ++ c) -> Q b.
Hypothesis Q_glue :
  forall a b c, c = slash \/ c = dot -> Q a -> Q b -> Q (a ++ c :: b).

Lemma Q_truncated s n :
  Q s ->
  Q (join (dirname s) (take n (basenameExt s (extname s)) ++ extname s)).
Proof using Q_nil Q_part Q_glue.
  intros H. apply Q_join; try done.
  - by apply Q_dirname.
  - pose proof (Q_take Q Q_part n _ (Q_basenameExt Q Q_nil Q_part s (extname s) H))
      as Ht.
    destruct (extname_cases s) as [E | (front & Hf & Hext)].
    + rewrite E in *. by rewrite app_nil_r.
    + apply (Q_lastSegment Q Q_part) in H. rewrite Hf in H.
      rewrite Hext in *. apply Q_glue; [by right|done|].
      apply (Q_suffix Q Q_part (front ++ [dot])). by rewrite <- app_assoc.
Qed.
End Carried.

Lemma _sanitizeFilePath_unfold filePath :
  _sanitizeFilePath filePath =
  let s := cleaned filePath in
  if (240 <? length s)%nat then
    join (dirname s)
         (take (240 - length (dirname s) - length (extname s) - 1)
               (basenameExt s (extname s)) ++ extname s)
  else s.
Proof.
  unfold _sanitizeFilePath, cleaned, MAX_PATH_LENGTH, substring0. cbv zeta.
  set (s := collapseSpaces (replaceInvalid filePath)).
  replace (240 <? Z.of_nat (length s))%Z with (240 <? length s)%nat.
  2:{ destruct (Nat.ltb_spec 240 (length s)), (Z.ltb_spec 240 (Z.of_nat (length s)));
      done || lia. }
  destruct (240 <? length s)%nat; [|done].
  do 3 f_equal. lia.
Qed.

(** **** C7 *)

(** C7, amended: the sanitized path holds none of the invalid
    characters, and each of its runs of white space is a single space.
    When the path before truncation is longer than 240 characters the
    result is the directory part joined with the base name cut to
    240 - |directory| - |extension| - 1 characters (none, when that is
    negative) and the unchanged extension; its length is at most 240
    provided the directory part, the separator and the extension fit
    into 240 characters.  A path of at most 240 characters is left as it
    is. *)
Theorem _sanitizeFilePath_safe (filePath : jsstring) :
  let s := cleaned filePath in
  let result := _sanitizeFilePath filePath in
  freeOfInvalid result /\
  singleSpaced false result = true /\
  ((240 < length s)%nat ->
   result = join (dirname s)
              (take (240 - length (dirname s) - length (extname s) - 1)
                    (basenameExt s (extname s)) ++ extname s) /\
   ((length (dirname s) + length (extname s) + 1 <= 240)%nat ->
    (length result <= 240)%nat)) /\
  ((length s <= 240)%nat -> result = s).
Proof.
  cbv zeta. rewrite _sanitizeFilePath_unfold. cbv zeta.
  destruct (Nat.ltb_spec 240 (length (cleaned filePath))) as [Hlong|Hshort].
  - split; [|split; [|split]].
    + apply (Q_truncated freeOfInvalid).
      * constructor.
      * intros a b c H. unfold freeOfInvalid in *.
        by apply Forall_app in H as [_ [H _]%Forall_app].
      * intros a b c [-> | ->] Ha Hb; apply Forall_app; split; try done;
          by constructor.
      * apply freeOfInvalid_cleaned.
    + apply (Q_truncated (fun s => singleSpaced false s = true)).
      * done.
      * intros a b c H. apply singleSpaced_app in H as [_ H].
        by apply singleSpaced_app in H as [H _].
      * intros a b c [-> | ->] Ha Hb; by apply singleSpaced_glue.
      * apply singleSpaced_cleaned.
    + intros _. split; [done|]. intros Hfit.
      etrans; [apply join_length|].
      rewrite length_app, length_take. lia.
    + lia.
  - split; [apply freeOfInvalid_cleaned|]. split; [apply singleSpaced_cleaned|].
    split; [lia|done].
Qed.

Lemma _sanitizeFilePath_safe_witness :
  let filePath := js "/library/Author: Name/" ++ repeat "b"%char 300 ++ js "  two?.mp3" in
  (240 < length (cleaned filePath))%nat /\
  (length (_sanitizeFilePath filePath) <= 240)%nat.
Proof.
  cbv zeta. split; [vm_compute; lia|].
  apply (_sanitizeFilePath_safe
           (js "/library/Author: Name/" ++ repeat "b"%char 300 ++ js "  two?.mp3"));
    vm_compute; lia.
Defined.

(** C7 as stated fails: when the directory part alone is longer than the
    limit, cutting the base name to nothing still leaves the directory,
    the separator and the extension, here 255 characters. *)
Lemma _sanitizeFilePath_longer_than_limit :
  (240 < length (cleaned longDirectoryPath))%nat /\
  _sanitizeFilePath longDirectoryPath = repeat "a"%char 250 ++ js "/.mp3" /\
  length (_sanitizeFilePath longDirectoryPath) = 255%nat /\
  ~ (length (_sanitizeFilePath longDirectoryPath) <= 240)%nat.
Proof.
  assert (_sanitizeFilePath longDirectoryPath = repeat "a"%char 250 ++ js "/.mp3") as E
    by (vm_compute; reflexivity).
  rewrite E. split; [vm_compute; lia|]. split; [done|].
  split; [vm_compute; reflexivity|]. vm_compute. lia.
Qed.
End OrganizerFacts.

(** ** DirectoryScanner *)

Module FileSystemFacts.
Import JS JSFacts FileSystem FileSystemSpec.

Section Scan.
Variable fs : FS.
Variable options : ScanOptions.t.

(** What a followed link adds comes from the link's target. *)
Lemma followLink_sound
    (recur : jsstring -> Z -> Run (list Scanner.FileEntry.t))
    dir entry depth found :
  lookedAt options entry ->
  Dirent.kind entry = KSymbolicLink ->
  ScanOptions.followSymlinks options = true ->
  followLink fs options recur dir (Path.join dir (Dirent.name entry)) depth
    = Done found ->
  forall f, In f found ->
    entryYields fs options dir entry f \/
    exists sub l, entryDescends fs options dir entry sub /\
                  recur sub (depth + 1)%Z = Done l /\ In f l.
Proof.
  intros Hlook Hkind Hfollow Hrun f Hf. unfold followLink in Hrun.
  destruct (readlink fs (Path.join dir (Dirent.name entry))) as [e|target] eqn:El;
    simpl in Hrun; [by simplify_eq|].
  destruct (stat fs (resolve fs dir target)) as [e|stats] eqn:Es;
    simpl in Hrun; [by simplify_eq|].
  destruct (Stats.isDirectory stats && ScanOptions.recursive options) eqn:Ed.
  - apply andb_true_iff in Ed as [Ed Er]. right.
    destruct (recur (resolve fs dir target) (depth + 1)%Z) as [l|e|] eqn:Erec;
      simpl in Hrun; simplify_eq; [|done].
    exists (resolve fs dir target), found. split; [|done].
    by eapply descends_link.
  - destruct (Stats.isFile stats && isSupportedAudioFormat (resolve fs dir target))
      eqn:Ef; [|simpl in Hrun; by simplify_eq].
    apply andb_true_iff in Ef as [Ef Esup]. left.
    destruct (getFileInfo fs (resolve fs dir target)) as [info|e|] eqn:Eg;
      simpl in Hrun; simplify_eq; [|done].
    destruct Hf as [<-|[]]. by eapply yields_link.
Qed.

Lemma scanEntry_sound
    (recur : jsstring -> Z -> Run (list Scanner.FileEntry.t))
    dir entry depth found :
  scanEntry fs options recur dir depth entry = Done found ->
  forall f, In f found ->
    entryYields fs options dir entry f \/
    exists sub l, entryDescends fs options dir entry sub /\
                  recur sub (depth + 1)%Z = Done l /\ In f l.
Proof.
  intros Hrun f Hf. unfold scanEntry in Hrun.
  destruct (negb (ScanOptions.includeHidden options) && isHidden entry) eqn:Eh;
    [by simplify_eq|].
  destruct (Dirent.kind entry) eqn:Ek.
  - destruct (isSupportedAudioFormat _) eqn:Es; [|by simplify_eq].
    destruct (getFileInfo fs _) as [info|e|] eqn:Eg; simpl in Hrun; simplify_eq.
    destruct Hf as [<-|[]]. left. by eapply yields_file.
  - destruct (ScanOptions.recursive options) eqn:Er; [|by simplify_eq].
    right. eexists _, found. split; [|done]. by apply descends_directory.
  - destruct (ScanOptions.followSymlinks options) eqn:Ef; [|by simplify_eq].
    by eapply followLink_sound.
  - by simplify_eq.
Qed.

Lemma scanEntries_sound
    (recur : jsstring -> Z -> Run (list Scanner.FileEntry.t))
    dir depth entries results found :
  scanEntries fs options recur dir depth entries results = Done found ->
  forall f, In f found ->
    In f results \/
    exists entry, In entry entries /\
      (entryYields fs options dir entry f \/
       exists sub l, entryDescends fs options dir entry sub /\
                     recur sub (depth + 1)%Z = Done l /\ In f l).
Proof.
  revert results. induction entries as [|entry rest IH]; intros results Hrun f Hf.
  - simpl in Hrun. simplify_eq. by left.
  - simpl in Hrun.
    destruct (scanEntry fs options recur dir depth entry) as [one|e|] eqn:E1;
      simpl in Hrun; [|done|done].
    destruct (IH _ Hrun f Hf) as [Hin | (en & Hen & Hcase)].
    + apply in_app_or in Hin as [Hin|Hin]; [by left|].
      right. exists entry. split; [by left|].
      by eapply scanEntry_sound.
    + right. exists en. split; [by right|done].
Qed.

Lemma atLevel_prepend root sub k dir :
  descends fs options root sub -> atLevel fs options sub k dir ->
  atLevel fs options root (S k) dir.
Proof.
  intros Hd. induction 1 as [|k dir sub' Hat IH Hstep].
  - eapply atLevel_down; [apply atLevel_root|done].
  - eapply atLevel_down; [exact IH|done].
Qed.

(** Every file of the result is found at some level, and when the
    ceiling is in force that level, counted from the root of the whole
    scan, is within it. *)
Lemma _scanDirectoryRecursive_sound fuel dir depth found :
  _scanDirectoryRecursive fs options fuel dir depth = Done found ->
  forall f, In f found ->
    exists k, foundAtLevel fs options dir (S k) f /\
              (forall d, ScanOptions.maxDepth options = Some d -> (0 < d)%Z ->
                         (depth + Z.of_nat k <= d)%Z).
Proof.
  revert dir depth found.
  induction fuel as [|fuel IH]; intros dir depth found Hrun f Hf.
  - simpl in Hrun. destruct (aborted options); [by simplify_eq|].
    destruct (depthExceeded options depth); by simplify_eq.
  - simpl in Hrun. destruct (aborted options); [by simplify_eq|].
    destruct (depthExceeded options depth) eqn:Ex; [by simplify_eq|].
    destruct (readdir fs dir) as [e|entries] eqn:Er; simpl in Hrun;
      [by simplify_eq|].
    destruct (scanEntries _ _ _ _ _ _ _) as [l|e|] eqn:El; simpl in Hrun;
      simplify_eq; [|done].
    assert (forall d, ScanOptions.maxDepth options = Some d -> (0 < d)%Z ->
                      (depth <= d)%Z) as Hdepth.
    { intros d Hd Hpos. unfold depthExceeded in Ex. rewrite Hd in Ex.
      apply andb_false_iff in Ex as [Ex|Ex]; [apply Z.ltb_ge in Ex; lia|].
      by apply Z.ltb_ge in Ex. }
    destruct (scanEntries_sound _ _ _ _ _ _ El f Hf)
      as [[] | (entry & Hentry & [Hy | (sub & l & Hd & Hrec & Hl)])].
    + exists 0%nat. split; [|intros d Hd Hpos; specialize (Hdepth d Hd Hpos); lia].
      exists dir. split; [apply atLevel_root|]. by exists entries, entry.
    + destruct (IH _ _ _ Hrec f Hl) as (k & (d' & Hat & Hyd) & Hk).
      exists (S k). split; [|intros d Hd0 Hpos; specialize (Hk d Hd0 Hpos); lia].
      exists d'. split; [|done].
      eapply atLevel_prepend; [|done]. by exists entries, entry.
Qed.

(** A loop whose nested calls all return does not run out of fuel. *)
Lemma scanEntries_returns
    (recur : jsstring -> Z -> Run (list Scanner.FileEntry.t))
    dir depth entries results :
  (forall p, exists l, recur p (depth + 1)%Z = Done l) ->
  scanEntries fs options recur dir depth entries results <> OutOfFuel.
Proof.
  intros Hrec. revert results.
  induction entries as [|entry rest IH]; intros results; simpl; [done|].
  assert (scanEntry fs options recur dir depth entry <> OutOfFuel) as Hone.
  { unfold scanEntry.
    destruct (_ && _); [done|].
    destruct (Dirent.kind entry); try done.
    - destruct (isSupportedAudioFormat _); [|done].
      unfold getFileInfo. destruct (validateFilePath _ _) as [[]|e|] eqn:Ev;
        simpl; try done.
      + destruct (stat fs _); simpl; done.
      + unfold validateFilePath in Ev. destruct (trim _); [done|].
        destruct (existsb _ _); done.
    - destruct (ScanOptions.recursive options); [|done].
      destruct (Hrec (Path.join dir (Dirent.name entry))) as (l & ->). done.
    - destruct (ScanOptions.followSymlinks options); [|done].
      unfold followLink.
      destruct (readlink fs _) as [e|target]; simpl; [done|].
      destruct (stat fs _) as [e|stats]; simpl; [done|].
      destruct (_ && _).
      + destruct (Hrec (resolve fs dir target)) as (l & ->). done.
      + destruct (_ && _); [|done].
        unfold getFileInfo. destruct (validateFilePath _ _) as [[]|e|] eqn:Ev;
          simpl; try done.
        * destruct (stat fs _); simpl; done.
        * unfold validateFilePath in Ev. destruct (trim _); [done|].
          destruct (existsb _ _); done. }
  destruct (scanEntry fs options recur dir depth entry); simpl; [apply IH|done|done].
Qed.

(** With a positive ceiling the scan returns once the fuel covers the
    levels that are left. *)
Lemma _scanDirectoryRecursive_returns d fuel dir depth :
  ScanOptions.maxDepth options = Some d ->
  (0 < d)%Z ->
  (d < depth + Z.of_nat fuel)%Z ->
  exists l, _scanDirectoryRecursive fs options fuel dir depth = Done l.
Proof.
  intros Hd Hpos. revert dir depth.
  induction fuel as [|fuel IH]; intros dir depth Hfuel; simpl.
  - destruct (aborted options); [by eexists|].
    unfold depthExceeded. rewrite Hd.
    replace (0 <? d)%Z with true by (symmetry; by apply Z.ltb_lt).
    replace (d <? depth)%Z with true by (symmetry; apply Z.ltb_lt; lia).
    by eexists.
  - destruct (aborted options); [by eexists|].
    destruct (depthExceeded options depth); [by eexists|].
    destruct (readdir fs dir) as [e|entries]; simpl; [by eexists|].
    pose proof (scanEntries_returns (_scanDirectoryRecursive fs options fuel)
                  dir depth entries []) as Hret.
    destruct (scanEntries _ _ _ _ _ _ _) as [l|e|]; simpl; try by eexists.
    exfalso. apply Hret; [|done]. intros p. apply IH. lia.
Qed.
End Scan.

Lemma scanDirectory_files fs config fuel root args results :
  scanDirectory fs config fuel root args = Done (Files results) ->
  _scanDirectoryRecursive fs (mergeOptions (defaultScanOptions config) args)
    fuel root 1 = Done results.
Proof.
  unfold scanDirectory. intros H.
  destruct (validateFilePath root _) as [[]|e|]; simpl in H; [|done|done].
  destruct (checkDirectory fs root) as [[]|e|]; simpl in H; [|done|done].
  destruct (_scanDirectoryRecursive _ _ _ _ _) as [l|e|]; simpl in H; by simplify_eq.
Qed.



(** **** C5 *)






(** [{ maxDepth: undefined }] lifts the ceiling as a depth of 0 does: the
    file eight levels below the root is returned. *)
Example scanDirectory_undefined_depth_means_no_limit :
  exists f,
    scanDirectory (deepFs 7) noConfig 10 (js "/r") withUndefinedMaxDepth
      = Done (Files [f])
    /\ Scanner.FileEntry.path f = js "/r/d/d/d/d/d/d/d/x.mp3".
Proof. eexists. split; vm_compute; reflexivity. Qed.


(** **** C6 *)

(** C6, the code at the failing input: a root that is a directory but
    cannot be listed does not fail the scan; the failure of [readdir] is
    caught inside [_scanDirectoryRecursive], for the root as for any
    other directory, and [scanDirectory] resolves to the empty list. *)
Theorem scanDirectory_unlistable_root_gives_empty
    fs config fuel root args stats e :
  validateFilePath root "Directory path" = Done tt ->
  stat fs root = inr stats -> Stats.isDirectory stats = true ->
  readdir fs root = inl e ->
  scanDirectory fs config (S fuel) root args = Done (Files []).
Proof.
  intros Hv Hs Hd Hr. unfold scanDirectory, checkDirectory.
  rewrite Hv, Hs. simpl. rewrite Hd. simpl.
  destruct (aborted _); [done|]. destruct (depthExceeded _ 1); [done|].
  by rewrite Hr.
Qed.

Lemma scanDirectory_unlistable_root_gives_empty_witness :
  scanDirectory unreadableRootFs noConfig 1 (js "/audiobooks") noArgs
  = Done (Files []).
Proof.
  apply (scanDirectory_unlistable_root_gives_empty unreadableRootFs noConfig 0
           (js "/audiobooks") noArgs
           {| Stats.isDirectory := true; Stats.isFile := false;
              Stats.size := 4096; Stats.birthtime := 0; Stats.mtime := 0 |}
           (SystemError "EACCES")); reflexivity.
Defined.

(** The other half of C6 holds: a subdirectory that cannot be listed
    gives no file, and the loop over the entries of its parent goes
    on. *)
Lemma unlistable_subdirectory_is_skipped fs options fuel dir depth entry rest results e :
  negb (ScanOptions.includeHidden options) && isHidden entry = false ->
  Dirent.kind entry = KDirectory ->
  readdir fs (Path.join dir (Dirent.name entry)) = inl e ->
  _scanDirectoryRecursive fs options (S fuel) (Path.join dir (Dirent.name entry))
    (depth + 1) = Done [] /\
  scanEntries fs options (_scanDirectoryRecursive fs options (S fuel)) dir depth
    (entry :: rest) results
  = scanEntries fs options (_scanDirectoryRecursive fs options (S fuel)) dir depth
      rest results.
Proof.
  intros Hh Hk Hr.
  assert (_scanDirectoryRecursive fs options (S fuel)
            (Path.join dir (Dirent.name entry)) (depth + 1) = Done []) as Hsub.
  { simpl. destruct (aborted options); [done|].
    destruct (depthExceeded options (depth + 1)); [done|]. by rewrite Hr. }
  split; [done|].
  cbn [scanEntries]. unfold scanEntry. rewrite Hh, Hk.
  destruct (ScanOptions.recursive options).
  - rewrite Hsub. simpl. by rewrite app_nil_r.
  - simpl. by rewrite app_nil_r.
Qed.

(** A root that does not exist is reported through the value that
    [errorHandler.handle] returns: the promise still resolves. *)
Example scanDirectory_missing_root :
  scanDirectory unreadableRootFs noConfig 1 (js "/nowhere") noArgs
  = Done (ErrorValue (MessageError "Directory does not exist: /nowhere")).
Proof. reflexivity. Qed.
End FileSystemFacts.

(** ** TaskQueue *)

Module QueueFacts.
Import Queue QueueSpec.

Lemma startedTickets_started st_events t :
  rev (omap (fun e => match e with Started u => Some (ticket u) | _ => None end)
         (Started t :: st_events))
  = rev (omap (fun e => match e with Started u => Some (ticket u) | _ => None end)
           st_events) ++ [ticket t].
Proof. reflexivity. Qed.

Lemma sorted_snoc (l : list nat) x :
  StronglySorted lt l -> Forall (fun y => y < x) l -> StronglySorted lt (l ++ [x]).
Proof.
  induction 1 as [|y l Hl IH Hy]; intros Hx; simpl.
  - repeat constructor.
  - inversion Hx; subst. constructor; [by apply IH|].
    apply Forall_app. split; [done|]. by constructor.
Qed.

Lemma sorted_prefix (l1 l2 : list nat) :
  StronglySorted lt (l1 ++ l2) -> StronglySorted lt l1.
Proof.
  induction l1 as [|x l1 IH]; simpl; [constructor|].
  intros H. inversion H; subst. constructor; [by apply IH|].
  by apply Forall_app in H3 as [? _].
Qed.

Lemma sorted_head_fresh (l1 l2 : list nat) x :
  StronglySorted lt (l1 ++ x :: l2) -> ~ In x l1.
Proof.
  induction l1 as [|y l1 IH]; simpl; [tauto|].
  intros H. inversion H; subst. intros [->|Hin]; [|by apply IH].
  apply Forall_app in H3 as [_ H3]. inversion H3; subst. lia.
Qed.

Lemma removeTask_notin t l : ~ In (ticket t) (map ticket l) -> removeTask t l = l.
Proof.
  unfold removeTask. induction l as [|u l IH]; simpl; [done|]. intros Hn.
  rewrite filter_cons. destruct (decide (ticket u <> ticket t)) as [Hne|He].
  - f_equal. apply IH. tauto.
  - exfalso. apply Hn. left. by apply dec_stable in He.
Qed.

Lemma removeTask_length t l :
  NoDup (map ticket l) -> In t l -> S (length (removeTask t l)) = length l.
Proof.
  unfold removeTask. induction l as [|u l IH]; simpl; [done|].
  intros Hnd Hin. apply NoDup_cons in Hnd as [Hu Hnd]. rewrite filter_cons.
  destruct (decide (ticket u <> ticket t)) as [Hne|He].
  - destruct Hin as [->|Hin]; [done|]. simpl. f_equal. by apply IH.
  - apply dec_stable in He. f_equal.
    fold (removeTask t l). rewrite removeTask_notin; [done|].
    rewrite <- He. by rewrite <- list_elem_of_In.
Qed.

Lemma removeTask_In t u l : In u (removeTask t l) <-> In u l /\ ticket u <> ticket t.
Proof.
  unfold removeTask. rewrite <- !list_elem_of_In, list_elem_of_filter. tauto.
Qed.

Lemma removeTask_NoDup t l : NoDup (map ticket l) -> NoDup (map ticket (removeTask t l)).
Proof.
  unfold removeTask. induction l as [|u l IH]; simpl; [done|].
  intros Hnd. apply NoDup_cons in Hnd as [Hu Hnd]. rewrite filter_cons.
  destruct (decide _); [|by apply IH].
  simpl. apply NoDup_cons. split; [|by apply IH].
  intros Hin. apply Hu. apply list_elem_of_In, in_map_iff in Hin as (v & Hv & Hin).
  apply list_elem_of_In, in_map_iff. exists v. split; [done|].
  by apply removeTask_In in Hin as [? _].
Qed.

Section WithConcurrency.
Variable concurrency : nat.

Lemma invariant_initial : invariant concurrency initial.
Proof.
  split; simpl; try done; try lia; try constructor.
Qed.

(** [processNext] keeps the invariant, given everything but the
    clause that it is there to restore. *)
Lemma invariant_processNext st :
  running st = length (inflight st) ->
  running st <= concurrency ->
  fifo st ->
  Forall (fun t => t < submitted st) (startedTickets st ++ queuedTickets st) ->
  (forall t, In t (inflight st) -> In (ticket t) (startedTickets st)) ->
  NoDup (inflightTickets st) ->
  (forall t, t < submitted st ->
             In t (queuedTickets st) \/ In t (inflightTickets st)
             \/ In t (settledTickets st)) ->
  (2 <= length (queue st) -> concurrency <= S (running st)) ->
  invariant concurrency (processNext concurrency st).
Proof.
  intros Hrun Hbound Hfifo Hbelow Hstarted Hnodup Hacc Hbusy.
  unfold processNext.
  destruct (queue st) as [|task rest] eqn:Eq.
  { split; try done; try (by rewrite Eq). }
  destruct (Nat.leb_spec concurrency (running st)) as [Hfull|Hfree].
  { split; try done. }
  unfold fifo, queuedTickets, inflightTickets, startedTickets, settledTickets in *.
  rewrite Eq in *. simpl in Hfifo, Hbelow, Hacc, Hbusy.
  split; cbn [queue running inflight submitted events completed failed].
  - rewrite length_app. simpl. lia.
  - lia.
  - intros Hrest. destruct rest; [done|]. simpl in Hbusy. lia.
  - unfold fifo, queuedTickets, startedTickets.
    cbn [queue events]. rewrite startedTickets_started.
    by rewrite <- app_assoc.
  - unfold queuedTickets, startedTickets.
    cbn [queue events submitted]. rewrite startedTickets_started.
    by rewrite <- app_assoc.
  - unfold startedTickets. cbn [events]. rewrite startedTickets_started.
    intros t [Ht|Ht]%in_app_or; apply in_or_app.
    + left. by apply Hstarted.
    + right. destruct Ht as [<-|[]]. by left.
  - unfold inflightTickets. cbn [inflight]. rewrite map_app. simpl.
    apply NoDup_app. split; [done|]. split; [|apply NoDup_singleton].
    intros x Hx [= ->]%list_elem_of_singleton.
    apply sorted_head_fresh in Hfifo. apply Hfifo.
    apply list_elem_of_In, in_map_iff in Hx as (u & Hu & Hin).
    rewrite <- Hu. by apply Hstarted.
  - unfold queuedTickets, inflightTickets, settledTickets.
    cbn [queue inflight events submitted omap]. intros t Ht.
    destruct (Hacc t Ht) as [[<-|Hq]|[Hi|Hs]].
    + right. left. rewrite map_app. apply in_or_app. right. by left.
    + by left.
    + right. left. rewrite map_app. apply in_or_app. by left.
    + right. right. done.
Qed.
End WithConcurrency.

Section Steps.
Variable concurrency : nat.

Lemma invariant_add st : invariant concurrency st -> invariant concurrency (add concurrency st).
Proof.
  intros [Hrun Hbound Hbusy Hfifo Hbelow Hstarted Hnodup Hacc].
  unfold add. apply invariant_processNext;
    unfold fifo, queuedTickets, inflightTickets, startedTickets, settledTickets in *;
    cbn [queue running inflight submitted events]; try done.
  - rewrite map_app, app_assoc. simpl. by apply sorted_snoc.
  - rewrite map_app, app_assoc. apply Forall_app. split.
    + eapply Forall_impl; [exact Hbelow|]. simpl. lia.
    + repeat constructor.
  - intros t Ht. destruct (decide (t = submitted st)) as [->|Hne].
    + left. rewrite map_app. apply in_or_app. right. by left.
    + destruct (Hacc t ltac:(lia)) as [Hq|[Hi|Hs]]; [|by auto|by auto].
      left. rewrite map_app. apply in_or_app. by left.
  - rewrite length_app. simpl. intros Hlen.
    assert (queue st <> []) as Hne by (destruct (queue st); simpl in *; [lia|done]).
    specialize (Hbusy Hne). lia.
Qed.

Lemma invariant_settle st t o completed' failed' :
  invariant concurrency st -> In t (inflight st) ->
  invariant concurrency
    (processNext concurrency
       {| queue := queue st; running := pred (running st);
          completed := completed'; failed := failed';
          inflight := removeTask t (inflight st);
          submitted := submitted st;
          events := Settled t o :: events st |}).
Proof.
  intros [Hrun Hbound Hbusy Hfifo Hbelow Hstarted Hnodup Hacc] Hin.
  pose proof (removeTask_length t (inflight st) Hnodup Hin) as Hlen.
  apply invariant_processNext;
    unfold fifo, queuedTickets, inflightTickets, startedTickets, settledTickets in *;
    cbn [queue running inflight submitted events omap]; try done.
  - lia.
  - lia.
  - intros u Hu. apply Hstarted. by apply removeTask_In in Hu as [? _].
  - by apply removeTask_NoDup.
  - intros u Hu. destruct (Hacc u Hu) as [Hq|[Hi|Hs]]; [by auto| |].
    + destruct (decide (u = ticket t)) as [->|Hne].
      * right. right. by left.
      * right. left. apply in_map_iff in Hi as (v & <- & Hv).
        apply in_map_iff. exists v. split; [done|].
        apply removeTask_In. split; [done|]. congruence.
    + right. right. by right.
  - intros Hq. assert (queue st <> []) as Hne
      by (destruct (queue st); simpl in *; [lia|done]).
    specialize (Hbusy Hne). lia.
Qed.

Lemma invariant_clear st :
  invariant concurrency st -> invariant concurrency (snd (clear st)).
Proof.
  intros [Hrun Hbound Hbusy Hfifo Hbelow Hstarted Hnodup Hacc].
  assert (forall l es,
             omap (fun e => match e with Started u => Some (ticket u) | _ => None end)
               (rev (map (fun t => Settled t Cancelled) l) ++ es)
             = omap (fun e => match e with Started u => Some (ticket u) | _ => None end)
                 es) as Hstart.
  { intros l es. rewrite omap_app.
    replace (omap _ (rev (map _ l))) with (@nil nat); [done|].
    symmetry. induction l as [|x l IH]; simpl; [done|]. by rewrite omap_app, IH. }
  assert (forall l es u,
             In u (map ticket l) ->
             In u (omap (fun e => match e with Settled t _ => Some (ticket t)
                                           | _ => None end)
                     (rev (map (fun t => Settled t Cancelled) l) ++ es))) as Hset.
  { intros l es u Hu. rewrite omap_app. apply in_or_app. left.
    apply in_map_iff in Hu as (v & <- & Hv).
    apply list_elem_of_In, list_elem_of_omap.
    exists (Settled v Cancelled). split; [|done].
    apply list_elem_of_In, in_rev. rewrite rev_involutive.
    apply in_map_iff. eauto. }
  unfold clear. cbn [snd].
  split; unfold fifo, queuedTickets, inflightTickets, startedTickets, settledTickets in *;
    cbn [queue running inflight submitted events map]; try done;
    rewrite ?Hstart, ?app_nil_r.
  - by apply sorted_prefix in Hfifo.
  - by apply Forall_app in Hbelow as [? _].
  - intros t Ht. by apply Hstarted.
  - intros t Ht. destruct (Hacc t Ht) as [Hq|[Hi|Hs]].
    + right. right. by apply Hset.
    + by auto.
    + right. right. rewrite omap_app. apply in_or_app. by right.
Qed.

Lemma invariant_step st l st' :
  invariant concurrency st -> step concurrency st l st' -> invariant concurrency st'.
Proof.
  intros Hinv Hstep. destruct Hstep.
  - by apply invariant_add.
  - by apply invariant_settle.
  - by apply invariant_settle.
  - by apply invariant_clear.
Qed.

Lemma invariant_run st ls st' :
  invariant concurrency st -> run concurrency st ls st' -> invariant concurrency st'.
Proof.
  intros Hinv Hrun. induction Hrun as [|st l st' ls st'' Hstep Hrun IH]; [done|].
  apply IH. by eapply invariant_step.
Qed.

Lemma invariant_reachable st : reachable concurrency st -> invariant concurrency st.
Proof.
  intros (ls & Hrun). eapply invariant_run; [|exact Hrun]. apply invariant_initial.
Qed.

Lemma reachable_step st l st' :
  reachable concurrency st -> step concurrency st l st' -> reachable concurrency st'.
Proof.
  intros (ls & Hrun) Hstep. exists (ls ++ [l]).
  clear -Hrun Hstep. induction Hrun as [|s0 l0 s1 ls s2 Hs Hr IH].
  - simpl. eapply run_cons; [exact Hstep|apply run_nil].
  - simpl. eapply run_cons; [exact Hs|]. by apply IH.
Qed.
End Steps.

Section Guarantees.
Variable concurrency : nat.

Lemma processNext_unsettled st :
  unsettled (processNext concurrency st) = unsettled st.
Proof.
  unfold processNext, unsettled. destruct (queue st) as [|task rest] eqn:E.
  { by rewrite E. }
  destruct (concurrency <=? running st); [by rewrite E|].
  cbn [queue inflight]. rewrite length_app. simpl. lia.
Qed.

Lemma settle_unsettled st l st' :
  invariant concurrency st -> isSettle l = true -> step concurrency st l st' ->
  S (unsettled st') = unsettled st.
Proof.
  intros Hinv Hl Hstep.
  destruct Hstep as [st|st t Hin|st t Hin|st]; try done;
    unfold onSuccess, onError; rewrite processNext_unsettled;
    unfold unsettled; cbn [queue inflight];
    pose proof (removeTask_length t (inflight st)
                  (inv_inflight_nodup _ _ Hinv) Hin); lia.
Qed.

Lemma settle_run_unsettled st ls st' :
  invariant concurrency st -> settleOnly ls -> run concurrency st ls st' ->
  (length ls + unsettled st' = unsettled st)%nat.
Proof.
  intros Hinv Hls Hrun. induction Hrun as [|st l st1 ls st2 Hstep Hrun IH]; [done|].
  inversion Hls; subst.
  pose proof (settle_unsettled _ _ _ Hinv ltac:(done) Hstep).
  pose proof (invariant_step _ _ _ _ Hinv Hstep) as Hinv1.
  specialize (IH Hinv1 ltac:(done)). simpl. lia.
Qed.

Lemma progress st :
  1 <= concurrency -> invariant concurrency st ->
  0 < unsettled st -> inflight st <> [].
Proof.
  intros HN [Hrun Hbound Hbusy _ _ _ _ _] Hun Hnil.
  unfold unsettled in Hun. rewrite Hnil in *. simpl in *.
  assert (queue st <> []) as Hq by (destruct (queue st); simpl in *; [lia|done]).
  specialize (Hbusy Hq). lia.
Qed.

Lemma settled_when_idle st :
  invariant concurrency st -> unsettled st = 0 -> allSettled st.
Proof.
  intros Hinv Hun t Ht. unfold unsettled in Hun.
  destruct (inv_accounted _ _ Hinv t Ht) as [Hq|[Hi|Hs]]; [| |done].
  - unfold queuedTickets in Hq. destruct (queue st); simpl in *; [done|lia].
  - unfold inflightTickets in Hi. destruct (inflight st); simpl in *; [done|lia].
Qed.

Lemma drains st :
  1 <= concurrency -> invariant concurrency st ->
  exists ls st', settleOnly ls /\ run concurrency st ls st' /\ allSettled st'.
Proof.
  intros HN. remember (unsettled st) as n eqn:En. revert st En.
  induction n as [|n IH]; intros st En Hinv.
  - exists [], st. split; [constructor|]. split; [constructor|].
    by apply settled_when_idle.
  - pose proof (progress st HN Hinv ltac:(lia)) as Hne.
    destruct (inflight st) as [|t rest] eqn:Ei; [done|].
    assert (step concurrency st (Succeed t) (onSuccess concurrency t st)) as Hstep
      by (constructor; rewrite Ei; by left).
    pose proof (settle_unsettled st (Succeed t) _ Hinv eq_refl Hstep).
    destruct (IH (onSuccess concurrency t st)) as (ls & st' & Hls & Hrun & Hall);
      [lia|by eapply invariant_step|].
    exists (Succeed t :: ls), st'. split; [by constructor|]. split; [|done].
    by eapply run_cons.
Qed.

Lemma settle_starts_next st t next rest st' l :
  invariant concurrency st -> In t (inflight st) -> queue st = next :: rest ->
  isSettle l = true -> step concurrency st l st' ->
  queue st' = rest /\ In next (inflight st') /\
  exists u o, events st' = Started next :: Settled u o :: events st.
Proof.
  intros [Hrun Hbound _ _ _ _ _ _] Hin Hq Hl Hstep.
  assert (0 < running st) as Hpos
    by (rewrite Hrun; destruct (inflight st); simpl in *; [done|lia]).
  destruct Hstep as [st|st u Hu|st u Hu|st]; try done;
    unfold onSuccess, onError, processNext; cbn [queue running]; rewrite Hq;
    (replace (concurrency <=? pred (running st)) with false
      by (symmetry; apply Nat.leb_gt; lia));
    cbn [queue inflight events];
    (split; [done|]); (split; [apply in_or_app; right; by left|]); eauto.
Qed.

(** **** C2 *)

(** C2, amended: in every state that adding tasks, settling of started
    tasks and clearing can lead to, at most [concurrency] tasks are
    running; tasks are started in the order of submission, ahead of
    every task still waiting; whenever a running task settles, with
    success or with failure, the task at the head of the queue is
    started in the same turn.  When the concurrency is at least 1,
    every added task is eventually settled, granted that started tasks
    settle: while a task is unsettled some task is running, every
    settling leaves one unsettled task less, a state with no unsettled
    task has every added task settled, and such a state can be
    reached by settling alone. *)
Theorem queue_bounded_fifo_and_live :
  (forall st, reachable concurrency st ->
              running st <= concurrency /\ running st = length (inflight st)) /\
  (forall st, reachable concurrency st -> fifo st) /\
  (forall st t next rest l st',
      reachable concurrency st -> In t (inflight st) -> queue st = next :: rest ->
      isSettle l = true -> step concurrency st l st' ->
      queue st' = rest /\ In next (inflight st') /\
      exists u o, events st' = Started next :: Settled u o :: events st) /\
  (1 <= concurrency ->
   forall st, reachable concurrency st ->
     (0 < unsettled st -> inflight st <> []) /\
     (forall ls st', settleOnly ls -> run concurrency st ls st' ->
                     (length ls + unsettled st' = unsettled st)%nat) /\
     (unsettled st = 0 -> allSettled st) /\
     (exists ls st', settleOnly ls /\ run concurrency st ls st' /\ allSettled st')).
Proof.
  split; [|split; [|split]].
  - intros st Hr. apply invariant_reachable in Hr as [? ? _ _ _ _ _ _]. done.
  - intros st Hr. by apply invariant_reachable in Hr as [_ _ _ ? _ _ _ _].
  - intros st t next rest l st' Hr. apply invariant_reachable in Hr.
    by apply settle_starts_next.
  - intros HN st Hr. apply invariant_reachable in Hr.
    split; [by apply progress|]. split; [|split].
    + intros ls st'. by apply settle_run_unsettled.
    + by apply settled_when_idle.
    + by apply drains.
Qed.
End Guarantees.

Lemma threeAdded_reachable : reachable 2 threeAdded.
Proof.
  exists [Add; Add; Add]. unfold threeAdded.
  repeat (eapply run_cons; [apply step_add|]). apply run_nil.
Qed.

Lemma queue_bounded_fifo_and_live_witness :
  exists ls st', settleOnly ls /\ run 2 threeAdded ls st' /\ allSettled st'.
Proof.
  apply (proj2 (proj2 (proj2 (queue_bounded_fifo_and_live 2))) ltac:(lia)
           threeAdded threeAdded_reachable).
Defined.

Example threeAdded_status :
  status threeAdded
  = {| status_queued := 1; status_running := 2; status_completed := 0;
       status_failed := 0; status_total := 3 |}.
Proof. reflexivity. Qed.

(** C2 as stated fails for a queue of concurrency 0: [processNext] never
    takes a task off the queue, so a task that is added is never started
    and, unless the queue is cleared, never settled. *)
Lemma queue_of_concurrency_zero_never_settles :
  reachable 0 (add 0 initial) /\
  ~ (exists ls st', settleOnly ls /\ run 0 (add 0 initial) ls st' /\ allSettled st') /\
  (forall ls st,
      run 0 (add 0 initial) ls st -> Forall (fun l => isClear l = false) ls ->
      inflight st = [] /\ settledTickets st = [] /\ In {| ticket := 0 |} (queue st)).
Proof.
  assert (forall ls st0 st,
             run 0 st0 ls st -> Forall (fun l => isClear l = false) ls ->
             inflight st0 = [] /\ settledTickets st0 = []
             /\ In {| ticket := 0 |} (queue st0) ->
             inflight st = [] /\ settledTickets st = []
             /\ In {| ticket := 0 |} (queue st)) as Hkeep.
  { intros ls st0 st Hrun. induction Hrun as [|s l s1 ls s2 Hstep Hrun IH]; [done|].
    intros Hls (Hi & Hs & Hq). inversion Hls; subst. apply IH; [done|].
    destruct Hstep as [s|s t Hin|s t Hin|s]; try done.
    - unfold add, processNext. cbn [queue running].
      destruct (queue s ++ _) eqn:E; [by destruct (queue s)|].
      cbn [Nat.leb]. rewrite <- E. cbn [inflight queue]. unfold settledTickets.
      cbn [events]. split; [done|]. split; [done|]. apply in_or_app. by left.
    - by rewrite Hi in Hin.
    - by rewrite Hi in Hin. }
  split; [exists [Add]; eapply run_cons; [apply step_add|apply run_nil]|]. split.
  - intros (ls & st' & Hls & Hrun & Hall).
    destruct (Hkeep ls _ st' Hrun) as (_ & Hs & _).
    + eapply Forall_impl; [exact Hls|]. intros l. by destruct l.
    + repeat split; try done. by left.
    + specialize (Hall 0).
      assert (submitted st' = 1) as Hsub.
      { clear -Hrun Hls. remember (add 0 initial) as s0 eqn:E0.
        assert (submitted s0 = 1) as H0 by (by subst).
        clear E0. induction Hrun as [|s l s1 ls s2 Hstep Hrun IH]; [done|].
        inversion Hls; subst. apply IH; [done|].
        destruct Hstep as [s|s t Hin|s t Hin|s]; try done;
          unfold onSuccess, onError, processNext; cbn [queue running];
          destruct (queue s); try done; by destruct (0 <=? _). }
      rewrite Hsub, Hs in Hall. apply Hall. lia.
  - intros ls st Hrun Hls. apply (Hkeep ls _ st Hrun Hls).
    repeat split; try done. by left.
Qed.
End QueueFacts.

(** ** The order that sorting gives *)

Module SortFacts.
Import JS.

Lemma StronglySorted_weaken {A} (R S : A -> A -> Prop) l :
  (forall a b, R a b -> S a b) -> StronglySorted R l -> StronglySorted S l.
Proof.
  intros HRS. induction 1 as [|x l Hl IH Hx]; constructor; [done|].
  eapply Forall_impl; [exact Hx|]. intros y. apply HRS.
Qed.

Section Order.
Context {A : Type} (cmp : A -> A -> Z).
Hypothesis cmp_total : forall x y, (0 < cmp x y)%Z -> (cmp y x <= 0)%Z.
Hypothesis cmp_trans :
  forall x y z, (cmp x y <= 0)%Z -> (cmp y z <= 0)%Z -> (cmp x z <= 0)%Z.

Lemma sort_insert_sorted x l :
  StronglySorted (fun a b => (cmp a b <= 0)%Z) l ->
  StronglySorted (fun a b => (cmp a b <= 0)%Z) (sort_insert cmp x l).
Proof.
  induction 1 as [|y l Hl IH Hy]; cbn [sort_insert].
  - constructor; constructor.
  - destruct (Z.leb_spec (cmp x y) 0) as [Hxy|Hxy].
    + constructor; [by constructor|]. constructor; [done|].
      eapply Forall_impl; [exact Hy|]. intros z Hz. by eapply cmp_trans.
    + constructor; [done|].
      eapply Permutation_Forall; [symmetry; apply JSFacts.sort_insert_perm|].
      constructor; [by apply cmp_total|done].
Qed.

Lemma sort_sorted l : StronglySorted (fun a b => (cmp a b <= 0)%Z) (sort cmp l).
Proof.
  induction l as [|x l IH]; [constructor|]. by apply sort_insert_sorted.
Qed.
End Order.

Section Stable.
Context {A : Type} (cmp : A -> A -> Z) (P : A -> bool).

Lemma sort_insert_filter x l :
  (forall y, In y l -> P x = true -> P y = true -> (cmp x y <= 0)%Z) ->
  List.filter P (sort_insert cmp x l) = (if P x then [x] else []) ++ List.filter P l.
Proof.
  induction l as [|y l IH]; intros Htie; cbn [sort_insert].
  - cbn. by destruct (P x).
  - destruct (Z.leb_spec (cmp x y) 0) as [Hxy|Hxy].
    + cbn [List.filter]. by destruct (P x).
    + cbn [List.filter]. rewrite IH by (intros z Hz; apply Htie; by right).
      destruct (P x) eqn:Px, (P y) eqn:Py; try done.
      specialize (Htie y (or_introl eq_refl) eq_refl Py). lia.
Qed.

(** Sorting does not reorder elements that the comparator ties. *)
Lemma sort_filter_stable l :
  (forall x y, In x l -> In y l -> P x = true -> P y = true -> (cmp x y <= 0)%Z) ->
  List.filter P (sort cmp l) = List.filter P l.
Proof.
  induction l as [|x l IH]; intros Htie; [done|].
  cbn [sort foldr]. fold (sort cmp l). rewrite sort_insert_filter.
  - rewrite IH; [by cbn; destruct (P x)|].
    intros a b Ha Hb. apply Htie; by right.
  - intros y Hy. apply JSFacts.sort_In in Hy. apply Htie; [by left|by right].
Qed.
End Stable.

End SortFacts.

(** ** The order of the ranked results *)

Module RankingFacts.
Import JS Matcher.
Local Open Scope Q_scope.

Lemma byScoreDescending_le a b :
  (byScoreDescending a b <= 0)%Z <-> _matchScore b <= _matchScore a.
Proof.
  unfold byScoreDescending.
  destruct (_matchScore b ?= _matchScore a) eqn:E.
  - apply Qeq_alt in E. split; [intros _; by rewrite E; apply Qle_refl|lia].
  - apply Qlt_alt in E. split; [intros _; by apply Qlt_le_weak|lia].
  - apply Qgt_alt in E. split; [lia|]. intros H. exfalso.
    by apply (Qlt_not_le _ _ E).
Qed.

(** X1: the ranked results come in the order of their scores, the best
    first: no element has a smaller score than one that comes after
    it. *)
Theorem rankMetadataResults_best_first fileInfo results :
  StronglySorted (fun a b => _matchScore b <= _matchScore a)
    (rankMetadataResults fileInfo results).
Proof.
  assert (forall l, StronglySorted (fun a b => _matchScore b <= _matchScore a)
                      (sort byScoreDescending l)) as Hsorted.
  { intros l.
    eapply SortFacts.StronglySorted_weaken;
      [|apply (SortFacts.sort_sorted byScoreDescending)].
    - intros a b. apply byScoreDescending_le.
    - intros x y Hxy. apply byScoreDescending_le.
      assert (~ (byScoreDescending x y <= 0)%Z) as Hn by lia.
      rewrite byScoreDescending_le in Hn. apply Qnot_le_lt in Hn.
      by apply Qlt_le_weak.
    - intros x y z. rewrite !byScoreDescending_le. intros H1 H2.
      by eapply Qle_trans. }
  destruct fileInfo, results; cbn [rankMetadataResults]; try constructor.
  apply Hsorted.
Qed.

(** X2: the ranking is stable: the results that share a score keep the
    order in which they were given. *)
Theorem rankMetadataResults_keeps_order_of_ties fileInfo rs (score : Q) :
  List.filter (fun e => Qeq_bool (_matchScore e) score)
    (rankMetadataResults (Some fileInfo) (ResultsArray rs))
  = List.filter (fun e => Qeq_bool (_matchScore e) score)
      (map (fun result =>
              spread result (calculateMatchScore (Some fileInfo) result)) rs).
Proof.
  cbn [rankMetadataResults]. apply SortFacts.sort_filter_stable.
  intros x y _ _ Hx Hy. apply byScoreDescending_le.
  apply Qeq_bool_iff in Hx, Hy. rewrite Hx, Hy. apply Qle_refl.
Qed.

End RankingFacts.

(** ** The groups, told without the loop *)

Module GroupingFacts.
Import JS Scanner ScannerSpec GroupingSpec.

Lemma filter_none {A} (P : A -> Prop) `{forall x, Decision (P x)} (l : list A) :
  (forall x, x ∈ l -> ~ P x) -> filter P l = [].
Proof.
  induction l as [|a l IH]; intros Hl; [done|].
  rewrite filter_cons_False by (apply Hl; left).
  apply IH. intros x Hx. apply Hl. by right.
Qed.

Lemma firstFiles_keys files k :
  k ∈ map _identifyBookKey (firstFiles files) <-> k ∈ map _identifyBookKey files.
Proof.
  induction files as [|f rest IH]; [done|]. cbn [firstFiles map].
  rewrite !elem_of_cons, <- IH.
  destruct (decide (k = _identifyBookKey f)) as [->|Hne]; [tauto|].
  split; (intros [?|H]; [by left|right]).
  - apply list_elem_of_fmap in H as (g & -> & Hg).
    apply list_elem_of_filter in Hg as [_ Hg].
    apply list_elem_of_fmap. eauto.
  - apply list_elem_of_fmap in H as (g & -> & Hg).
    apply list_elem_of_fmap. exists g. split; [done|].
    apply list_elem_of_filter. split; [congruence|done].
Qed.

Lemma firstFiles_snoc files f :
  firstFiles (files ++ [f])
  = if decide (_identifyBookKey f ∈ map _identifyBookKey files)
    then firstFiles files else firstFiles files ++ [f].
Proof.
  induction files as [|a rest IH]; cbn [firstFiles app map].
  - rewrite decide_False by (intros H; by apply elem_of_nil in H). done.
  - rewrite IH.
    destruct (decide (_identifyBookKey f ∈ map _identifyBookKey rest)) as [Hin|Hout].
    + rewrite decide_True by (apply elem_of_cons; by right). done.
    + rewrite filter_app.
      destruct (decide (_identifyBookKey f = _identifyBookKey a)) as [E|Hne].
      * rewrite decide_True by (rewrite E; apply elem_of_cons; by left).
        rewrite (filter_cons_False _ f) by (intros H; by apply H).
        by rewrite filter_nil, app_nil_r.
      * rewrite decide_False by (rewrite elem_of_cons; tauto).
        by rewrite (filter_cons_True _ f), filter_nil by done.
Qed.

Lemma bookOf_snoc_other first seen f :
  _identifyBookKey f <> _identifyBookKey first ->
  bookOf first (seen ++ [f]) = bookOf first seen.
Proof.
  intros Hne. unfold bookOf, filesOfKey. rewrite filter_app.
  rewrite (filter_cons_False _ f) by done. by rewrite filter_nil, app_nil_r.
Qed.

Lemma bookOf_snoc_same first seen f :
  _identifyBookKey f = _identifyBookKey first ->
  bookOf first (seen ++ [f]) = addFile f (bookOf first seen).
Proof.
  intros E. unfold bookOf, filesOfKey, addFile. cbn [Book.key Book.name
    Book.directory Book.files Book.totalSize]. rewrite filter_app.
  rewrite (filter_cons_True _ f) by done. rewrite filter_nil.
  rewrite ScannerFacts.sizeSum_app. cbn [sizeSum foldr].
  by rewrite Z.add_0_r.
Qed.

(** The state of the loop after the files [seen]. *)
Lemma fold_groupStep_books seen :
  let st := fold_left groupStep seen {| books := []; bookMap := ∅ |} in
  consistent st /\
  books st = map (fun first => bookOf first seen) (firstFiles seen).
Proof.
  induction seen as [|f seen IH] using rev_ind.
  - split; [apply ScannerFacts.groupingInvariant_initial|done].
  - rewrite fold_left_app. cbn [fold_left].
    set (st := fold_left groupStep seen {| books := []; bookMap := ∅ |}) in *.
    cbv zeta in IH. destruct IH as [Hc Hb]. cbv zeta.
    assert (consistent (groupStep st f)) as Hc'.
    { pose proof (ScannerFacts.groupingInvariant_fold seen _ []
                    ScannerFacts.groupingInvariant_initial) as Hinv.
      fold st in Hinv. apply (ScannerFacts.groupingInvariant_step _ _ f) in Hinv.
      apply Hinv. }
    split; [done|]. clear Hc'.
    rewrite firstFiles_snoc. unfold groupStep. unfold consistent in Hc.
    destruct (bookMap st !! _identifyBookKey f) as [i|] eqn:E.
    + pose proof E as Em. apply Hc in E. cbn [books].
      assert (_identifyBookKey f ∈ map _identifyBookKey seen) as Hin.
      { apply firstFiles_keys.
        destruct (books st !! i) as [b|] eqn:Ei; [|done].
        injection E as E. rewrite Hb in Ei.
        apply list_lookup_fmap_Some in Ei as (first & -> & Hfirst).
        cbn [bookOf Book.key] in E. rewrite <- E.
        apply list_elem_of_fmap. exists first. split; [done|].
        by eapply list_elem_of_lookup_2. }
      rewrite decide_True by done.
      apply list_eq. intros j. rewrite list_lookup_fmap.
      destruct (decide (j = i)) as [->|Hji].
      * rewrite list_lookup_alter. rewrite Hb in E |- *.
        rewrite list_lookup_fmap in E. rewrite list_lookup_fmap.
        destruct (firstFiles seen !! i) as [first|]; [|done].
        cbn in E |- *. injection E as E. rewrite decide_True by done.
        f_equal. symmetry. by apply bookOf_snoc_same.
      * rewrite list_lookup_alter_ne by done. rewrite Hb, list_lookup_fmap.
        destruct (firstFiles seen !! j) as [first|] eqn:Ej; [|done].
        cbn. f_equal. symmetry. apply bookOf_snoc_other. intros Ek.
        assert (bookMap st !! _identifyBookKey f = Some j) as Hj.
        { apply Hc. rewrite Hb, list_lookup_fmap, Ej. cbn. by rewrite Ek. }
        congruence.
    + cbn [books].
      assert (_identifyBookKey f ∉ map _identifyBookKey seen) as Hout.
      { rewrite <- firstFiles_keys. intros Hin.
        apply list_elem_of_fmap in Hin as (first & Ek & Hfirst).
        apply list_elem_of_lookup_1 in Hfirst as [j Hj].
        assert (bookMap st !! _identifyBookKey f = Some j) as Hsome; [|congruence].
        apply Hc. rewrite Hb, list_lookup_fmap, Hj. cbn. by rewrite Ek. }
      rewrite decide_False by done. rewrite map_app. cbn [map]. f_equal.
      * rewrite Hb. apply map_ext_in. intros first Hfirst. symmetry.
        apply bookOf_snoc_other. intros Ek. apply Hout. rewrite Ek.
        apply firstFiles_keys, list_elem_of_fmap. exists first.
        split; [done|]. by apply list_elem_of_In.
      * f_equal. unfold newBook, bookOf, filesOfKey. rewrite filter_app.
        rewrite (filter_cons_True _ f), filter_nil by done.
        assert (filter (fun g => _identifyBookKey g = _identifyBookKey f) seen = [])
          as ->.
        { apply filter_none. intros g Hg Ek.
          apply Hout. rewrite <- Ek. apply list_elem_of_fmap. eauto. }
        cbn [app sizeSum foldr]. by rewrite Z.add_0_r.
Qed.

(** X3: the groups without the loop.  With the files in name order,
    there is one group for each key, in the order in which the keys
    first occur; the group of a key is named after, and placed in the
    directory of, the first file that has the key; its files are the
    files with the key, sorted by track number, and its size is the sum
    of theirs. *)
Theorem groupFilesByBooks_by_first_files
    (localeCompare : jsstring -> jsstring -> Z) (files : list FileEntry.t) :
  groupFilesByBooks localeCompare files
  = map (fun first =>
           sortBookFiles (bookOf first (sort (byName localeCompare) files)))
        (firstFiles (sort (byName localeCompare) files)).
Proof.
  unfold groupFilesByBooks.
  destruct (fold_groupStep_books (sort (byName localeCompare) files)) as [_ ->].
  by rewrite map_map.
Qed.

(** X4: inside every group the files come in the order of their track
    numbers, a file without a number counting as track 0. *)
Theorem groupFilesByBooks_files_in_track_order
    (localeCompare : jsstring -> jsstring -> Z) (files : list FileEntry.t) :
  Forall (fun g =>
            StronglySorted
              (fun a b => (trackNumberOrZero a <= trackNumberOrZero b)%Z)
              (Book.files g))
    (groupFilesByBooks localeCompare files).
Proof.
  unfold groupFilesByBooks. apply Forall_fmap, Forall_forall. intros b _.
  cbn [sortBookFiles Book.files].
  eapply SortFacts.StronglySorted_weaken;
    [|apply (SortFacts.sort_sorted byTrackNumber)].
  - intros x y. unfold byTrackNumber. lia.
  - intros x y. unfold byTrackNumber. lia.
  - intros x y z. unfold byTrackNumber. lia.
Qed.

End GroupingFacts.

(** ** Strings that cleaning leaves alone *)

Module NormalFormFacts.
Import JS JSFacts Path PathFacts Organizer OrganizerSpec OrganizerFacts Matcher.

Lemma toLowerChar_idempotent c : toLowerChar (toLowerChar c) = toLowerChar c.
Proof. destruct c as [[] [] [] [] [] [] [] []]; reflexivity. Qed.

Lemma map_fixed {A} (f : A -> A) (l : list A) :
  Forall (fun x => f x = x) l -> map f l = l.
Proof. induction 1 as [|x l Hx _ IH]; cbn [map]; congruence. Qed.

Lemma filter_all {A} (P : A -> Prop) `{forall x, Decision (P x)} (l : list A) :
  Forall P l -> filter P l = l.
Proof.
  induction 1 as [|x l Hx _ IH]; [done|].
  rewrite filter_cons_True by done. by rewrite IH.
Qed.

Lemma collapseSpaces_fixed p s : singleSpaced p s = true -> collapseSpaces s = s.
Proof.
  revert p. induction s as [|c s IH]; intros p H; [done|].
  cbn [singleSpaced collapseSpaces] in *. destruct (isSpace c) eqn:Ec.
  - apply andb_true_iff in H as [H Hs]. apply andb_true_iff in H as [Hc _].
    apply bool_decide_eq_true in Hc. subst c.
    destruct s as [|d s']; [done|].
    pose proof Hs as Hs'. cbn [singleSpaced] in Hs'.
    destruct (isSpace d) eqn:Ed.
    + by rewrite andb_false_r in Hs'.
    + f_equal. by apply (IH true).
  - f_equal. by apply (IH false).
Qed.

Lemma replaceInvalid_fixed s : freeOfInvalid s -> replaceInvalid s = s.
Proof.
  intros H. apply map_fixed. eapply Forall_impl; [exact H|].
  intros c Hc. cbn beta in Hc |- *. by rewrite Hc.
Qed.

(** What [trim] returns is a piece of its argument. *)
Lemma trim_infix s : exists a b, s = a ++ trim s ++ b.
Proof.
  unfold trim. destruct (dropWhile_suffix isSpace s) as [a Ha].
  destruct (dropWhile_suffix isSpace (rev (dropWhile isSpace s))) as [b Hb].
  exists a, (rev b). rewrite <- rev_app_distr, <- Hb, rev_involutive. exact Ha.
Qed.

Lemma dropWhile_head {A} (f : A -> bool) (l : list A) x :
  head (dropWhile f l) = Some x -> f x = false.
Proof.
  induction l as [|y l IH]; [done|]. cbn [dropWhile].
  destruct (f y) eqn:E; [done|]. cbn. congruence.
Qed.

Lemma dropWhile_fixed {A} (f : A -> bool) (l : list A) :
  (forall x, head l = Some x -> f x = false) -> dropWhile f l = l.
Proof.
  destruct l as [|y l]; [done|]. intros H. cbn [dropWhile].
  by rewrite (H y eq_refl).
Qed.

Lemma head_prefix {A} (a b : list A) x : head a = Some x -> head (a ++ b) = Some x.
Proof. by destruct a. Qed.

(** It neither begins nor ends with white space. *)
Lemma trim_ends s :
  (forall c, head (trim s) = Some c -> isSpace c = false) /\
  (forall c, head (rev (trim s)) = Some c -> isSpace c = false).
Proof.
  unfold trim. split; intros c Hc.
  - destruct (dropWhile_suffix isSpace (rev (dropWhile isSpace s))) as [b Hb].
    apply (f_equal (@rev _)) in Hb. rewrite rev_involutive, rev_app_distr in Hb.
    apply (dropWhile_head isSpace s). rewrite Hb. by apply head_prefix.
  - rewrite rev_involutive in Hc. by apply dropWhile_head in Hc.
Qed.

Lemma trim_fixed s :
  (forall c, head s = Some c -> isSpace c = false) ->
  (forall c, head (rev s) = Some c -> isSpace c = false) ->
  trim s = s.
Proof.
  intros H1 H2. unfold trim. rewrite (dropWhile_fixed isSpace s) by done.
  rewrite (dropWhile_fixed isSpace (rev s)) by done. apply rev_involutive.
Qed.

Lemma trim_idempotent s : trim (trim s) = trim s.
Proof. apply trim_fixed; apply trim_ends. Qed.

Lemma Forall_infix {A} (P : A -> Prop) (a l b : list A) :
  Forall P (a ++ l ++ b) -> Forall P l.
Proof. intros H. by apply Forall_app in H as [_ [H _]%Forall_app]. Qed.

Lemma normalizeString_chars str :
  Forall (fun c => (isWordChar c || bool_decide (c = " "%char)) = true
                   /\ toLowerChar c = c)
    (normalizeString str).
Proof.
  unfold normalizeString.
  destruct (trim_infix (collapseSpaces (removePunctuation (toLowerCase str))))
    as (a & b & E).
  eapply Forall_infix. rewrite <- E. clear E a b.
  assert (Forall (fun c => (isWordChar c || isSpace c) = true /\ toLowerChar c = c)
            (removePunctuation (toLowerCase str))) as H.
  { unfold removePunctuation, toLowerCase. apply Forall_forall. intros c Hc.
    apply list_elem_of_filter in Hc as [Hk Hc]. split; [done|].
    apply list_elem_of_fmap in Hc as (d & -> & _). apply toLowerChar_idempotent. }
  induction H as [|c s [Hk Hl] Hs IH]; [constructor|].
  cbn [collapseSpaces]. destruct (isSpace c) eqn:Ec.
  - destruct s as [|d s']; [by repeat constructor|].
    destruct (isSpace d); [done|]. by constructor.
  - constructor; [|done]. split; [|done].
    rewrite orb_false_r in Hk. by rewrite Hk.
Qed.

Lemma normalizeString_singleSpaced str :
  singleSpaced false (normalizeString str) = true.
Proof.
  unfold normalizeString.
  destruct (trim_infix (collapseSpaces (removePunctuation (toLowerCase str))))
    as (a & b & E).
  pose proof (proj1 (singleSpaced_collapseSpaces
                       (removePunctuation (toLowerCase str)))) as H.
  rewrite E in H. apply singleSpaced_app in H as [_ H].
  by apply singleSpaced_app in H as [H _].
Qed.

(** X5: a normalized string is in normal form: it holds lower-case
    letters, digits, underscores and single spaces only, it neither
    begins nor ends with a space, and normalizing it again changes
    nothing. *)
Theorem normalizeString_normal_form (str : jsstring) :
  let norm := normalizeString str in
  Forall (fun c => (isWordChar c || bool_decide (c = " "%char)) = true
                   /\ toLowerChar c = c) norm /\
  singleSpaced false norm = true /\
  trim norm = norm /\
  normalizeString norm = norm.
Proof.
  cbv zeta. pose proof (normalizeString_chars str) as Hchars.
  pose proof (normalizeString_singleSpaced str) as Hss.
  assert (trim (normalizeString str) = normalizeString str) as Htrim
    by apply trim_idempotent.
  repeat split; try done.
  unfold normalizeString at 1. unfold toLowerCase, removePunctuation.
  rewrite map_fixed by (eapply Forall_impl; [exact Hchars|]; by intros c [_ H]).
  rewrite filter_all.
  2:{ eapply Forall_impl; [exact Hchars|]. intros c [H _]. cbn beta.
      apply orb_true_iff in H as [H|H]; [by rewrite H|].
      apply bool_decide_eq_true in H. subst c. reflexivity. }
  by rewrite (collapseSpaces_fixed false).
Qed.

Lemma _sanitizeFilePath_clean filePath :
  freeOfInvalid (_sanitizeFilePath filePath) /\
  singleSpaced false (_sanitizeFilePath filePath) = true.
Proof.
  rewrite _sanitizeFilePath_unfold. cbv zeta.
  destruct (240 <? length (cleaned filePath))%nat.
  - split.
    + apply (Q_truncated freeOfInvalid).
      * constructor.
      * intros a b c. apply Forall_infix.
      * intros a b c [-> | ->] Ha Hb; apply Forall_app; split; try done;
          by constructor.
      * apply freeOfInvalid_cleaned.
    + apply (Q_truncated (fun s => singleSpaced false s = true)).
      * done.
      * intros a b c H. apply singleSpaced_app in H as [_ H].
        by apply singleSpaced_app in H as [H _].
      * intros a b c [-> | ->] Ha Hb; by apply singleSpaced_glue.
      * apply singleSpaced_cleaned.
  - split; [apply freeOfInvalid_cleaned|apply singleSpaced_cleaned].
Qed.

(** X6: sanitizing is idempotent on what fits: when the sanitized path
    has at most 240 characters, sanitizing it again returns it
    unchanged. *)
Theorem _sanitizeFilePath_idempotent (filePath : jsstring) :
  (length (_sanitizeFilePath filePath) <= 240)%nat ->
  _sanitizeFilePath (_sanitizeFilePath filePath) = _sanitizeFilePath filePath.
Proof.
  intros Hfit. destruct (_sanitizeFilePath_clean filePath) as [Hfree Hss].
  set (r := _sanitizeFilePath filePath) in *.
  rewrite _sanitizeFilePath_unfold. cbv zeta.
  assert (cleaned r = r) as ->.
  { unfold cleaned. rewrite (replaceInvalid_fixed r) by done.
    by apply (collapseSpaces_fixed false). }
  destruct (Nat.ltb_spec 240 (length r)); [lia|done].
Qed.

Lemma _sanitizeFilePath_idempotent_witness :
  let filePath :=
    js "/library/Author: Name/" ++ repeat "b"%char 300 ++ js "  two?.mp3" in
  (length (_sanitizeFilePath filePath) <= 240)%nat /\
  _sanitizeFilePath (_sanitizeFilePath filePath) = _sanitizeFilePath filePath.
Proof.
  cbv zeta. split; [vm_compute; lia|].
  apply _sanitizeFilePath_idempotent. vm_compute. lia.
Defined.

End NormalFormFacts.

(** ** More on the scan of a directory *)

Module ScanFacts.
Import JS JSFacts Path FileSystem FileSystemSpec FileSystemFacts FileSystemCases.

Lemma _scanDirectoryRecursive_never_throws fs options fuel dir depth e :
  _scanDirectoryRecursive fs options fuel dir depth <> Thrown e.
Proof.
  destruct fuel as [|fuel]; cbn [_scanDirectoryRecursive];
    destruct (aborted options); try done;
    destruct (depthExceeded options depth); try done.
  destruct (readdir fs dir) as [e'|entries]; [done|]. cbn [liftResult bind].
  by destruct (scanEntries _ _ _ _ _ _ _).
Qed.

(** Without a ceiling the traversal of a link cycle goes on for ever: no
    amount of fuel is enough. *)
Lemma _scanDirectoryRecursive_link_cycle fuel depth :
  _scanDirectoryRecursive cycleFs
    (mergeOptions (defaultScanOptions noConfig) (withMaxDepth 0)) fuel (js "/loop") depth
  = OutOfFuel.
Proof.
  revert depth. induction fuel as [|fuel IH]; intros depth; [reflexivity|].
  cbn [_scanDirectoryRecursive].
  change (aborted (mergeOptions (defaultScanOptions noConfig) (withMaxDepth 0)))
    with false.
  change (depthExceeded (mergeOptions (defaultScanOptions noConfig) (withMaxDepth 0))
            depth) with false.
  cbv iota.
  change (readdir cycleFs (js "/loop"))
    with (@inr Error _ [ {| Dirent.name := js "again"; Dirent.kind := KSymbolicLink |} ]).
  cbn [liftResult bind scanEntries]. unfold scanEntry.
  change (negb _ && isHidden _) with false. cbv iota.
  cbn [Dirent.kind Dirent.name].
  change (ScanOptions.followSymlinks _) with true. cbv iota.
  unfold followLink.
  change (Path.join (js "/loop") (js "again")) with (js "/loop/again").
  change (readlink cycleFs (js "/loop/again")) with (@inr Error _ (js "/loop")).
  cbn [liftResult bind].
  change (resolve cycleFs (js "/loop") (js "/loop")) with (js "/loop").
  change (stat cycleFs (js "/loop")) with (someStats true).
  cbn [someStats liftResult bind Stats.isDirectory].
  change (ScanOptions.recursive _) with true. cbn [andb].
  by rewrite IH.
Qed.

Lemma scanDirectory_cases fs config fuel dirPath options :
  (forall e, scanDirectory fs config fuel dirPath options <> Thrown e) /\
  (forall e,
      scanDirectory fs config fuel dirPath options = Done (ErrorValue e) <->
      validateFilePath dirPath "Directory path" = Thrown e \/
      (validateFilePath dirPath "Directory path" = Done tt /\
       checkDirectory fs dirPath = Thrown e)) /\
  (forall results,
      scanDirectory fs config fuel dirPath options = Done (Files results) <->
      validateFilePath dirPath "Directory path" = Done tt /\
      checkDirectory fs dirPath = Done tt /\
      _scanDirectoryRecursive fs (mergeOptions (defaultScanOptions config) options)
        fuel dirPath 1 = Done results).
Proof.
  unfold scanDirectory, handle.
  pose proof (_scanDirectoryRecursive_never_throws fs
                (mergeOptions (defaultScanOptions config) options) fuel dirPath 1)
    as Hrec.
  destruct (validateFilePath dirPath _) as [[]|e0|]; cbn [bind tryCatch].
  - destruct (checkDirectory fs dirPath) as [[]|e1|]; cbn [bind tryCatch].
    + destruct (_scanDirectoryRecursive _ _ _ _ _) as [l|e2|]; cbn [bind tryCatch].
      * split; [done|]. split.
        -- intros e. split; [done|]. intros [?|[_ ?]]; done.
        -- intros results. split; [by intros [= ->]|]. by intros (_ & _ & [= ->]).
      * by destruct (Hrec e2).
      * split; [done|]. split.
        -- intros e. split; [done|]. intros [?|[_ ?]]; done.
        -- intros results. split; [done|]. by intros (_ & _ & ?).
    + split; [done|]. split.
      * intros e. split.
        -- intros [= ->]. by right.
        -- intros [?|[_ ?]]; by simplify_eq.
      * intros results. split; [done|]. by intros (_ & ? & _).
    + split; [done|]. split.
      * intros e. split; [done|]. intros [?|[_ ?]]; done.
      * intros results. split; [done|]. by intros (_ & ? & _).
  - split; [done|]. split.
    + intros e. split.
      * intros [= ->]. by left.
      * intros [?|[? _]]; by simplify_eq.
    + intros results. split; [done|]. by intros (? & _).
  - split; [done|]. split.
    + intros e. split; [done|]. intros [?|[? _]]; done.
    + intros results. split; [done|]. by intros (? & _).
Qed.

(** X7: the promise of [scanDirectory] never rejects.  When it settles it
    resolves: to an error value exactly when the path is refused by the
    validation or the check of the root throws, and that value is the
    error thrown there; and to a list of files exactly when both pass
    and the traversal returns, the list being the one that the traversal
    returns, so that a failure of the listing never shows.  With a
    positive depth in force the promise does settle, once the fuel of
    the model covers the depth: when the validation and the check of
    the root pass, it resolves to a list of files.  Without a ceiling
    it need not settle: for a directory that holds a link to itself,
    scanned with the depth 0, no amount of fuel is enough. *)
Theorem scanDirectory_never_rejects :
  (forall fs config fuel dirPath options,
      (forall e, scanDirectory fs config fuel dirPath options <> Thrown e) /\
      (forall e,
          scanDirectory fs config fuel dirPath options = Done (ErrorValue e) <->
          validateFilePath dirPath "Directory path" = Thrown e \/
          (validateFilePath dirPath "Directory path" = Done tt /\
           checkDirectory fs dirPath = Thrown e)) /\
      (forall results,
          scanDirectory fs config fuel dirPath options = Done (Files results) <->
          validateFilePath dirPath "Directory path" = Done tt /\
          checkDirectory fs dirPath = Done tt /\
          _scanDirectoryRecursive fs (mergeOptions (defaultScanOptions config) options)
            fuel dirPath 1 = Done results) /\
      (forall d,
          ScanOptions.maxDepth (mergeOptions (defaultScanOptions config) options)
            = Some d ->
          (0 < d)%Z -> (Z.to_nat d <= fuel)%nat ->
          validateFilePath dirPath "Directory path" = Done tt ->
          checkDirectory fs dirPath = Done tt ->
          exists results,
            scanDirectory fs config fuel dirPath options = Done (Files results))) /\
  (forall fuel,
      scanDirectory cycleFs noConfig fuel (js "/loop") (withMaxDepth 0) = OutOfFuel).
Proof.
  split.
  - intros fs config fuel dirPath options.
    destruct (scanDirectory_cases fs config fuel dirPath options)
      as (Hthrown & Herror & Hfiles).
    split; [done|]. split; [done|]. split; [done|].
    intros d Hd Hpos Hfuel Hvalid Hroot.
    destruct (_scanDirectoryRecursive_returns fs
                (mergeOptions (defaultScanOptions config) options) d fuel dirPath 1)
      as (results & Hrun); [done|done|lia|].
    exists results. by apply Hfiles.
  - intros fuel. unfold scanDirectory.
    change (validateFilePath (js "/loop") "Directory path") with (Done tt).
    cbn [bind].
    change (checkDirectory cycleFs (js "/loop")) with (Done tt).
    cbn [bind]. by rewrite _scanDirectoryRecursive_link_cycle.
Qed.

(** The scan of [deepFs 2] under the default ceiling of 5. *)
Lemma scanDirectory_never_rejects_witness :
  exists results,
    scanDirectory (deepFs 2) noConfig 5 (js "/r") noArgs = Done (Files results).
Proof.
  apply (proj2 (proj2 (proj2 (proj1 scanDirectory_never_rejects (deepFs 2) noConfig 5
                                 (js "/r") noArgs))) 5%Z);
    [reflexivity|lia|vm_compute; lia|reflexivity|reflexivity].
Defined.

Lemma getFileInfo_fields fs filePath info :
  getFileInfo fs filePath = Done info ->
  Scanner.FileEntry.path info = filePath /\
  Scanner.FileEntry.name info = basename filePath /\
  Scanner.FileEntry.directory info = dirname filePath /\
  Scanner.FileEntry.extension info = toLowerCase (extname filePath) /\
  validateFilePath filePath "File path" = Done tt /\
  exists stats, stat fs filePath = inr stats /\
                Scanner.FileEntry.size info = Stats.size stats /\
                Scanner.FileEntry.created info = Stats.birthtime stats /\
                Scanner.FileEntry.modified info = Stats.mtime stats.
Proof.
  unfold getFileInfo. destruct (validateFilePath filePath _) as [[]|e|]; [|done|done].
  cbn [bind]. destruct (stat fs filePath) as [e|stats]; [done|].
  cbn [liftResult bind]. intros [= <-]. cbn. repeat split; try done.
  by exists stats.
Qed.

(** X8: every file that [scanDirectory] returns is an audio file that
    could be examined: its extension, in lower case, is one of the
    supported ones; its name, directory and extension are the parts of
    its path, which passes the validation; and its size and times are
    those that [stat] reports for the path. *)
Theorem scanDirectory_returns_examined_audio_files
    fs config fuel dirPath options results :
  scanDirectory fs config fuel dirPath options = Done (Files results) ->
  forall f, In f results ->
    let p := Scanner.FileEntry.path f in
    In (Scanner.FileEntry.extension f) SUPPORTED_EXTENSIONS /\
    Scanner.FileEntry.name f = basename p /\
    Scanner.FileEntry.directory f = dirname p /\
    Scanner.FileEntry.extension f = toLowerCase (extname p) /\
    validateFilePath p "File path" = Done tt /\
    exists stats, stat fs p = inr stats /\
                  Scanner.FileEntry.size f = Stats.size stats /\
                  Scanner.FileEntry.created f = Stats.birthtime stats /\
                  Scanner.FileEntry.modified f = Stats.mtime stats.
Proof.
  intros Hrun f Hf. apply scanDirectory_files in Hrun.
  destruct (_scanDirectoryRecursive_sound _ _ _ _ _ _ Hrun f Hf)
    as (k & (dir & _ & entries & entry & _ & _ & Hyield) & _).
  assert (exists p, isSupportedAudioFormat p = true /\ getFileInfo fs p = Done f)
    as (p & Hsup & Hinfo).
  { destruct Hyield; eauto. }
  destruct (getFileInfo_fields _ _ _ Hinfo) as (Hp & Hn & Hd & He & Hv & Hs).
  cbv zeta. rewrite Hp. repeat split; try done.
  rewrite He. unfold isSupportedAudioFormat in Hsup.
  apply existsb_exists in Hsup as (x & Hx & Heq).
  apply streq_true in Heq. by rewrite Heq.
Qed.

Lemma scanDirectory_returns_examined_audio_files_witness :
  exists results,
    scanDirectory (deepFs 2) noConfig 5 (js "/r") noArgs = Done (Files results) /\
    forall f, In f results ->
      In (Scanner.FileEntry.extension f) SUPPORTED_EXTENSIONS /\
      Scanner.FileEntry.name f = basename (Scanner.FileEntry.path f).
Proof.
  eexists. split; [vm_compute; reflexivity|]. intros f Hf.
  destruct (scanDirectory_returns_examined_audio_files (deepFs 2) noConfig 5
              (js "/r") noArgs _ eq_refl f Hf) as (H1 & H2 & _).
  by split.
Defined.

(** X9: a scan that is not recursive stays in the root: every file it
    returns is given by an entry of the root directory itself, as a file
    there or as the target of a link there. *)
Theorem scanDirectory_not_recursive_stays_in_root
    fs config fuel dirPath options results :
  ScanOptions.recursive (mergeOptions (defaultScanOptions config) options) = false ->
  scanDirectory fs config fuel dirPath options = Done (Files results) ->
  forall f, In f results ->
    yields fs (mergeOptions (defaultScanOptions config) options) dirPath f.
Proof.
  intros Hrec Hrun f Hf. apply scanDirectory_files in Hrun.
  destruct (_scanDirectoryRecursive_sound _ _ _ _ _ _ Hrun f Hf)
    as (k & (dir & Hat & Hyield) & _).
  assert (dir = dirPath) as ->; [|done].
  clear -Hat Hrec. inversion Hat as [|k' d sub _ Hdesc]; subst; [done|].
  destruct Hdesc as (entries & entry & _ & _ & Hd).
  destruct Hd; congruence.
Qed.

Lemma scanDirectory_not_recursive_stays_in_root_witness :
  exists f,
    scanDirectory (deepFs 0) noConfig 1 (js "/r") notRecursive = Done (Files [f]) /\
    Scanner.FileEntry.path f = js "/r/x.mp3" /\
    yields (deepFs 0) (mergeOptions (defaultScanOptions noConfig) notRecursive)
      (js "/r") f.
Proof.
  eexists. split; [vm_compute; reflexivity|]. split; [reflexivity|].
  eapply (scanDirectory_not_recursive_stays_in_root (deepFs 0) noConfig 1
            (js "/r") notRecursive);
    [reflexivity|vm_compute; reflexivity|by left].
Defined.

Lemma scanEntries_throws fs options recur dir depth entries results entry e :
  In entry entries ->
  scanEntry fs options recur dir depth entry = Thrown e ->
  forall found,
    scanEntries fs options recur dir depth entries results <> Done found.
Proof.
  intros Hin Hthrow. revert results.
  induction entries as [|first rest IH]; intros results found; [done|].
  cbn [scanEntries]. destruct Hin as [->|Hin].
  - by rewrite Hthrow.
  - destruct (scanEntry fs options recur dir depth first); cbn [bind]; try done.
    by apply IH.
Qed.

(** X10: a directory gives all or nothing.  When one audio file among
    the entries of a directory cannot be examined (its path is refused
    or [stat] fails for it) the scan of that directory returns no file
    at all: the files found before it and those of the subdirectories
    are dropped with it.  Whatever the call returns is the empty list,
    and with a positive depth in force it does return, once the fuel of
    the model covers the levels that are left. *)
Theorem unexaminable_file_empties_its_directory
    fs options fuel dirPath currentDepth entries entry e :
  readdir fs dirPath = inr entries ->
  In entry entries ->
  negb (ScanOptions.includeHidden options) && isHidden entry = false ->
  Dirent.kind entry = KFile ->
  isSupportedAudioFormat (join dirPath (Dirent.name entry)) = true ->
  getFileInfo fs (join dirPath (Dirent.name entry)) = Thrown e ->
  (forall found,
      _scanDirectoryRecursive fs options fuel dirPath currentDepth = Done found ->
      found = []) /\
  (forall d,
      ScanOptions.maxDepth options = Some d -> (0 < d)%Z ->
      (d < currentDepth + Z.of_nat fuel)%Z ->
      _scanDirectoryRecursive fs options fuel dirPath currentDepth = Done []).
Proof.
  intros Hdir Hin Hlook Hkind Hsup Hinfo.
  assert (forall found,
             _scanDirectoryRecursive fs options fuel dirPath currentDepth = Done found ->
             found = []) as Hempty.
  { intros found Hrun.
    destruct fuel as [|fuel]; cbn [_scanDirectoryRecursive] in Hrun;
      destruct (aborted options); try (by simplify_eq);
      destruct (depthExceeded options currentDepth); try (by simplify_eq).
    rewrite Hdir in Hrun. cbn [liftResult bind] in Hrun.
    pose proof (scanEntries_throws fs options (_scanDirectoryRecursive fs options fuel)
                  dirPath currentDepth entries [] entry e Hin) as Hthrows.
    destruct (scanEntries _ _ _ _ _ _ _) as [l|e'|]; cbn [tryCatch] in Hrun;
      try by simplify_eq.
    exfalso. eapply Hthrows; [|done].
    unfold scanEntry. by rewrite Hlook, Hkind, Hsup, Hinfo. }
  split; [exact Hempty|].
  intros d Hd Hpos Hfuel.
  destruct (_scanDirectoryRecursive_returns fs options d fuel dirPath currentDepth
              Hd Hpos Hfuel) as (found & Hrun).
  by rewrite Hrun, (Hempty found Hrun).
Qed.

(** In [guardedFileFs] the file a.mp3 can be examined and comes first,
    b.mp3 cannot: the directory gives nothing. *)
Lemma unexaminable_file_empties_its_directory_witness :
  getFileInfo guardedFileFs (js "/lib/a.mp3") <> Thrown (SystemError "EACCES") /\
  depthExceeded (mergeOptions (defaultScanOptions noConfig) noArgs) 1 = false /\
  _scanDirectoryRecursive guardedFileFs
    (mergeOptions (defaultScanOptions noConfig) noArgs) 5 (js "/lib") 1 = Done [].
Proof.
  split; [vm_compute; discriminate|]. split; [reflexivity|].
  apply (proj2 (unexaminable_file_empties_its_directory guardedFileFs
                  (mergeOptions (defaultScanOptions noConfig) noArgs) 5 (js "/lib") 1
                  [ {| Dirent.name := js "a.mp3"; Dirent.kind := KFile |};
                    {| Dirent.name := js "b.mp3"; Dirent.kind := KFile |} ]
                  {| Dirent.name := js "b.mp3"; Dirent.kind := KFile |}
                  (SystemError "EACCES")
                  eq_refl ltac:(right; left; reflexivity) eq_refl eq_refl eq_refl eq_refl)
           5%Z eq_refl);
    lia.
Defined.

End ScanFacts.

(** ** The counters of the queue *)

Module QueueAccountsFacts.
Import Queue QueueSpec QueueFacts QueueAccounts.

Section WithConcurrency.
Variable concurrency : nat.

Lemma balanced_processNext st :
  balanced st -> balanced (processNext concurrency st).
Proof.
  intros [Hc Hf Ht]. unfold processNext.
  destruct (queue st) as [|task rest] eqn:E; [by split; rewrite ?E|].
  destruct (concurrency <=? running st); [by split; rewrite ?E|].
  split; unfold settledWith in *; cbn [queue running completed failed events
    submitted List.filter] in *; try done.
  cbn [length] in Ht. lia.
Qed.

Lemma balanced_step st l st' :
  invariant concurrency st -> balanced st -> step concurrency st l st' ->
  balanced st'.
Proof.
  intros Hinv [Hc Hf Ht] Hstep.
  assert (forall t, In t (inflight st) -> 1 <= running st) as Hbusy.
  { intros t Hin. rewrite (inv_running _ _ Hinv).
    destruct (inflight st); simpl in *; [done|lia]. }
  destruct Hstep as [st|st t Hin|st t Hin|st].
  - unfold add. apply balanced_processNext.
    split; unfold settledWith in *; cbn [queue running completed failed events
      submitted] in *; try done.
    rewrite length_app. cbn [length]. lia.
  - unfold onSuccess. apply balanced_processNext. specialize (Hbusy t Hin).
    split; unfold settledWith in *; cbn [queue running completed failed events
      submitted List.filter sameOutcome length] in *; lia.
  - unfold onError. apply balanced_processNext. specialize (Hbusy t Hin).
    split; unfold settledWith in *; cbn [queue running completed failed events
      submitted List.filter sameOutcome length] in *; lia.
  - unfold clear. cbn [snd].
    assert (forall o,
               length (List.filter
                         (fun e => match e with
                                   | Settled _ o' => sameOutcome o o'
                                   | Started _ => false
                                   end)
                         (rev (map (fun t => Settled t Cancelled) (queue st))))
               = if sameOutcome o Cancelled then length (queue st) else 0) as Hcount.
    { intros o. generalize (queue st) as q. clear. intros q.
      induction q as [|t q IH]; [by destruct (sameOutcome _ _)|].
      cbn [map rev]. rewrite List.filter_app, length_app, IH.
      cbn [List.filter]. destruct (sameOutcome o Cancelled); cbn [length]; lia. }
    split; unfold settledWith in *; cbn [queue running completed failed events
      submitted length] in *; rewrite List.filter_app, length_app, Hcount;
      simpl (sameOutcome _ Cancelled); cbv iota; lia.
Qed.

Lemma balanced_run st ls st' :
  invariant concurrency st -> balanced st -> run concurrency st ls st' ->
  balanced st'.
Proof.
  intros Hinv Hbal Hrun. induction Hrun as [|st l st' ls st'' Hstep Hrun IH]; [done|].
  apply IH; [by eapply invariant_step|by eapply balanced_step].
Qed.

(** X11: the books of the queue balance.  In every state the queue can
    reach, [completed] and [failed] count the promises fulfilled and
    rejected by their tasks, and the total that [status] reports,
    together with the tasks cancelled by [clear], is the number of
    tasks handed to [add]. *)
Theorem status_accounts_for_every_task st :
  reachable concurrency st ->
  status_completed (status st) = settledWith Fulfilled st /\
  status_failed (status st) = settledWith Rejected st /\
  (status_total (status st) + settledWith Cancelled st = submitted st)%nat.
Proof.
  intros (ls & Hrun).
  destruct (balanced_run initial ls st (invariant_initial concurrency)) as [Hc Hf Ht];
    [by split|done|].
  cbn [status status_completed status_failed status_total]. by repeat split.
Qed.
End WithConcurrency.

Lemma status_accounts_for_every_task_witness :
  status_completed (status threeAdded) = settledWith Fulfilled threeAdded /\
  status_failed (status threeAdded) = settledWith Rejected threeAdded /\
  (status_total (status threeAdded) + settledWith Cancelled threeAdded
   = submitted threeAdded)%nat.
Proof.
  apply (status_accounts_for_every_task 2 threeAdded).
  exists [Add; Add; Add]. unfold threeAdded.
  repeat (eapply run_cons; [apply step_add|]). apply run_nil.
Defined.

(** *** Settled once *)

Lemma sorted_apart (l1 l2 : list nat) i :
  StronglySorted lt (l1 ++ l2) -> In i l1 -> ~ In i l2.
Proof.
  induction l1 as [|x l1 IH]; [done|]. cbn [app]. intros Hs.
  apply StronglySorted_inv in Hs as [Hs Hx]. intros [->|Hi] Hi2.
  - rewrite Forall_forall in Hx.
    specialize (Hx i ltac:(apply list_elem_of_In, in_or_app; by right)). lia.
  - by apply (IH Hs Hi).
Qed.

Lemma sorted_NoDup (l : list nat) : StronglySorted lt l -> NoDup l.
Proof.
  induction 1 as [|x l Hs IH Hx]; [constructor|]. apply NoDup_cons. split; [|done].
  intros Hin. rewrite Forall_forall in Hx. specialize (Hx x Hin). lia.
Qed.

Lemma settled_after_started (evs : list Event) t :
  omap (fun e => match e with Settled u _ => Some (ticket u) | _ => None end)
    (Started t :: evs)
  = omap (fun e => match e with Settled u _ => Some (ticket u) | _ => None end) evs.
Proof. reflexivity. Qed.

Lemma settled_after_settled (evs : list Event) t o :
  omap (fun e => match e with Settled u _ => Some (ticket u) | _ => None end)
    (Settled t o :: evs)
  = ticket t
    :: omap (fun e => match e with Settled u _ => Some (ticket u) | _ => None end) evs.
Proof. reflexivity. Qed.

Lemma started_after_settled (evs : list Event) t o :
  rev (omap (fun e => match e with Started u => Some (ticket u) | _ => None end)
         (Settled t o :: evs))
  = rev (omap (fun e => match e with Started u => Some (ticket u) | _ => None end)
           evs).
Proof. reflexivity. Qed.

Lemma settled_by_event (evs : list Event) t o :
  In (Settled t o) evs ->
  In (ticket t)
    (omap (fun e => match e with Settled u _ => Some (ticket u) | _ => None end) evs).
Proof.
  intros Hin. apply list_elem_of_In, list_elem_of_omap. exists (Settled t o).
  split; [by apply list_elem_of_In|done].
Qed.

Section Once.
Variable concurrency : nat.

Lemma settledOnce_processNext st :
  settledOnce st -> settledOnce (processNext concurrency st).
Proof.
  intros Honce. pose proof Honce as [Hnd Hbelow Hgone Hcan Hst]. unfold processNext.
  destruct (queue st) as [|task rest] eqn:Eq; [done|].
  destruct (concurrency <=? running st); [done|].
  assert (forall i, In i (settledTickets st) -> i <> ticket task) as Hhead.
  { intros i Hi ->. destruct (Hgone _ Hi) as [Hq _]. apply Hq.
    rewrite ?Eq. by left. }
  split; unfold settledTickets, startedTickets in *;
    cbn [queue inflight submitted events] in *;
    rewrite ?settled_after_started, ?QueueFacts.startedTickets_started.
  - done.
  - done.
  - intros i Hi. destruct (Hgone i Hi) as [Hq Hf]. rewrite ?Eq in Hq.
    cbn [map In] in Hq. split; [tauto|].
    rewrite map_app, in_app_iff. cbn [map In]. specialize (Hhead i Hi).
    intros [?|[?|[]]]; [tauto|congruence].
  - intros t [Ht|Ht]; [done|]. rewrite in_app_iff. cbn [In].
    intros [Hin|[E|[]]]; [by apply (Hcan t)|].
    apply (Hhead (ticket t)); [|done]. by eapply settled_by_event.
  - intros t o [Ht|Ht] Ho; [done|]. rewrite in_app_iff. left. by eapply Hst.
Qed.

Lemma settledOnce_settle st t o completed' failed' :
  invariant concurrency st -> settledOnce st -> In t (inflight st) ->
  o <> Cancelled ->
  settledOnce
    (processNext concurrency
       {| queue := queue st; running := pred (running st);
          completed := completed'; failed := failed';
          inflight := removeTask t (inflight st);
          submitted := submitted st;
          events := Settled t o :: events st |}).
Proof.
  intros Hinv [Hnd Hbelow Hgone Hcan Hst] Hin Ho.
  pose proof (inv_fifo _ _ Hinv) as Hfifo. unfold fifo in Hfifo.
  pose proof (inv_below _ _ Hinv) as Hlow. rewrite Forall_forall in Hlow.
  pose proof (inv_inflight_started _ _ Hinv t Hin) as Hstarted.
  assert (In (ticket t) (map ticket (inflight st))) as Hrunning
    by (by apply in_map).
  apply settledOnce_processNext.
  split; unfold settledTickets, startedTickets, queuedTickets in *;
    cbn [queue inflight submitted events] in *;
    rewrite ?settled_after_settled, ?started_after_settled.
  - apply NoDup_cons. split; [|done]. intros Hs%list_elem_of_In.
    by destruct (Hgone _ Hs) as [_ ?].
  - intros i [<-|Hi]; [|by apply Hbelow].
    apply Hlow, list_elem_of_In, in_or_app. by left.
  - intros i [<-|Hi].
    + split; [by eapply sorted_apart|].
      intros Hr. apply in_map_iff in Hr as (u & Eu & Hu).
      apply QueueFacts.removeTask_In in Hu as [_ Hne]. congruence.
    + destruct (Hgone i Hi) as [Hq Hf]. split; [done|].
      intros Hr. apply Hf. apply in_map_iff in Hr as (u & Eu & Hu).
      apply QueueFacts.removeTask_In in Hu as [Hu _]. apply in_map_iff. eauto.
  - intros u [[= _ E]|Hu]; [done|]. by apply Hcan.
  - intros u o' [[= <- <-]|Hu] Ho'; [done|]. by eapply Hst.
Qed.

Lemma settledOnce_step st l st' :
  invariant concurrency st -> settledOnce st -> step concurrency st l st' ->
  settledOnce st'.
Proof.
  intros Hinv Honce Hstep.
  pose proof (inv_fifo _ _ Hinv) as Hfifo. unfold fifo in Hfifo.
  destruct Hstep as [st|st t Hin|st t Hin|st].
  - unfold add. apply settledOnce_processNext.
    destruct Honce as [Hnd Hbelow Hgone Hcan Hst].
    split; unfold settledTickets, startedTickets in *;
      cbn [queue inflight submitted events] in *; try done.
    + intros i Hi. specialize (Hbelow i Hi). lia.
    + intros i Hi. destruct (Hgone i Hi) as [Hq Hf]. split; [|done].
      rewrite map_app, in_app_iff. cbn [map In ticket].
      specialize (Hbelow i Hi). intros [?|[?|[]]]; [done|lia].
  - by apply settledOnce_settle.
  - by apply settledOnce_settle.
  - unfold clear. cbn [snd].
    destruct Honce as [Hnd Hbelow Hgone Hcan Hst].
    pose proof (inv_below _ _ Hinv) as Hlow. rewrite Forall_forall in Hlow.
    assert (forall evs : list Task,
               omap (fun e => match e with
                              | Settled u _ => Some (ticket u)
                              | _ => None
                              end)
                 (rev (map (fun t => Settled t Cancelled) evs))
               = rev (map ticket evs)) as Hsettled.
    { intros evs. induction evs as [|t evs IH]; [done|].
      cbn [map rev]. rewrite omap_app, IH. done. }
    assert (forall evs : list Task,
               omap (fun e => match e with
                              | Started u => Some (ticket u)
                              | _ => None
                              end)
                 (rev (map (fun t => Settled t Cancelled) evs)) = []) as Hstartednone.
    { intros evs. induction evs as [|t evs IH]; [done|].
      cbn [map rev]. rewrite omap_app, IH. done. }
    split; unfold settledTickets, startedTickets, queuedTickets in *;
      cbn [queue inflight submitted events] in *;
      rewrite ?omap_app, ?Hsettled, ?Hstartednone; cbn [app].
    + apply NoDup_app. split; [|split; [|done]].
      * apply NoDup_ListNoDup, List.NoDup_rev, NoDup_ListNoDup, sorted_NoDup.
        clear -Hfifo. induction (rev (omap _ (events st))) as [|x l IH]; [done|].
        apply IH. cbn [app] in Hfifo. by apply StronglySorted_inv in Hfifo as [? _].
      * intros i Hi Hs. apply list_elem_of_In, in_rev in Hi.
        apply list_elem_of_In in Hs. by destruct (Hgone i Hs) as [? _].
    + intros i Hi. apply in_app_or in Hi as [Hi|Hi]; [|by apply Hbelow].
      apply in_rev in Hi. apply Hlow, list_elem_of_In, in_or_app. by right.
    + intros i Hi. split; [by intros []|]. apply in_app_or in Hi as [Hi|Hi].
      * apply in_rev in Hi. intros Hf.
        apply in_map_iff in Hf as (u & <- & Hu).
        apply (inv_inflight_started _ _ Hinv) in Hu.
        by eapply sorted_apart.
      * by destruct (Hgone i Hi) as [_ ?].
    + intros t Ht. apply in_app_or in Ht as [Ht|Ht]; [|by apply Hcan].
      apply in_rev, in_map_iff in Ht as (u & [= ->] & Hu).
      intros Hs. eapply sorted_apart; [exact Hfifo|exact Hs|]. by apply in_map.
    + intros t o Ht Ho. apply in_app_or in Ht as [Ht|Ht]; [|by eapply Hst].
      apply in_rev, in_map_iff in Ht as (u & [= _ <-] & _). done.
Qed.

(** X12: every promise of the queue is settled at most once.  In every
    state the queue can reach, no task has been settled twice; a settled
    task is neither waiting nor running; a task that [clear] has
    cancelled was never started; and a task that completed or failed
    had been started. *)
Theorem every_task_settles_at_most_once st :
  reachable concurrency st -> settledOnce st.
Proof.
  intros (ls & Hrun).
  assert (forall s0, invariant concurrency s0 -> settledOnce s0 ->
                     run concurrency s0 ls st -> settledOnce st) as Hgen.
  { clear Hrun. induction ls as [|l ls IH]; intros s0 Hinv Honce Hrun.
    - by inversion Hrun; subst.
    - inversion Hrun as [|s1 l' s2 ls' s3 Hstep Hrest]; subst.
      apply (IH s2); [by eapply QueueFacts.invariant_step
                     |by eapply settledOnce_step|done]. }
  apply (Hgen initial); [apply QueueFacts.invariant_initial| |done].
  split; cbn; try done; constructor.
Qed.
End Once.

(** All three ways of settling occur in [threeSettled]. *)
Lemma every_task_settles_at_most_once_witness :
  events threeSettled
  = [ Settled {| ticket := 1 |} Rejected; Settled {| ticket := 2 |} Cancelled;
      Started {| ticket := 1 |}; Settled {| ticket := 0 |} Fulfilled;
      Started {| ticket := 0 |} ] /\
  settledOnce threeSettled.
Proof.
  split; [reflexivity|].
  apply (every_task_settles_at_most_once 1 threeSettled).
  exists [Add; Add; Add; Succeed {| ticket := 0 |}; Clear; Fail {| ticket := 1 |}].
  unfold threeSettled.
  do 3 (eapply run_cons; [apply step_add|]).
  eapply run_cons; [apply step_succeed; by left|].
  eapply run_cons; [apply step_clear|].
  eapply run_cons; [apply step_fail; by left|].
  apply run_nil.
Defined.

End QueueAccountsFacts.

(** ** Retrying *)

Module RetryFacts.
Import Retry.
Local Open Scope Z_scope.

Section Retry.
Context {A E : Type}.
Variable fn : Z -> E + A.
Variable random : Z -> Q.
Variable options : Options E.

(** The loop settles once the fuel covers the attempts that are left;
    it waits once for every attempt it goes on to. *)
Lemma retryLoop_settles fuel attempt lastError waited :
  maxRetriesOf options + 1 - attempt <= Z.of_nat fuel ->
  exists t, retryLoop fn random options fuel attempt lastError waited = Some t /\
            exists more,
              slept t = waited ++ more /\
              Z.of_nat (length more) <= Z.max 0 (maxRetriesOf options - attempt).
Proof.
  revert attempt lastError waited.
  induction fuel as [|fuel IH]; intros attempt lastError waited Hfuel;
    cbn [retryLoop].
  - destruct (Z.ltb_spec attempt (maxRetriesOf options + 1)); [lia|].
    eexists. split; [done|]. exists []. cbn. rewrite app_nil_r. split; [done|lia].
  - destruct (Z.ltb_spec attempt (maxRetriesOf options + 1)).
    2:{ eexists. split; [done|]. exists []. cbn. rewrite app_nil_r.
        split; [done|lia]. }
    destruct (fn attempt) as [error|a].
    2:{ eexists. split; [done|]. exists []. cbn. rewrite app_nil_r.
        split; [done|lia]. }
    cbv zeta.
    destruct (Z.ltb_spec (maxRetriesOf options) (attempt + 1)); cbn [orb].
    { eexists. split; [done|]. exists []. cbn. rewrite app_nil_r.
      split; [done|lia]. }
    destruct (negb (shouldRetryOf options error)).
    { eexists. split; [done|]. exists []. cbn. rewrite app_nil_r.
      split; [done|lia]. }
    destruct (IH (attempt + 1) (Some error)
                (waited ++ [delayMs random options (attempt + 1)]))
      as (t & Ht & more & Hmore & Hlen); [lia|].
    exists t. split; [done|].
    exists (delayMs random options (attempt + 1) :: more).
    split; [by rewrite Hmore, <- app_assoc|]. cbn [length]. lia.
Qed.

(** X13: [retry] always settles, and it waits at most [maxRetries]
    times: so [fn] is called at most [maxRetries + 1] times. *)
Theorem retry_settles_within_maxRetries :
  exists t, retry fn random options = Some t /\
            Z.of_nat (length (slept t)) <= Z.max 0 (maxRetriesOf options).
Proof.
  unfold retry.
  destruct (retryLoop_settles (Z.to_nat (maxRetriesOf options + 1)) 0 None [])
    as (t & Ht & more & Hmore & Hlen); [lia|].
  exists t. split; [done|]. rewrite Hmore. cbn [app]. lia.
Qed.

(** The delays of the attempts [attempt + 1], ..., [attempt + k]. *)
Lemma retryLoop_failures k fuel attempt lastError waited :
  (forall j, (j < k)%nat ->
             exists e, fn (attempt + Z.of_nat j) = inl e
                       /\ shouldRetryOf options e = true) ->
  attempt + Z.of_nat k <= maxRetriesOf options ->
  exists lastError',
    retryLoop fn random options (k + fuel) attempt lastError waited
    = retryLoop fn random options fuel (attempt + Z.of_nat k) lastError'
        (waited ++ map (fun i => delayMs random options (attempt + Z.of_nat i))
                       (seq 1 k)).
Proof.
  revert attempt lastError waited.
  induction k as [|k IH]; intros attempt lastError waited Hfail Hmax.
  - exists lastError. cbn [plus seq map]. by rewrite Z.add_0_r, app_nil_r.
  - destruct (Hfail 0%nat ltac:(lia)) as (e & He & Hre).
    rewrite Z.add_0_r in He. cbn [plus retryLoop].
    destruct (Z.ltb_spec attempt (maxRetriesOf options + 1)); [|lia].
    rewrite He. cbv zeta.
    destruct (Z.ltb_spec (maxRetriesOf options) (attempt + 1)); [lia|].
    rewrite Hre. cbn [negb orb].
    destruct (IH (attempt + 1) (Some e)
                (waited ++ [delayMs random options (attempt + 1)]))
      as (last' & ->).
    + intros j Hj. destruct (Hfail (S j) ltac:(lia)) as (e' & He' & Hre').
      exists e'. split; [|done]. rewrite <- He'. f_equal. lia.
    + lia.
    + exists last'. f_equal; [lia|]. rewrite <- app_assoc. f_equal.
      cbn [seq map app]. f_equal. rewrite <- (seq_shift k 1), map_map.
      apply map_ext. intros i. f_equal. lia.
Qed.

(** X14: [retry] returns the first success.  When the calls number
    0, ..., k - 1 reject with errors that may be retried, call number
    [k] resolves and [k] is at most [maxRetries], the promise resolves
    with the value of call [k], after the delays of the attempts
    1, ..., k and no other. *)
Theorem retry_returns_first_success (k : nat) (a : A) :
  Z.of_nat k <= maxRetriesOf options ->
  (forall j, (j < k)%nat ->
             exists e, fn (Z.of_nat j) = inl e /\ shouldRetryOf options e = true) ->
  fn (Z.of_nat k) = inr a ->
  retry fn random options
  = Some {| outcome := Returned a;
            slept := map (fun i => delayMs random options (Z.of_nat i)) (seq 1 k) |}.
Proof.
  intros Hk Hfail Hok. unfold retry.
  replace (Z.to_nat (maxRetriesOf options + 1))
    with (k + S (Z.to_nat (maxRetriesOf options) - k))%nat by lia.
  destruct (retryLoop_failures k (S (Z.to_nat (maxRetriesOf options) - k)) 0 None [])
    as (last' & ->); [done|lia|].
  rewrite Z.add_0_l. cbn [retryLoop app].
  rewrite (map_ext (fun i => delayMs random options (0 + Z.of_nat i))
             (fun i => delayMs random options (Z.of_nat i)))
    by (intros i; by rewrite Z.add_0_l).
  destruct (Z.ltb_spec (Z.of_nat k) (maxRetriesOf options + 1)); [|lia].
  by rewrite Hok.
Qed.

(** X15: [retry] gives up with the last error.  When the calls number
    0, ..., k - 1 reject with errors that may be retried and call number
    [k] rejects with an error that may not, or [k] is [maxRetries], the
    promise rejects with the error of call [k]; nothing is waited for
    after that call. *)
Theorem retry_throws_last_error (k : nat) (error : E) :
  Z.of_nat k <= maxRetriesOf options ->
  (forall j, (j < k)%nat ->
             exists e, fn (Z.of_nat j) = inl e /\ shouldRetryOf options e = true) ->
  fn (Z.of_nat k) = inl error ->
  Z.of_nat k = maxRetriesOf options \/ shouldRetryOf options error = false ->
  retry fn random options
  = Some {| outcome := Threw (Some error);
            slept := map (fun i => delayMs random options (Z.of_nat i)) (seq 1 k) |}.
Proof.
  intros Hk Hfail Herr Hstop. unfold retry.
  replace (Z.to_nat (maxRetriesOf options + 1))
    with (k + S (Z.to_nat (maxRetriesOf options) - k))%nat by lia.
  destruct (retryLoop_failures k (S (Z.to_nat (maxRetriesOf options) - k)) 0 None [])
    as (last' & ->); [done|lia|].
  rewrite Z.add_0_l. cbn [retryLoop app].
  rewrite (map_ext (fun i => delayMs random options (0 + Z.of_nat i))
             (fun i => delayMs random options (Z.of_nat i)))
    by (intros i; by rewrite Z.add_0_l).
  destruct (Z.ltb_spec (Z.of_nat k) (maxRetriesOf options + 1)); [|lia].
  rewrite Herr. cbv zeta.
  destruct Hstop as [Hlast|Hno].
  - destruct (Z.ltb_spec (maxRetriesOf options) (Z.of_nat k + 1)); [done|lia].
  - rewrite Hno. cbn [negb]. by rewrite orb_true_r.
Qed.

(** X16: the delay after a failed attempt is the capped exponential
    backoff plus a jitter of less than 100 milliseconds: for the attempt
    number [attempt], with a random draw in [0, 1), it lies from
    min (initialDelay * 2 ^ (attempt - 1)) maxDelay up to, but not
    including, 100 more; so it is below [maxDelay + 100]. *)
Theorem delayMs_bounds (attempt : Z) :
  (0 <= random attempt < 1)%Q ->
  backoffDelay options attempt <= delayMs random options attempt
    < backoffDelay options attempt + 100 /\
  delayMs random options attempt < maxDelayOf options + 100.
Proof.
  intros [H0 H1]. unfold delayMs.
  set (b := backoffDelay options attempt).
  assert (b <= maxDelayOf options) as Hcap by (subst b; unfold backoffDelay; lia).
  assert (b <= Qfloor (inject_Z b + random attempt * 100) < b + 100) as Hb; [|lia].
  split.
  - rewrite <- (Qfloor_Z b) at 1. apply Qfloor_resp_le.
    rewrite <- (Qplus_0_r (inject_Z b)) at 1. apply Qplus_le_r.
    apply Qmult_le_0_compat; [done|]. done.
  - rewrite Zlt_Qlt. eapply Qle_lt_trans; [apply Qfloor_le|].
    rewrite inject_Z_plus. apply Qplus_lt_r.
    change (inject_Z 100) with (1 * 100)%Q.
    by apply Qmult_lt_compat_r.
Qed.

End Retry.

Lemma retry_returns_first_success_witness :
  retry thirdTimeLucky (fun _ => 1 # 2) noOptions
  = Some {| outcome := Returned 2; slept := [1050; 2050] |}.
Proof.
  apply (retry_returns_first_success thirdTimeLucky (fun _ => 1 # 2) noOptions
           2 2); [vm_compute; discriminate| |reflexivity].
  intros j Hj. exists "busy"%string.
  destruct j as [|[|j]]; [by split|by split|lia].
Defined.

Lemma retry_throws_last_error_witness :
  retry thirdTimeLucky (fun _ => 1 # 2) oneRetry
  = Some {| outcome := Threw (Some "busy"%string); slept := [1050] |}.
Proof.
  apply (retry_throws_last_error thirdTimeLucky (fun _ => 1 # 2) oneRetry 1
           "busy"%string);
    [vm_compute; discriminate| |reflexivity|by left].
  intros j Hj. exists "busy"%string.
  destruct j as [|j]; [by split|lia].
Defined.

Lemma delayMs_bounds_witness :
  1000 <= @delayMs string (fun _ => 1 # 2) noOptions 1 < 1100 /\
  @delayMs string (fun _ => 1 # 2) noOptions 1 < 10100.
Proof.
  apply (@delayMs_bounds string (fun _ => 1 # 2) noOptions 1). by split.
Defined.

End RetryFacts.

(** ** EventDispatcher *)

Module EventsFacts.
Import JS Events.

Section Dispatcher.
Context {Data : Type}.
Implicit Types (st : State Data) (h : Entry Data) (l : list (Entry Data)).

Lemma NoDup_ids_filter (P : Entry Data -> Prop) `{forall h, Decision (P h)} l :
  NoDup (map subscriptionId l) -> NoDup (map subscriptionId (filter P l)).
Proof.
  induction l as [|h l IH]; [done|]. cbn [map]. intros Hnd.
  apply NoDup_cons in Hnd as [Hh Hnd].
  destruct (decide (P h)).
  - rewrite filter_cons_True by done. cbn [map]. apply NoDup_cons.
    split; [|by apply IH]. intros Hin. apply Hh.
    apply list_elem_of_fmap in Hin as (h' & E & Hin).
    apply list_elem_of_filter in Hin as [_ Hin].
    apply list_elem_of_fmap. eauto.
  - rewrite filter_cons_False by done. by apply IH.
Qed.

Lemma filter_keeps_all (P : Entry Data -> Prop) `{forall h, Decision (P h)} l :
  (forall h, h ∈ l -> P h) -> filter P l = l.
Proof.
  induction l as [|h l IH]; intros Hall; [done|].
  rewrite filter_cons_True by (apply Hall; left).
  f_equal. apply IH. intros h' Hh'. apply Hall. by right.
Qed.

Lemma findIndex_Some id l index :
  findIndex id l = Some index ->
  NoDup (map subscriptionId l) ->
  delete index l = filter (fun h => subscriptionId h <> id) l.
Proof.
  revert index. induction l as [|h l IH]; intros index Hfind Hnd; [done|].
  cbn [findIndex] in Hfind. cbn [map] in Hnd.
  apply NoDup_cons in Hnd as [Hh Hnd].
  destruct (Nat.eqb_spec (subscriptionId h) id) as [E|Hne].
  - injection Hfind as <-. change (delete 0%nat (h :: l)) with l.
    rewrite filter_cons_False by (intros Hn; by apply Hn).
    symmetry. apply filter_keeps_all. intros h' Hh' E'. apply Hh. rewrite E, <- E'.
    apply list_elem_of_fmap. eauto.
  - destruct (findIndex id l) as [i|] eqn:Ei; [|done]. injection Hfind as <-.
    change (delete (S i) (h :: l)) with (h :: delete i l).
    rewrite filter_cons_True by done. f_equal. by apply IH.
Qed.

Lemma findIndex_finds id l h :
  h ∈ l -> subscriptionId h = id -> exists index, findIndex id l = Some index.
Proof.
  intros Hin E. induction l as [|h' l IH]; [by apply elem_of_nil in Hin|].
  cbn [findIndex]. destruct (Nat.eqb_spec (subscriptionId h') id); [by eexists|].
  apply elem_of_cons in Hin as [->|Hin]; [done|].
  destruct (IH Hin) as [i ->]. by eexists.
Qed.

Lemma subscribersOf_Some st eventName h :
  h ∈ subscribersOf eventName st ->
  handlers st !! eventName = Some (subscribersOf eventName st).
Proof.
  unfold subscribersOf. destruct (handlers st !! eventName); [done|].
  intros H. by apply elem_of_nil in H.
Qed.

(** An id names an entry of one event only. *)
Lemma consistent_one_event st id eventName other h :
  consistent st -> subscriptions st !! id = Some eventName ->
  h ∈ subscribersOf other st -> subscriptionId h = id -> other = eventName.
Proof.
  intros Hc Hs Hh E.
  assert (subscriptions st !! id = Some other) as Ho
    by (apply (con_subscriptions st Hc); eauto).
  congruence.
Qed.

(** What [unsubscribe] does to a consistent state. *)
Lemma unsubscribe_spec st id :
  consistent st ->
  fst (unsubscribe id st) = bool_decide (is_Some (subscriptions st !! id)) /\
  (forall eventName,
      subscribersOf eventName (snd (unsubscribe id st))
      = filter (fun h => subscriptionId h <> id) (subscribersOf eventName st)) /\
  subscriptions (snd (unsubscribe id st)) = delete id (subscriptions st) /\
  lastEvents (snd (unsubscribe id st)) = lastEvents st /\
  subscriptionCounter (snd (unsubscribe id st)) = subscriptionCounter st /\
  delivered (snd (unsubscribe id st)) = delivered st /\
  (forall eventName, handlers (snd (unsubscribe id st)) !! eventName <> Some []).
Proof.
  intros Hc. unfold unsubscribe.
  destruct (subscriptions st !! id) as [eventName|] eqn:Es.
  - destruct (proj1 (con_subscriptions st Hc id eventName) Es) as (h & Hh & Hid).
    rewrite (subscribersOf_Some _ _ _ Hh).
    destruct (findIndex_finds id _ h Hh Hid) as [index Hfind]. rewrite Hfind.
    pose proof (findIndex_Some id _ index Hfind (con_nodup st Hc eventName)) as Hdel.
    cbn [fst snd subscriptions lastEvents subscriptionCounter delivered handlers].
    split; [by rewrite bool_decide_eq_true_2|].
    split; [|split; [done|split; [done|split; [done|split; [done|]]]]].
    + intros other. unfold subscribersOf at 1. cbn [handlers]. rewrite Hdel.
      destruct (decide (other = eventName)) as [->|Hne].
      * destruct (Nat.eqb_spec (length (filter (fun h0 => subscriptionId h0 <> id)
                                          (subscribersOf eventName st))) 0) as [E0|E0].
        -- rewrite lookup_delete_eq. cbn. symmetry. by apply length_zero_iff_nil.
        -- by rewrite lookup_insert_eq.
      * assert (handlers st !! other = Some (subscribersOf other st)
                \/ handlers st !! other = None) as Hother.
        { unfold subscribersOf. destruct (handlers st !! other); eauto. }
        assert (filter (fun h0 => subscriptionId h0 <> id) (subscribersOf other st)
                = subscribersOf other st) as ->.
        { apply filter_keeps_all. intros h' Hh' E'. apply Hne.
          by eapply consistent_one_event. }
        destruct (length _ =? 0)%nat.
        -- by rewrite lookup_delete_ne.
        -- by rewrite lookup_insert_ne.
    + intros other. rewrite Hdel.
      destruct (Nat.eqb_spec (length (filter (fun h0 => subscriptionId h0 <> id)
                                        (subscribersOf eventName st))) 0) as [E0|E0].
      * destruct (decide (other = eventName)) as [->|Hne].
        -- by rewrite lookup_delete_eq.
        -- rewrite lookup_delete_ne by done. apply (con_nonempty st Hc).
      * destruct (decide (other = eventName)) as [->|Hne].
        -- rewrite lookup_insert_eq. intros [= E]. by rewrite E in E0.
        -- rewrite lookup_insert_ne by done. apply (con_nonempty st Hc).
  - cbn [fst snd]. split; [by rewrite bool_decide_eq_false_2 by (by intros [? ?])|].
    split; [|split; [by rewrite delete_id|split; [done|split; [done|split; [done|]]]]].
    + intros eventName. symmetry. apply filter_keeps_all. intros h Hh E.
      assert (subscriptions st !! id = Some eventName) as Hs
        by (apply (con_subscriptions st Hc); eauto).
      congruence.
    + apply (con_nonempty st Hc).
Qed.

Lemma consistent_same st st' :
  handlers st' = handlers st -> subscriptions st' = subscriptions st ->
  subscriptionCounter st' = subscriptionCounter st ->
  consistent st -> consistent st'.
Proof.
  intros Hh Hs Hn [H1 H2 H3 H4].
  split; unfold subscribersOf in *; rewrite ?Hh, ?Hs, ?Hn; done.
Qed.

Lemma consistent_unsubscribe st id :
  consistent st -> consistent (snd (unsubscribe id st)).
Proof.
  intros Hc.
  destruct (unsubscribe_spec st id Hc) as (_ & Hsub & Hmap & _ & Hn & _ & Hne).
  split.
  - done.
  - intros id' eventName. rewrite Hmap, Hsub, lookup_delete_Some.
    rewrite (con_subscriptions st Hc). split.
    + intros (Hid & h & Hh & E). exists h. split; [|done].
      apply list_elem_of_filter. split; [congruence|done].
    + intros (h & Hh & E). apply list_elem_of_filter in Hh as [Hid Hh].
      split; [congruence|]. eauto.
  - intros eventName. rewrite Hsub. apply NoDup_ids_filter, (con_nodup st Hc).
  - intros id' eventName. rewrite Hmap, Hn, lookup_delete_Some.
    intros [_ H]. by eapply (con_counter st Hc).
Qed.

(** Every id in use is at most the counter, so the next id is new. *)
Lemma consistent_fresh st eventName h :
  consistent st -> h ∈ subscribersOf eventName st ->
  (subscriptionId h <= subscriptionCounter st)%nat.
Proof.
  intros Hc Hh. eapply (con_counter st Hc), (con_subscriptions st Hc). eauto.
Qed.

Lemma subscribe_spec st eventName handler0 once0 immediate id timer st' :
  subscribe eventName handler0 once0 immediate st = inr (id, timer, st') ->
  exists name,
    eventName = Some name /\ trim name <> [] /\
    id = S (subscriptionCounter st) /\
    handlers st'
    = <[name := subscribersOf name st
                ++ [{| handler := handler0; once := once0; subscriptionId := id |}]]>
        (handlers st) /\
    subscriptions st' = <[id := name]> (subscriptions st) /\
    subscriptionCounter st' = id /\
    lastEvents st' = lastEvents st /\ delivered st' = delivered st.
Proof.
  unfold subscribe, validateNotEmpty. destruct eventName as [name|]; [|done].
  destruct (trim name) eqn:Et; [done|]. intros [= <- _ <-].
  exists name. rewrite Et. by repeat split.
Qed.

Lemma consistent_subscribe st eventName handler0 once0 immediate id timer st' :
  consistent st ->
  subscribe eventName handler0 once0 immediate st = inr (id, timer, st') ->
  consistent st'.
Proof.
  intros Hc Hsub.
  destruct (subscribe_spec _ _ _ _ _ _ _ _ Hsub)
    as (name & _ & _ & Hid & Hh & Hs & Hn & _ & _).
  assert (forall other,
             subscribersOf other st'
             = if decide (other = name)
               then subscribersOf name st
                    ++ [{| handler := handler0; once := once0; subscriptionId := id |}]
               else subscribersOf other st) as Hof.
  { intros other. unfold subscribersOf at 1. rewrite Hh.
    destruct (decide (other = name)) as [->|Hne].
    - by rewrite lookup_insert_eq.
    - by rewrite lookup_insert_ne. }
  split.
  - intros other. rewrite Hh. destruct (decide (other = name)) as [->|Hne].
    + rewrite lookup_insert_eq. intros [= E]. by destruct (subscribersOf name st).
    + rewrite lookup_insert_ne by done. apply (con_nonempty st Hc).
  - intros id' other. rewrite Hs, Hof. destruct (decide (id' = id)) as [->|Hne].
    + rewrite lookup_insert_eq. split.
      * intros [= <-]. rewrite decide_True by done.
        exists {| handler := handler0; once := once0; subscriptionId := id |}.
        split; [|done]. apply elem_of_app. right. apply list_elem_of_singleton. done.
      * intros (h & Hh' & E). f_equal.
        destruct (decide (other = name)) as [->|Hno]; [done|].
        pose proof (consistent_fresh st other h Hc Hh'). lia.
    + rewrite lookup_insert_ne by done. rewrite (con_subscriptions st Hc).
      destruct (decide (other = name)) as [->|Hno]; [|done].
      split; intros (h & Hh' & E); exists h; (split; [|done]).
      * apply elem_of_app. by left.
      * apply elem_of_app in Hh' as [Hh'|Hh']; [done|].
        apply list_elem_of_singleton in Hh'. subst h. cbn in E. congruence.
  - intros other. rewrite Hof. destruct (decide (other = name)) as [->|Hno];
      [|apply (con_nodup st Hc)].
    rewrite map_app. cbn [map]. apply NoDup_app. split; [apply (con_nodup st Hc)|].
    split; [|apply NoDup_singleton].
    intros x Hx Hx'. apply list_elem_of_singleton in Hx'. subst x.
    apply list_elem_of_fmap in Hx as (h & E & Hh').
    pose proof (consistent_fresh st name h Hc Hh').
    cbn [subscriptionId] in E. lia.
  - intros id' other. rewrite Hs, Hn. destruct (decide (id' = id)) as [->|Hne].
    + done.
    + rewrite lookup_insert_ne by done. intros H.
      pose proof (con_counter st Hc _ _ H). lia.
Qed.

(** Unsubscribing the ids [ids] one after the other. *)
Lemma unsubscribe_all_spec ids st :
  consistent st ->
  let st' := fold_left (fun st id => snd (unsubscribe id st)) ids st in
  consistent st' /\
  (forall eventName,
      subscribersOf eventName st'
      = filter (fun h => subscriptionId h ∉ ids) (subscribersOf eventName st)) /\
  lastEvents st' = lastEvents st /\
  subscriptionCounter st' = subscriptionCounter st /\
  delivered st' = delivered st.
Proof.
  revert st. induction ids as [|id ids IH]; intros st Hc; cbn [fold_left].
  - split; [done|]. split; [|done]. intros eventName. symmetry.
    apply filter_keeps_all. intros h _. apply not_elem_of_nil.
  - destruct (unsubscribe_spec st id Hc) as (_ & Hsub & _ & Hl & Hn & Hd & _).
    destruct (IH _ (consistent_unsubscribe st id Hc)) as (Hc' & Hsub' & Hl' & Hn' & Hd').
    split; [done|]. split; [|split; [congruence|split; congruence]].
    intros eventName. rewrite Hsub', Hsub, list_filter_filter.
    apply list_filter_iff. intros h. rewrite not_elem_of_cons. tauto.
Qed.

Lemma filter_agree (P Q : Entry Data -> Prop)
    `{forall h, Decision (P h)} `{forall h, Decision (Q h)} l :
  (forall h, h ∈ l -> P h <-> Q h) -> filter P l = filter Q l.
Proof.
  induction l as [|h l IH]; intros Hpq; [done|].
  rewrite !filter_cons.
  rewrite IH by (intros h' Hh'; apply Hpq; by right).
  destruct (decide (P h)) as [Hp|Hp], (decide (Q h)) as [Hq|Hq]; try done;
    exfalso; apply (Hpq h ltac:(left)) in Hp || apply (Hpq h ltac:(left)) in Hq;
    done.
Qed.

Lemma same_id_same_entry l h h' :
  NoDup (map subscriptionId l) -> h ∈ l -> h' ∈ l ->
  subscriptionId h = subscriptionId h' -> h = h'.
Proof.
  intros Hnd Hh Hh' E.
  eapply (ScannerFacts.NoDup_map_inj_on subscriptionId l); try done;
    by apply list_elem_of_In.
Qed.

(** What [emit] does to a consistent state. *)
Lemma emit_spec st eventName data handlerCount st' :
  consistent st ->
  emit (Some eventName) data st = inr (handlerCount, st') ->
  handlerCount = subscriberCount eventName st /\
  consistent st' /\
  (forall other,
      subscribersOf other st'
      = if decide (other = eventName)
        then filter (fun h => handler h data && once h = false)
               (subscribersOf eventName st)
        else subscribersOf other st) /\
  lastEvents st' = <[eventName := data]> (lastEvents st) /\
  subscriptionCounter st' = subscriptionCounter st /\
  delivered st' = rev (calls data (subscribersOf eventName st)) ++ delivered st.
Proof.
  intros Hc. unfold emit, validateNotEmpty, subscriberCount.
  destruct (trim eventName) as [|c0 r0]; [done|]. cbn [handlers lastEvents].
  destruct (handlers st !! eventName) as [l|] eqn:El.
  - intros [= <- <-].
    assert (subscribersOf eventName st = l) as Hl
      by (unfold subscribersOf; by rewrite El).
    match goal with
    | |- context [fold_left _ _ ?s] => set (st0 := s)
    end.
    assert (consistent st0) as Hc0 by (by apply (consistent_same st)).
    destruct (unsubscribe_all_spec (toRemove data l) st0 Hc0)
      as (Hc' & Hsub & Hl' & Hn' & Hd').
    split; [done|]. split; [done|].
    split; [|split; [done|split; [done|by rewrite Hd', Hl]]].
    intros other. rewrite Hsub.
    change (subscribersOf other st0) with (subscribersOf other st).
    destruct (decide (other = eventName)) as [->|Hne].
    + rewrite Hl. apply filter_agree. intros h Hh. split.
      * intros Hout. destruct (handler h data && once h) eqn:E; [|done].
        exfalso. apply Hout. apply list_elem_of_omap. exists h. by rewrite E.
      * intros E Hin. apply list_elem_of_omap in Hin as (h' & Hh' & E').
        destruct (handler h' data && once h') eqn:E''; [|done].
        injection E' as E'.
        assert (h' = h) as ->; [|congruence].
        eapply same_id_same_entry; try done.
        rewrite <- Hl. apply (con_nodup st Hc).
    + apply filter_keeps_all. intros h Hh Hin.
      apply list_elem_of_omap in Hin as (h' & Hh' & E').
      destruct (handler h' data && once h'); [|done]. injection E' as E'.
      apply Hne. eapply (consistent_one_event st (subscriptionId h)); try done.
      apply (con_subscriptions st Hc). exists h'. by rewrite Hl.
  - intros [= <- <-].
    split; [done|]. split; [by apply (consistent_same st)|].
    split; [|split; [done|split; [done|]]].
    + intros other. unfold subscribersOf. cbn [handlers].
      destruct (decide (other = eventName)) as [->|Hne]; [|done].
      by rewrite El.
    + unfold subscribersOf. by rewrite El.
Qed.

Lemma clearEvent_subscriptions l (subs : gmap nat jsstring) id :
  fold_left (fun subs h => delete (subscriptionId h) subs) l subs !! id
  = if decide (id ∈ map subscriptionId l) then None else subs !! id.
Proof.
  revert subs. induction l as [|h l IH]; intros subs; cbn [fold_left map].
  - by rewrite decide_False by apply not_elem_of_nil.
  - rewrite IH. destruct (decide (id ∈ map subscriptionId l)) as [Hin|Hout].
    + by rewrite decide_True by (by right).
    + destruct (decide (id = subscriptionId h)) as [->|Hne].
      * rewrite decide_True by left. by rewrite lookup_delete_eq.
      * rewrite decide_False by (rewrite not_elem_of_cons; tauto).
        by rewrite lookup_delete_ne.
Qed.

Lemma consistent_clearEvent st eventName :
  consistent st -> consistent (snd (clearEvent eventName st)).
Proof.
  intros Hc. unfold clearEvent.
  destruct (handlers st !! eventName) as [l|] eqn:El; [|done]. cbn [snd].
  assert (subscribersOf eventName st = l) as Hl
    by (unfold subscribersOf; by rewrite El).
  split; cbn [handlers subscriptions subscriptionCounter].
  - intros other. destruct (decide (other = eventName)) as [->|Hne].
    + by rewrite lookup_delete_eq.
    + rewrite lookup_delete_ne by done. apply (con_nonempty st Hc).
  - intros id other. rewrite clearEvent_subscriptions.
    unfold subscribersOf. cbn [handlers].
    destruct (decide (other = eventName)) as [->|Hne].
    + rewrite lookup_delete_eq. cbn [default]. split.
      * destruct (decide (id ∈ map subscriptionId l)) as [Hin|Hout]; [done|].
        intros Hs. apply (con_subscriptions st Hc) in Hs as (h & Hh & E).
        exfalso. apply Hout. rewrite <- Hl, <- E. apply list_elem_of_fmap. eauto.
      * intros (h & Hh & _). by apply elem_of_nil in Hh.
    + rewrite lookup_delete_ne by done.
      fold (subscribersOf other st). rewrite <- (con_subscriptions st Hc).
      destruct (decide (id ∈ map subscriptionId l)) as [Hin|Hout]; [|done].
      split; [done|]. intros Hs. exfalso.
      apply list_elem_of_fmap in Hin as (h & E & Hh). rewrite <- Hl in Hh.
      apply Hne. symmetry. by eapply consistent_one_event.
  - intros other. unfold subscribersOf. cbn [handlers].
    destruct (decide (other = eventName)) as [->|Hne].
    + rewrite lookup_delete_eq. constructor.
    + rewrite lookup_delete_ne by done. apply (con_nodup st Hc).
  - intros id other. rewrite clearEvent_subscriptions.
    destruct (decide _); [done|]. apply (con_counter st Hc).
Qed.

Lemma consistent_cleared (st : State Data) :
  handlers st = ∅ -> subscriptions st = ∅ -> consistent st.
Proof.
  intros Hh Hs. split; unfold subscribersOf; rewrite ?Hh, ?Hs.
  - intros eventName. by rewrite lookup_empty.
  - intros id eventName. rewrite !lookup_empty. split; [done|].
    intros (h & Hin & _). by apply elem_of_nil in Hin.
  - intros eventName. rewrite lookup_empty. constructor.
  - intros id eventName. by rewrite lookup_empty.
Qed.

Lemma consistent_after c st : consistent st -> consistent (after c st).
Proof.
  intros Hc. destruct c as [name h o i|id|name data|name| | |t]; cbn [after].
  - destruct (subscribe name h o i st) as [e|[[id timer] st']] eqn:E; [done|].
    by eapply consistent_subscribe.
  - by apply consistent_unsubscribe.
  - destruct (emit name data st) as [e|[n st']] eqn:E; [done|].
    destruct name as [name|]; [|done].
    by destruct (emit_spec _ _ _ _ _ Hc E) as (_ & ? & _).
  - by apply consistent_clearEvent.
  - by apply consistent_cleared.
  - by apply consistent_cleared.
  - unfold runTimer. destruct (timerHandler t (timerEvent t)), (timerOnce t);
      try (by apply (consistent_same st)).
    apply consistent_unsubscribe. by apply (consistent_same st).
Qed.

Lemma consistent_initial : consistent (@initial Data).
Proof. by apply consistent_cleared. Qed.

(** X17: the three maps of the dispatcher stay consistent, whatever the
    calls and whichever timers fire: no event is kept with an empty list
    of handlers; the subscription map names exactly the entries of the
    handler lists, each under its event; no id occurs twice; and no id
    in use exceeds the counter, so that a new id is new. *)
Theorem dispatcher_stays_consistent st : reachable st -> consistent st.
Proof.
  induction 1 as [|c st _ IH]; [apply consistent_initial|].
  by apply consistent_after.
Qed.

(** X18: [unsubscribe] returns true exactly for an id that is
    subscribed; it then removes that one entry and nothing else: the
    subscribers of every event are the former ones without the entry of
    that id, in their order, the id is forgotten, and the event's
    subscriber count goes down by one. *)
Theorem unsubscribe_removes_one_subscription st id :
  reachable st ->
  (fst (unsubscribe id st) = true <-> is_Some (subscriptions st !! id)) /\
  (forall eventName,
      subscribersOf eventName (snd (unsubscribe id st))
      = filter (fun h => subscriptionId h <> id) (subscribersOf eventName st)) /\
  subscriptions (snd (unsubscribe id st)) = delete id (subscriptions st) /\
  (forall eventName,
      subscriptions st !! id = Some eventName ->
      S (subscriberCount eventName (snd (unsubscribe id st)))
      = subscriberCount eventName st).
Proof.
  intros Hr. pose proof (dispatcher_stays_consistent st Hr) as Hc.
  destruct (unsubscribe_spec st id Hc) as (Hok & Hsub & Hmap & _).
  split; [by rewrite Hok, bool_decide_eq_true|]. split; [done|]. split; [done|].
  intros eventName Hs.
  assert (forall s : State Data,
             subscriberCount eventName s = length (subscribersOf eventName s))
    as Hcount.
  { intros s. unfold subscriberCount, subscribersOf.
    by destruct (handlers s !! eventName). }
  rewrite !Hcount, Hsub.
  apply (con_subscriptions st Hc) in Hs as (h & Hh & E).
  pose proof (con_nodup st Hc eventName) as Hnd.
  revert Hh Hnd. generalize (subscribersOf eventName st) as l. intros l.
  induction l as [|h' l IH]; intros Hh Hnd; [by apply elem_of_nil in Hh|].
  cbn [map] in Hnd. apply NoDup_cons in Hnd as [Hh' Hnd].
  cbn [length]. destruct (decide (subscriptionId h' = id)) as [E'|Hne].
  - rewrite filter_cons_False by (intros Hn; by apply Hn).
    rewrite filter_keeps_all; [done|]. intros x Hx Ex. apply Hh'.
    rewrite E', <- Ex. apply list_elem_of_fmap. eauto.
  - rewrite filter_cons_True by done. cbn [length]. f_equal. apply IH; [|done].
    apply elem_of_cons in Hh as [->|Hh]; [done|done].
Qed.

(** X19: [emit] with a name that is not blank does not throw.  It
    returns the number of subscribers of the event, calls each of them
    once with the data, in the order of subscription, and stores the
    data as the last event.  Afterwards the subscribers of the event
    are the former ones without those that were subscribed once and
    have returned; one that was subscribed once and threw stays
    subscribed.  The subscribers of the other events are untouched. *)
Theorem emit_calls_every_subscriber st eventName data :
  reachable st -> trim eventName <> [] ->
  exists st',
    emit (Some eventName) data st = inr (subscriberCount eventName st, st') /\
    delivered st' = rev (calls data (subscribersOf eventName st)) ++ delivered st /\
    subscribersOf eventName st'
    = filter (fun h => handler h data && once h = false)
        (subscribersOf eventName st) /\
    (forall other, other <> eventName ->
                   subscribersOf other st' = subscribersOf other st) /\
    getLastEvent eventName st' = Some data.
Proof.
  intros Hr Hname. pose proof (dispatcher_stays_consistent st Hr) as Hc.
  destruct (emit (Some eventName) data st) as [e|[n st']] eqn:E.
  { exfalso. unfold emit, validateNotEmpty in E.
    destruct (trim eventName); [done|].
    by destruct (handlers _ !! eventName). }
  destruct (emit_spec _ _ _ _ _ Hc E) as (-> & _ & Hsub & Hl & _ & Hd).
  exists st'. split; [done|]. split; [done|]. split; [|split].
  - by rewrite Hsub, decide_True.
  - intros other Hne. by rewrite Hsub, decide_False.
  - unfold getLastEvent. by rewrite Hl, lookup_insert_eq.
Qed.

Lemma handlers_agree (m1 m2 : gmap jsstring (list (Entry Data))) :
  (forall eventName, m1 !! eventName <> Some []) ->
  (forall eventName, m2 !! eventName <> Some []) ->
  (forall eventName, default [] (m1 !! eventName) = default [] (m2 !! eventName)) ->
  m1 = m2.
Proof.
  intros H1 H2 Heq. apply map_eq. intros eventName.
  specialize (H1 eventName). specialize (H2 eventName). specialize (Heq eventName).
  destruct (m1 !! eventName) as [[|]|], (m2 !! eventName) as [[|]|];
    cbn in Heq; congruence.
Qed.

(** X20: subscribing and then unsubscribing with the id that was
    returned leaves the dispatcher as it was, but for the counter: the
    call of [unsubscribe] returns true, and the handlers of every event
    and the subscription map are those from before the subscription. *)
Theorem subscribe_then_unsubscribe
    st eventName handler0 once0 immediate id timer st' :
  reachable st ->
  subscribe eventName handler0 once0 immediate st = inr (id, timer, st') ->
  fst (unsubscribe id st') = true /\
  handlers (snd (unsubscribe id st')) = handlers st /\
  subscriptions (snd (unsubscribe id st')) = subscriptions st /\
  lastEvents (snd (unsubscribe id st')) = lastEvents st /\
  subscriptionCounter (snd (unsubscribe id st')) = S (subscriptionCounter st).
Proof.
  intros Hr Hsub. pose proof (dispatcher_stays_consistent st Hr) as Hc.
  pose proof (consistent_subscribe _ _ _ _ _ _ _ _ Hc Hsub) as Hc'.
  destruct (subscribe_spec _ _ _ _ _ _ _ _ Hsub)
    as (name & _ & _ & Hid & Hh & Hs & Hn & Hl & _).
  destruct (unsubscribe_spec st' id Hc') as (Hok & Hof & Hmap & Hl' & Hn' & _ & Hne).
  assert (forall other h, h ∈ subscribersOf other st -> subscriptionId h <> id)
    as Hfresh.
  { intros other h Hin. pose proof (consistent_fresh st other h Hc Hin). lia. }
  split; [|split; [|split; [|split]]].
  - rewrite Hok, Hs, lookup_insert_eq. by apply bool_decide_eq_true_2.
  - apply handlers_agree; [done|apply (con_nonempty st Hc)|].
    intros other. fold (subscribersOf other (snd (unsubscribe id st'))).
    rewrite Hof. unfold subscribersOf at 1. rewrite Hh.
    fold (subscribersOf other st).
    destruct (decide (other = name)) as [->|Hno].
    + rewrite lookup_insert_eq.
      change (default [] (Some ?x)) with x. rewrite filter_app.
      rewrite (filter_cons_False _ (Build_Entry _ _ _)) by (intros Hx; by apply Hx).
      rewrite filter_nil, app_nil_r. apply filter_keeps_all. apply Hfresh.
    + rewrite lookup_insert_ne by done. fold (subscribersOf other st).
      apply filter_keeps_all. apply Hfresh.
  - rewrite Hmap, Hs. apply delete_insert_id.
    destruct (subscriptions st !! id) as [other|] eqn:E; [|done].
    pose proof (con_counter st Hc _ _ E). lia.
  - congruence.
  - congruence.
Qed.

End Dispatcher.

Lemma dispatcher_stays_consistent_witness : consistent twoSubscribers.
Proof.
  apply dispatcher_stays_consistent. unfold twoSubscribers.
  do 2 apply reachable_after. apply reachable_initial.
Defined.

Lemma unsubscribe_removes_one_subscription_witness :
  is_Some (subscriptions twoSubscribers !! 1%nat) /\
  fst (unsubscribe 1 twoSubscribers) = true /\
  subscriberCount scanStarted (snd (unsubscribe 1 twoSubscribers)) = 1%nat.
Proof.
  assert (reachable twoSubscribers) as Hr.
  { unfold twoSubscribers. do 2 apply reachable_after. apply reachable_initial. }
  destruct (unsubscribe_removes_one_subscription twoSubscribers 1 Hr)
    as (Hok & _ & _ & Hcount).
  assert (subscriptions twoSubscribers !! 1%nat = Some scanStarted) as Hs
    by (by vm_compute).
  split; [by rewrite Hs|]. split; [apply Hok; by rewrite Hs|].
  specialize (Hcount scanStarted Hs).
  assert (subscriberCount scanStarted twoSubscribers = 2%nat) as E by (by vm_compute).
  rewrite E in Hcount. lia.
Defined.

Lemma emit_calls_every_subscriber_witness :
  exists st',
    emit (Some scanStarted) 7%nat twoSubscribers = inr (2%nat, st') /\
    delivered st' = [(2%nat, 7%nat); (1%nat, 7%nat)] /\
    map subscriptionId (subscribersOf scanStarted st') = [2%nat].
Proof.
  assert (reachable twoSubscribers) as Hr.
  { unfold twoSubscribers. do 2 apply reachable_after. apply reachable_initial. }
  destruct (emit_calls_every_subscriber twoSubscribers scanStarted 7%nat Hr)
    as (st' & He & Hd & Hsub & _); [by vm_compute|].
  exists st'. split; [exact He|]. split; [by rewrite Hd|]. by rewrite Hsub.
Defined.

Lemma subscribe_then_unsubscribe_witness :
  handlers (snd (unsubscribe 3 (after (CallSubscribe (Some scanStarted)
                                         (fun _ => true) false false)
                                  twoSubscribers)))
  = handlers twoSubscribers.
Proof.
  assert (reachable twoSubscribers) as Hr.
  { unfold twoSubscribers. do 2 apply reachable_after. apply reachable_initial. }
  eapply (subscribe_then_unsubscribe twoSubscribers (Some scanStarted)
            (fun _ => true) false false 3%nat None); [exact Hr|].
  by vm_compute.
Defined.

End EventsFacts.

(** ** FileScanner *)

Module FileScannerFacts.
Import JS Scanner FileSystem FileScanner.

Lemma filterLoop_spec hasEvents filterOptions totalCount processedCount files :
  filterLoop hasEvents filterOptions totalCount processedCount files
  = (List.filter (passes filterOptions) files,
     if hasEvents then
       map (fun k => (js "file:scan:progress", ScanProgress k totalCount))
         (List.filter (fun k => progressDue k totalCount)
            (seq (S processedCount) (length files)))
     else []).
Proof.
  revert processedCount. induction files as [|file rest IH]; intros processedCount.
  - cbn. by destruct hasEvents.
  - cbn [filterLoop length seq List.filter]. rewrite IH.
    destruct (passes filterOptions file), hasEvents,
      (progressDue (S processedCount) totalCount); reflexivity.
Qed.

Lemma multiples_below n :
  length (List.filter (fun k => (k mod 100 =? 0)%nat) (seq 1 n)) = (n / 100)%nat.
Proof.
  induction n as [|n IH]; [done|].
  rewrite seq_S, List.filter_app, length_app, IH. cbn [List.filter plus].
  destruct (Nat.eqb_spec (S n mod 100) 0) as [E|E]; cbn [length].
  - pose proof (Nat.div_mod_eq (S n) 100). pose proof (Nat.div_mod_eq n 100).
    pose proof (Nat.mod_upper_bound n 100). nia.
  - pose proof (Nat.div_mod_eq (S n) 100). pose proof (Nat.div_mod_eq n 100).
    pose proof (Nat.mod_upper_bound n 100).
    pose proof (Nat.mod_upper_bound (S n) 100). nia.
Qed.

Lemma progress_points n :
  List.filter (fun k => progressDue k (S n)) (seq 1 (S n))
  = List.filter (fun k => (k mod 100 =? 0)%nat) (seq 1 n) ++ [S n].
Proof.
  rewrite seq_S, List.filter_app. cbn [List.filter plus]. unfold progressDue at 2.
  rewrite Nat.eqb_refl, orb_true_r. f_equal.
  apply filter_ext_in. intros k Hk. apply in_seq in Hk. unfold progressDue.
  destruct (Nat.eqb_spec k (S n)); [lia|]. by rewrite orb_false_r.
Qed.

(** X21: [filterAudiobooks] keeps, in their order, exactly the files
    that pass the three checks (a supported format, a size within the
    bounds, no exclude pattern that matches); the [extensions] of the
    options play no part.  With an event system it reports progress
    after every hundredth file and after the last one, and no more:
    for n files, none when n is 0 and otherwise (n - 1) / 100 + 1
    events, the last of which says that all n are processed. *)
Theorem filterAudiobooks_keeps_and_reports hasEvents config files filter :
  let filterOptions := mergeFilter (defaultFilterOptions config) filter in
  let n := length files in
  let progress := snd (filterAudiobooks hasEvents config files filter) in
  fst (filterAudiobooks hasEvents config files filter)
  = List.filter (passes filterOptions) files /\
  progress
  = (if hasEvents then
       map (fun k => (js "file:scan:progress", ScanProgress k n))
         (List.filter (fun k => progressDue k n) (seq 1 n))
     else []) /\
  (hasEvents = true ->
   length progress = (if (n =? 0)%nat then 0 else (n - 1) / 100 + 1)%nat /\
   (n <> 0%nat ->
    last progress = Some (js "file:scan:progress", ScanProgress n n))).
Proof.
  cbv zeta. unfold filterAudiobooks. rewrite filterLoop_spec. cbn [fst snd].
  split; [done|]. split; [done|]. intros ->.
  destruct (length files) as [|n]; [done|]. cbn [Nat.eqb].
  rewrite progress_points, map_app, length_app, length_map, multiples_below.
  cbn [map length]. replace (S n - 1)%nat with n by lia. split; [done|]. intros _. by rewrite last_snoc.
Qed.

(** X22: the default exclude pattern does not exclude hidden files: for
    a scanner without configuration and a call without filter options,
    a file whose path begins with a slash is kept exactly when its
    format is supported and its size is from 1 MiB to 5 GiB; a dot at
    the front of its name does not matter. *)
Theorem default_filter_ignores_leading_dot (file : FileEntry.t) rest :
  FileEntry.path file = "/"%char :: rest ->
  passes (mergeFilter (defaultFilterOptions noScannerConfig) None) file = true <->
  isSupportedAudioFormat (FileEntry.path file) = true /\
  (1048576 <= FileEntry.size file <= 5368709120)%Z.
Proof.
  intros Hpath. unfold passes. cbn [mergeFilter defaultFilterOptions noScannerConfig
    minSize maxSize excludePatterns minFileSize maxFileSize configExcludePatterns
    orDefault default existsb excludes].
  rewrite Hpath at 2. cbn [backslashThenAny].
  destruct (isSupportedAudioFormat (FileEntry.path file)); cbn [negb];
    [|by split; [|intros []]].
  change (1024 * 1024)%Z with 1048576%Z.
  change (5 * 1024 * 1024 * 1024)%Z with 5368709120%Z.
  destruct (Z.ltb_spec (FileEntry.size file) 1048576),
    (Z.ltb_spec 5368709120 (FileEntry.size file)); cbn [orb];
    try (split; [done|lia]).
  destruct rest as [|c rest']; cbn; split; (done || lia || by split; [|lia]).
Qed.

Lemma filterAudiobooks_keeps_and_reports_witness :
  length (snd (filterAudiobooks true noScannerConfig
                 (repeat (ScannerSpec.chapterFile "01.mp3" 2000000) 250) None))
  = 3%nat.
Proof.
  apply (proj1 (proj2 (proj2 (filterAudiobooks_keeps_and_reports true noScannerConfig
                                (repeat (ScannerSpec.chapterFile "01.mp3" 2000000) 250)
                                None)) eq_refl)).
Defined.

Lemma default_filter_ignores_leading_dot_witness :
  passes (mergeFilter (defaultFilterOptions noScannerConfig) None)
    (ScannerSpec.chapterFile ".hidden.mp3" 2000000) = true.
Proof.
  apply (default_filter_ignores_leading_dot
           (ScannerSpec.chapterFile ".hidden.mp3" 2000000)
           (js "library/MyBook/.hidden.mp3")); [reflexivity|].
  split; [reflexivity|]. cbn. lia.
Defined.

(** X23: when the file system service answers with files,
    [FileScanner.scanDirectory] resolves with those of them that pass
    the filter, in their order; with an event system it emits the start
    event, the progress events of the filter and the completion event,
    which carries the number of files kept and the number of files
    found, and nothing else. *)
Theorem scanDirectory_resolves_with_filtered_files
    hasEvents config fs serviceConfig fuel dirPath options filter allFiles :
  FileSystem.scanDirectory fs serviceConfig fuel dirPath options
  = Done (Files allFiles) ->
  let scan :=
    scanDirectory hasEvents config fs serviceConfig fuel dirPath options filter in
  let audiobooks :=
    List.filter (passes (mergeFilter (defaultFilterOptions config) filter)) allFiles in
  result scan = Done audiobooks /\
  emitted scan
  = if hasEvents then
      [(js "file:scan:started", ScanStarted dirPath)]
      ++ snd (filterAudiobooks true config allFiles filter)
      ++ [(js "file:scan:completed",
           ScanCompleted dirPath (length audiobooks) (length allFiles))]
    else [].
Proof.
  intros Hfiles. cbv zeta. unfold scanDirectory. rewrite Hfiles.
  pose proof (filterAudiobooks_keeps_and_reports hasEvents config allFiles filter)
    as (Hkept & Hprogress & _). cbv zeta in Hkept, Hprogress.
  destruct (filterAudiobooks hasEvents config allFiles filter) as [kept progress] eqn:E.
  cbn [fst snd] in Hkept, Hprogress. subst kept.
  destruct hasEvents; cbn [emit Events.validateNotEmpty SCAN_STARTED SCAN_COMPLETED].
  - change (trim (js "file:scan:started")) with (js "file:scan:started").
    change (trim (js "file:scan:completed")) with (js "file:scan:completed").
    cbn [js list_ascii_of_string result emitted]. split; [done|].
    pose proof (filterAudiobooks_keeps_and_reports true config allFiles filter)
      as (_ & -> & _). by rewrite Hprogress.
  - cbn [result emitted]. split; [done|]. by rewrite Hprogress.
Qed.

(** X24: when the file system service answers with an error value (it
    never rejects), [FileScanner.scanDirectory] rejects: the value has
    no [filter] to call.  With an event system the rejection is not that
    type error but the error of [emit], because [FileEvents] has no
    [SCAN_FAILED] and the name handed to [emit] is undefined.  In no
    case is a failure event emitted, and the promise resolves only when
    the service has answered with files. *)
Theorem scanDirectory_rejects_on_error_value
    hasEvents config fs serviceConfig fuel dirPath options filter :
  let scan :=
    scanDirectory hasEvents config fs serviceConfig fuel dirPath options filter in
  (forall e,
      FileSystem.scanDirectory fs serviceConfig fuel dirPath options
      = Done (ErrorValue e) ->
      result scan
      = Thrown (if hasEvents
                then MessageError "Event name must not be null or undefined"
                else MessageError "files.filter is not a function") /\
      emitted scan
      = if hasEvents then [(js "file:scan:started", ScanStarted dirPath)] else []) /\
  (forall audiobooks,
      result scan = Done audiobooks ->
      exists allFiles,
        FileSystem.scanDirectory fs serviceConfig fuel dirPath options
        = Done (Files allFiles)) /\
  (forall name d error, ~ In (name, ScanFailed d error) (emitted scan)).
Proof.
  cbv zeta. split; [|split].
  - intros e He. unfold scanDirectory. rewrite He.
    destruct hasEvents; cbn [emit Events.validateNotEmpty SCAN_STARTED]; [|done].
    change (trim (js "file:scan:started")) with (js "file:scan:started").
    cbn [js list_ascii_of_string]. done.
  - intros audiobooks. unfold scanDirectory.
    destruct (FileSystem.scanDirectory fs serviceConfig fuel dirPath options)
      as [[allFiles|e]|e|]; [by eauto| | |];
      destruct hasEvents; cbn [emit Events.validateNotEmpty SCAN_STARTED];
      try change (trim (js "file:scan:started")) with (js "file:scan:started");
      cbn [js list_ascii_of_string]; done.
  - intros name d error. unfold scanDirectory.
    pose proof (filterAudiobooks_keeps_and_reports hasEvents config) as Hprog.
    destruct (FileSystem.scanDirectory fs serviceConfig fuel dirPath options)
      as [[allFiles|e]|e|].
    + specialize (Hprog allFiles filter) as (_ & Hprogress & _).
      cbv zeta in Hprogress.
      destruct (filterAudiobooks hasEvents config allFiles filter) as [kept progress].
      cbn [snd] in Hprogress.
      destruct hasEvents; [|rewrite Hprogress; cbn; tauto].
      cbn [emit Events.validateNotEmpty SCAN_STARTED SCAN_COMPLETED].
      change (trim (js "file:scan:started")) with (js "file:scan:started").
      change (trim (js "file:scan:completed")) with (js "file:scan:completed").
      cbn [js list_ascii_of_string result emitted].
      rewrite !in_app_iff. intros [H|[H|H]].
      * cbn in H. by destruct H as [H|[]].
      * rewrite Hprogress in H. apply in_map_iff in H as (k & Hk & _). done.
      * cbn in H. by destruct H as [H|[]].
    + destruct hasEvents; [|cbn; tauto]. cbn. by intros [H|[]].
    + destruct hasEvents; [|cbn; tauto]. cbn. by intros [H|[]].
    + destruct hasEvents; [|cbn; tauto]. cbn. by intros [H|[]].
Qed.

(** The file of [deepFs 2] is found and, with the filter [anySize], kept:
    the start, one progress event and the completion are emitted. *)
Lemma scanDirectory_resolves_with_filtered_files_witness :
  result (scanDirectory true noScannerConfig (FileSystemSpec.deepFs 2)
            FileSystemSpec.noConfig 5 (js "/r") FileSystemSpec.noArgs (Some anySize))
  = Done [FileSystemSpec.thirdLevelFile] /\
  emitted (scanDirectory true noScannerConfig (FileSystemSpec.deepFs 2)
             FileSystemSpec.noConfig 5 (js "/r") FileSystemSpec.noArgs (Some anySize))
  = [ (js "file:scan:started", ScanStarted (js "/r"));
      (js "file:scan:progress", ScanProgress 1 1);
      (js "file:scan:completed", ScanCompleted (js "/r") 1 1) ].
Proof.
  destruct (scanDirectory_resolves_with_filtered_files true noScannerConfig
              (FileSystemSpec.deepFs 2) FileSystemSpec.noConfig 5 (js "/r")
              FileSystemSpec.noArgs (Some anySize) [FileSystemSpec.thirdLevelFile])
    as [Hresult Hemitted]; [vm_compute; reflexivity|].
  split.
  - rewrite Hresult. vm_compute. reflexivity.
  - rewrite Hemitted. vm_compute. reflexivity.
Defined.

Lemma scanDirectory_rejects_on_error_value_witness :
  result (scanDirectory true noScannerConfig FileSystemSpec.unreadableRootFs
            FileSystemSpec.noConfig 1 (js "/nowhere") FileSystemSpec.noArgs None)
  = Thrown (MessageError "Event name must not be null or undefined").
Proof.
  apply (proj1 (scanDirectory_rejects_on_error_value true noScannerConfig
                  FileSystemSpec.unreadableRootFs FileSystemSpec.noConfig 1
                  (js "/nowhere") FileSystemSpec.noArgs None)
           (MessageError "Directory does not exist: /nowhere")).
  reflexivity.
Defined.

End FileScannerFacts.

(** ** Numbers and their digits *)

Module DigitsFacts.
Import JS.

Lemma parse_step_uint (u : Decimal.uint) (acc : N) :
  fold_left (fun acc c => 10 * acc + digitValue c)%Z
    (js (NilEmpty.string_of_uint u)) (Z.of_N acc)
  = Z.of_N match acc with
           | N0 => Pos.of_uint u
           | Npos a => Npos (Pos.of_uint_acc u a)
           end.
Proof.
  revert acc. unfold js.
  induction u as [|u IH|u IH|u IH|u IH|u IH|u IH|u IH|u IH|u IH|u IH];
    intros acc; cbn [NilEmpty.string_of_uint list_ascii_of_string fold_left];
    [by destruct acc|..];
    destruct acc as [|a]; cbn [Pos.of_uint Pos.of_uint_acc];
    match goal with
    | |- _ = Z.of_N (Pos.of_uint u) => rewrite <- (IH 0%N)
    | |- _ = Z.of_N (Npos (Pos.of_uint_acc u ?b)) => rewrite <- (IH (Npos b))
    end; f_equal;
    match goal with
    | |- context [digitValue ?c] =>
        let v := eval vm_compute in (digitValue c) in change (digitValue c) with v
    end; lia.
Qed.

Lemma digits_of_uint (u : Decimal.uint) :
  forallb isDigit (js (NilEmpty.string_of_uint u)) = true.
Proof. induction u; cbn; done. Qed.

Lemma takeWhile_all {A} (f : A -> bool) (l : list A) :
  forallb f l = true -> takeWhile f l = l.
Proof.
  induction l as [|x l IH]; [done|]. cbn. destruct (f x); [|done].
  intros H. by rewrite IH.
Qed.

(** The digits of a number that is not negative, read back. *)
Lemma numberToString_digits (n : Z) :
  (0 <= n)%Z ->
  forallb isDigit (numberToString n) = true /\
  numberToString n <> [] /\
  parseDigits (numberToString n) = Some n.
Proof.
  intros Hn. unfold numberToString. destruct n as [|p|p]; [by vm_compute| |lia].
  cbn [Z.to_int NilZero.string_of_int].
  assert (NilZero.string_of_uint (Pos.to_uint p)
          = NilEmpty.string_of_uint (Pos.to_uint p)) as ->.
  { pose proof (DecimalPos.Unsigned.to_uint_nonnil p). by destruct (Pos.to_uint p). }
  split; [apply digits_of_uint|].
  assert (js (NilEmpty.string_of_uint (Pos.to_uint p)) <> []) as Hne.
  { pose proof (DecimalPos.Unsigned.to_uint_nonnil p). by destruct (Pos.to_uint p). }
  split; [done|]. unfold parseDigits.
  destruct (js (NilEmpty.string_of_uint (Pos.to_uint p))) eqn:E; [done|].
  rewrite <- E. f_equal. change 0%Z with (Z.of_N 0).
  rewrite parse_step_uint. by rewrite DecimalPos.Unsigned.of_to.
Qed.

Lemma parseInt_digits (ds : jsstring) :
  forallb isDigit ds = true -> parseInt ds = parseDigits ds.
Proof.
  intros Hd. unfold parseInt. destruct ds as [|c ds]; [done|].
  cbn [forallb] in Hd. apply andb_true_iff in Hd as [Hc Hds].
  assert (isSpace c = false) as Hs.
  { destruct c as [[] [] [] [] [] [] [] []]; done. }
  cbn [dropWhile]. rewrite Hs.
  assert (takeWhile isDigit (c :: ds) = c :: ds) as Ht.
  { apply takeWhile_all. cbn. by rewrite Hc. }
  destruct c as [[] [] [] [] [] [] [] []];
    try (vm_compute in Hc; discriminate Hc); cbv iota; by rewrite Ht.
Qed.

Lemma parseInt_numberToString (n : Z) :
  (0 <= n)%Z -> parseInt (numberToString n) = Some n.
Proof.
  intros Hn. destruct (numberToString_digits n Hn) as (Hd & _ & Hp).
  by rewrite parseInt_digits.
Qed.

Lemma parseDigits_zero_first (ds : jsstring) :
  ds <> [] -> parseDigits ("0"%char :: ds) = parseDigits ds.
Proof. destruct ds; [done|]. intros _. reflexivity. Qed.

Lemma parseDigits_single (c : ascii) :
  isDigit c = true -> exists d, parseDigits [c] = Some d /\ (0 <= d <= 9)%Z.
Proof.
  intros Hc. exists (digitValue c). split; [cbn; f_equal; lia|].
  destruct c as [[] [] [] [] [] [] [] []]; try done; vm_compute; by split.
Qed.

End DigitsFacts.

(** ** The numbers of a target path *)

Module OrganizerFormatFacts.
Import JS Matcher OrganizerFormat DigitsFacts.

Lemma padded_number (n : Z) :
  (0 <= n)%Z ->
  let r := if (n <? 10)%Z then "0"%char :: numberToString n else numberToString n in
  forallb isDigit r = true /\ (2 <= length r)%nat /\ parseInt r = Some n.
Proof.
  intros Hn. destruct (numberToString_digits n Hn) as (Hd & Hne & Hp). cbv zeta.
  destruct (Z.ltb_spec n 10) as [Hlt|Hge].
  - split; [by cbn [forallb]; rewrite Hd|]. split.
    + destruct (numberToString n); [done|]. cbn. lia.
    + rewrite parseInt_digits by (by cbn [forallb]; rewrite Hd).
      by rewrite parseDigits_zero_first.
  - split; [done|]. split; [|by rewrite parseInt_digits].
    destruct (numberToString n) as [|c [|d ds]] eqn:E; [done| |cbn; lia].
    exfalso. cbn [forallb] in Hd. apply andb_true_iff in Hd as [Hc _].
    destruct (parseDigits_single c Hc) as (v & Hv & Hrange).
    rewrite Hv in Hp. injection Hp as ->. lia.
Qed.

(** X25: a series position that reads as a safe integer which is not
    negative is formatted as that number with at least two digits: the
    result holds digits only, at least two of them, and reads back as
    the same number.  (Beyond the safe integers the code rounds the
    number, and from ten to the 21 it prints an exponent.) *)
Theorem _formatSeriesPosition_pads (p : Position) (n : Z) :
  truthyPosition (Some p) = true ->
  positionParseInt p = Some n ->
  (0 <= n <= MAX_SAFE_INTEGER)%Z ->
  forallb isDigit (_formatSeriesPosition (Some p)) = true /\
  (2 <= length (_formatSeriesPosition (Some p)))%nat /\
  parseInt (_formatSeriesPosition (Some p)) = Some n.
Proof.
  intros Ht Hp [Hn _]. unfold _formatSeriesPosition. rewrite Ht, Hp. cbn [negb].
  by apply padded_number.
Qed.

Lemma _formatSeriesPosition_pads_witness :
  forallb isDigit (_formatSeriesPosition (Some (PosStr (js " 7th")))) = true /\
  (2 <= length (_formatSeriesPosition (Some (PosStr (js " 7th")))))%nat /\
  parseInt (_formatSeriesPosition (Some (PosStr (js " 7th")))) = Some 7%Z.
Proof.
  apply (_formatSeriesPosition_pads (PosStr (js " 7th")) 7);
    [reflexivity|reflexivity|unfold MAX_SAFE_INTEGER; lia].
Defined.

Lemma part_numbers_checked :
  forallb (fun m =>
             (length (_formatPartNumber (Some (PosNum (Z.of_nat m)))) =? 2)%nat
             && forallb (fun n =>
                           (n <=? m)%nat
                           || (Collation.codeUnitCompare
                                 (_formatPartNumber (Some (PosNum (Z.of_nat m))))
                                 (_formatPartNumber (Some (PosNum (Z.of_nat n))))
                               =? -1)%Z)
                  (seq 1 99))
    (seq 1 99) = true.
Proof. vm_compute. reflexivity. Qed.

(** X26: every part number from 1 to 99 is formatted with two
    characters, so that the formatted numbers sort as the numbers do: of
    two part numbers in that range the smaller is formatted to the
    string that comes first in code unit order.  From 100 on this is
    lost: part 100 sorts before part 99. *)
Theorem _formatPartNumber_sorts_below_100 :
  (forall m : nat,
      (1 <= m)%nat -> (m <= 99)%nat ->
      length (_formatPartNumber (Some (PosNum (Z.of_nat m)))) = 2%nat) /\
  (forall m n : nat,
      (1 <= m)%nat -> (m < n)%nat -> (n <= 99)%nat ->
      Collation.codeUnitCompare
        (_formatPartNumber (Some (PosNum (Z.of_nat m))))
        (_formatPartNumber (Some (PosNum (Z.of_nat n)))) = (-1)%Z) /\
  Collation.codeUnitCompare
    (_formatPartNumber (Some (PosNum 100))) (_formatPartNumber (Some (PosNum 99)))
  = (-1)%Z.
Proof.
  pose proof part_numbers_checked as Hall. rewrite forallb_forall in Hall.
  split; [|split; [|by vm_compute]].
  - intros m H1 H99. specialize (Hall m ltac:(apply in_seq; lia)).
    apply andb_true_iff in Hall as [Hlen _]. by apply Nat.eqb_eq.
  - intros m n H1 Hmn H99. specialize (Hall m ltac:(apply in_seq; lia)).
    apply andb_true_iff in Hall as [_ Hcmp].
    rewrite forallb_forall in Hcmp. specialize (Hcmp n ltac:(apply in_seq; lia)).
    apply orb_true_iff in Hcmp as [Hle|Hlt]; [apply Nat.leb_le in Hle; lia|].
    by apply Z.eqb_eq.
Qed.

Lemma _formatPartNumber_sorts_below_100_witness :
  length (_formatPartNumber (Some (PosNum (Z.of_nat 99)))) = 2%nat /\
  Collation.codeUnitCompare
    (_formatPartNumber (Some (PosNum (Z.of_nat 9))))
    (_formatPartNumber (Some (PosNum (Z.of_nat 10)))) = (-1)%Z.
Proof.
  split.
  - apply (proj1 _formatPartNumber_sorts_below_100 99%nat); lia.
  - apply (proj1 (proj2 _formatPartNumber_sorts_below_100) 9%nat 10%nat); lia.
Defined.

End OrganizerFormatFacts.

(** ** FileProcessor *)

Module FileProcessorFacts.
Import JS Scanner FileSystem FileProcessor.

Lemma groups_nonempty localeCompare files :
  Forall (fun g => Book.files g <> []) (groupFilesByBooks localeCompare files).
Proof.
  unfold groupFilesByBooks.
  pose proof (ScannerFacts.groupingInvariant_fold
                (sort (byName localeCompare) files) _ []
                ScannerFacts.groupingInvariant_initial) as [_ Hw _].
  apply Forall_fmap. eapply Forall_impl; [exact Hw|].
  intros b Hb. by destruct (ScannerFacts.wellFormed_sortBookFiles b Hb) as [? _].
Qed.

Section Processor.
Context {M : Type}.
Variable extractMetadata : jsstring -> Error + option M.
Variable extractMetadataFromFile : jsstring -> option M -> Error + option M.
Variable hasEvents : bool.

Lemma processBook_returns book :
  Book.files book <> [] ->
  exists r evs,
    processBook extractMetadata extractMetadataFromFile hasEvents book = (Done r, evs) /\
    name r = Book.name book /\
    files r = Some (length (Book.files book)) /\
    status r <> StatusSkipped.
Proof.
  intros Hne. unfold processBook.
  destruct (Book.files book) as [|primaryFile rest] eqn:E; [done|].
  destruct (extractMetadata (FileEntry.path primaryFile)) as [e|existing].
  - eexists _, _. split; [done|]. by cbn.
  - destruct (extractMetadataFromFile _ existing) as [e|[m|]];
      (eexists _, _; split; [done|]; by cbn).
Qed.

Lemma withStatus_snoc s rs r :
  withStatus s (rs ++ [r])
  = (withStatus s rs + withStatus s [r])%nat.
Proof. unfold withStatus. by rewrite List.filter_app, length_app. Qed.

(** The loop keeps the counters in step with the results. *)
Lemma processBooks_tally totalCount processedCount results todo :
  Forall (fun g => Book.files g <> []) todo ->
  processed results = withStatus StatusProcessed (books results) ->
  failed results = withStatus StatusFailed (books results) ->
  skipped results = 0%nat ->
  withStatus StatusSkipped (books results) = 0%nat ->
  let final :=
    fst (processBooks extractMetadata extractMetadataFromFile hasEvents
           totalCount processedCount results todo) in
  processed final = withStatus StatusProcessed (books final) /\
  failed final = withStatus StatusFailed (books final) /\
  skipped final = 0%nat /\
  withStatus StatusSkipped (books final) = 0%nat /\
  map name (books final) = map name (books results) ++ map Book.name todo /\
  map files (books final)
  = map files (books results) ++ map (fun g => Some (length (Book.files g))) todo.
Proof.
  revert processedCount results.
  induction todo as [|book rest IH]; intros processedCount results Hne Hp Hf Hs Hk.
  - cbn. by rewrite !app_nil_r.
  - apply Forall_cons in Hne as [Hbook Hrest].
    destruct (processBook_returns book Hbook) as (r & evs & Hrun & Hn & Hfiles & Hst).
    cbn [processBooks]. rewrite Hrun.
    match goal with
    | |- context [processBooks _ _ _ _ ?pc ?res rest] =>
        specialize (IH pc res Hrest)
    end.
    destruct (processBooks extractMetadata extractMetadataFromFile hasEvents totalCount
                (S processedCount) (count r results) rest) as [final later] eqn:El.
    cbn [fst] in IH |- *.
    destruct IH as (H1 & H2 & H3 & H4 & H5 & H6).
    + cbn [count processed books]. rewrite withStatus_snoc, <- Hp.
      unfold withStatus. cbn [List.filter]. destruct (status r); cbn [length]; lia.
    + cbn [count failed books]. rewrite withStatus_snoc, <- Hf.
      unfold withStatus. cbn [List.filter]. destruct (status r); cbn [length]; lia.
    + cbn [count skipped]. by destruct (status r).
    + cbn [count books]. rewrite withStatus_snoc, Hk.
      unfold withStatus. cbn [List.filter]. by destruct (status r).
    + split; [done|]. split; [done|]. split; [done|]. split; [done|].
      cbn [count books] in H5, H6. rewrite map_app in H5, H6. cbn [map] in H5, H6.
      rewrite <- !app_assoc in H5, H6. cbn [app] in H5, H6.
      rewrite Hn in H5. rewrite Hfiles in H6. by split.
Qed.

(** X27: when the scanner resolves, [processDirectory] resolves with
    one result for each group of the scanned files, in the order of the
    groups, under the group's name and with the number of its files (no
    group is empty, so no call of [processBook] throws).  The counters
    [processed] and [failed] count the results with that status and
    [skipped] stays 0; a book for which no API metadata was found has
    the status metadata_only and is counted by none of them, so that
    the three counters add up to the number of books less the number of
    such books. *)
Theorem processDirectory_tallies_the_groups localeCompare scan dirPath audiobooks :
  FileScanner.result scan = Done audiobooks ->
  let groups := groupFilesByBooks localeCompare audiobooks in
  exists results,
    outcome (processDirectory extractMetadata extractMetadataFromFile hasEvents
               localeCompare scan dirPath) = Done results /\
    map name (books results) = map Book.name groups /\
    map files (books results) = map (fun g => Some (length (Book.files g))) groups /\
    processed results = withStatus StatusProcessed (books results) /\
    failed results = withStatus StatusFailed (books results) /\
    skipped results = 0%nat /\
    (processed results + failed results + skipped results
     + withStatus StatusMetadataOnly (books results) = length groups)%nat.
Proof.
  intros Hscan groups. unfold processDirectory. rewrite Hscan. fold groups.
  pose proof (processBooks_tally (length groups) 0 noResults groups
                (groups_nonempty localeCompare audiobooks)
                eq_refl eq_refl eq_refl eq_refl) as Htally.
  destruct (processBooks extractMetadata extractMetadataFromFile hasEvents
              (length groups) 0 noResults groups) as [results evs].
  cbn [fst] in Htally. destruct Htally as (Hp & Hf & Hs & Hk & Hn & Hfiles).
  exists results. cbn [outcome noResults books map app] in *.
  repeat (split; [done|]).
  rewrite Hp, Hf, Hs. rewrite <- (length_map Book.name groups), <- Hn, length_map.
  clear -Hk. unfold withStatus in *.
  induction (books results) as [|r rs IH]; [done|].
  cbn [List.filter] in Hk |- *.
  destruct (status r); cbn [length] in Hk |- *; try lia.
Qed.

(** X28: when the scanner rejects, [processDirectory] rejects too: with
    the scanner's error, or, when the processor has an event system,
    with the error of [emit], because [FileEvents] has no [BATCH_FAILED]
    and the name handed to [emit] is undefined.  It resolves only when
    the scanner has resolved. *)
Theorem processDirectory_rejects_with_the_scanner localeCompare scan dirPath :
  let run :=
    processDirectory extractMetadata extractMetadataFromFile hasEvents
      localeCompare scan dirPath in
  (forall e,
      FileScanner.result scan = Thrown e ->
      outcome run
      = Thrown (if hasEvents
                then MessageError "Event name must not be null or undefined"
                else e)) /\
  (forall results,
      outcome run = Done results ->
      exists audiobooks, FileScanner.result scan = Done audiobooks).
Proof.
  cbv zeta. unfold processDirectory, batchFailed, emit. split.
  - intros e ->. by destruct hasEvents.
  - intros results. destruct (FileScanner.result scan) as [files|e|]; [by eauto| |done].
    by destruct hasEvents.
Qed.

End Processor.

Lemma processDirectory_tallies_the_groups_witness :
  exists results,
    outcome (processDirectory (M := unit) (fun _ => inr None) (fun _ _ => inr None)
               true Collation.codeUnitCompare
               {| FileScanner.result :=
                    Done [ScannerSpec.chapterFile "Chapter 1.mp3" 2000000;
                          ScannerSpec.chapterFile "Chapter 2.mp3" 2000000];
                  FileScanner.emitted := [] |}
               (js "/library")) = Done results /\
    processed results = 0%nat /\ failed results = 0%nat /\
    withStatus StatusMetadataOnly (books results) = 2%nat.
Proof.
  destruct (processDirectory_tallies_the_groups (M := unit)
              (fun _ => inr None) (fun _ _ => inr None) true
              Collation.codeUnitCompare
              {| FileScanner.result :=
                   Done [ScannerSpec.chapterFile "Chapter 1.mp3" 2000000;
                         ScannerSpec.chapterFile "Chapter 2.mp3" 2000000];
                 FileScanner.emitted := [] |}
              (js "/library") _ eq_refl)
    as (results & Hrun & _).
  exists results. split; [exact Hrun|].
  vm_compute in Hrun. injection Hrun as <-. by vm_compute.
Defined.

Lemma processDirectory_rejects_with_the_scanner_witness :
  outcome (processDirectory (M := unit) (fun _ => inr None) (fun _ _ => inr None)
             true Collation.codeUnitCompare
             {| FileScanner.result := Thrown (MessageError "files.filter is not a function");
                FileScanner.emitted := [] |}
             (js "/library"))
  = Thrown (MessageError "Event name must not be null or undefined").
Proof.
  apply (proj1 (processDirectory_rejects_with_the_scanner (M := unit)
                  (fun _ => inr None) (fun _ _ => inr None) true
                  Collation.codeUnitCompare
                  {| FileScanner.result :=
                       Thrown (MessageError "files.filter is not a function");
                     FileScanner.emitted := [] |}
                  (js "/library"))
           (MessageError "files.filter is not a function")).
  reflexivity.
Defined.

End FileProcessorFacts.

(** ** Track numbers *)

Module TrackNumberFacts.
Import JS Scanner DigitsFacts DigitRuns.

Lemma takeWhile_forallb {A} (f : A -> bool) (l : list A) :
  forallb f (takeWhile f l) = true.
Proof.
  induction l as [|x l IH]; [done|]. cbn [takeWhile].
  destruct (f x) eqn:E; [|done]. cbn [forallb]. by rewrite E.
Qed.

Lemma digitValue_range (c : ascii) : isDigit c = true -> (0 <= digitValue c <= 9)%Z.
Proof. destruct c as [[] [] [] [] [] [] [] []]; try done; by vm_compute. Qed.

(** Digits write a number below the power of ten of their count. *)
Lemma digits_value_bound (l : jsstring) (acc : Z) :
  forallb isDigit l = true -> (0 <= acc)%Z ->
  (0 <= fold_left (fun acc c => 10 * acc + digitValue c) l acc
   < (acc + 1) * 10 ^ Z.of_nat (length l))%Z.
Proof.
  revert acc. induction l as [|d l IH]; intros acc Hd Hacc.
  - cbn. lia.
  - cbn [forallb] in Hd. apply andb_true_iff in Hd as [Hdig Hd].
    pose proof (digitValue_range d Hdig) as Hv.
    cbn [fold_left length]. rewrite Nat2Z.inj_succ, Z.pow_succ_r by lia.
    specialize (IH (10 * acc + digitValue d)%Z Hd ltac:(lia)).
    assert (0 < 10 ^ Z.of_nat (length l))%Z by (apply Z.pow_pos_nonneg; lia).
    nia.
Qed.

Lemma parseDigits_bound (ds : jsstring) :
  ds <> [] -> forallb isDigit ds = true ->
  exists n, parseInt ds = Some n /\ (0 <= n < 10 ^ Z.of_nat (length ds))%Z.
Proof.
  intros Hne Hd. rewrite parseInt_digits by done. unfold parseDigits.
  destruct ds as [|c ds]; [done|]. eexists. split; [done|].
  pose proof (digits_value_bound (c :: ds) 0 Hd ltac:(lia)). lia.
Qed.

Lemma run_within (s before from : jsstring) :
  s = before ++ from ->
  (length (takeWhile isDigit from) <= longestDigitRun s)%nat.
Proof.
  revert s. induction before as [|x before IH]; intros s ->.
  - destruct from as [|c from]; [cbn; lia|]. cbn [app longestDigitRun]. lia.
  - cbn [app longestDigitRun]. specialize (IH _ eq_refl). lia.
Qed.

(** What a pattern captures reads as a number, which the longest run of
    digits of the name bounds. *)
Lemma captured_parses (s digits : jsstring) :
  captured s digits ->
  exists n, parseInt digits = Some n /\
            (0 <= n < 10 ^ Z.of_nat (longestDigitRun s))%Z.
Proof.
  intros (Hne & before & from & Hs & Hd).
  destruct (parseDigits_bound digits Hne) as (n & Hn & Hlo & Hhi).
  { rewrite Hd. apply takeWhile_forallb. }
  exists n. split; [done|]. split; [done|].
  eapply Z.lt_le_trans; [exact Hhi|].
  apply Z.pow_le_mono_r; [lia|]. rewrite Hd.
  pose proof (run_within s before from Hs). lia.
Qed.

Lemma matchWordCI_suffix word s r :
  matchWordCI word s = Some r -> exists before, s = before ++ r.
Proof.
  revert s. induction word as [|p word IH]; intros s; cbn [matchWordCI].
  - destruct s; intros [= <-]; by exists [].
  - destruct s as [|c s]; [done|].
    destruct (bool_decide _); [|done]. intros H.
    destruct (IH _ H) as (before & ->). by exists (c :: before).
Qed.

Lemma captured_later c s digits : captured s digits -> captured (c :: s) digits.
Proof.
  intros (Hne & before & from & -> & Hd). split; [done|].
  by exists (c :: before), from.
Qed.

Lemma matchNumbered_digits word s digits rest :
  matchNumbered word s = Some (digits, rest) -> captured s digits.
Proof.
  unfold matchNumbered. destruct (matchWordCI word s) as [r|] eqn:Ew; [|done].
  destruct (takeWhile isDigit (dropWhile isSep r)) as [|d ds] eqn:E; [done|].
  intros [= <- _]. split; [done|].
  destruct (matchWordCI_suffix _ _ _ Ew) as (b1 & ->).
  destruct (PathFacts.dropWhile_suffix isSep r) as (b2 & Hr).
  exists (b1 ++ b2), (dropWhile isSep r). split; [|done].
  by rewrite <- app_assoc, <- Hr.
Qed.

Lemma findNumbered_digits word s digits :
  findNumbered word s = Some digits -> captured s digits.
Proof.
  induction s as [|c s IH]; cbn [findNumbered].
  - destruct (matchNumbered word []) as [[ds rest]|] eqn:E; [|done].
    intros [= <-]. by eapply matchNumbered_digits.
  - destruct (matchNumbered word (c :: s)) as [[ds rest]|] eqn:E.
    + intros [= <-]. by eapply matchNumbered_digits.
    + intros H. by apply captured_later, IH.
Qed.

Lemma matchLeadingNumber_digits s digits rest :
  matchLeadingNumber s = Some (digits, rest) -> captured s digits.
Proof.
  unfold matchLeadingNumber.
  destruct (takeWhile isDigit s) as [|d ds] eqn:E; [done|].
  destruct (dropWhile isDigit s) as [|c r]; [done|].
  destruct (isSep c); [|done]. intros [= <- _]. split; [done|].
  by exists [], s.
Qed.

Lemma findNumberBeforeExt_digits s digits :
  findNumberBeforeExt s = Some digits -> captured s digits.
Proof.
  assert (forall s, matchNumberBeforeExt s = Some digits -> captured s digits) as Hm.
  { clear s. intros s. unfold matchNumberBeforeExt.
    destruct s as [|c r]; [done|]. destruct (isSpace c); [|done].
    destruct (takeWhile isDigit r) as [|d ds] eqn:E; [done|].
    destruct (dropWhile isSpace (dropWhile isDigit r)) as [|x [|e ext]]; try done;
      destruct x as [[] [] [] [] [] [] [] []]; try done.
    cbv iota.
    match goal with
    | |- (if ?b then Some _ else None) = _ -> _ => destruct b; [|done]
    end.
    intros [= <-]. split; [done|]. by exists [c], r. }
  induction s as [|c s IH]; cbn [findNumberBeforeExt].
  - destruct (matchNumberBeforeExt []) eqn:E; [|done]. intros [= <-]. by eapply Hm.
  - destruct (matchNumberBeforeExt (c :: s)) eqn:E.
    + intros [= <-]. by eapply Hm.
    + intros H. by apply captured_later, IH.
Qed.

(** X29: [_extractTrackNumber] gives null exactly when none of the four
    patterns matches, for the digits that a pattern captures always
    read as a number, never as NaN.  When no run of digits of the file
    name is longer than 15, that number is a safe integer which is not
    negative, the one that the captured digits write; so the comparator
    of the sort of a book's files subtracts safe integers that are not
    negative.  (A longer run is rounded by the code, and read as
    [Infinity] from 309 digits on.) *)
Theorem _extractTrackNumber_is_null_or_natural (filename : jsstring) :
  (_extractTrackNumber filename = None <->
   findNumbered (js "track") filename = None /\
   findNumbered (js "chapter") filename = None /\
   matchLeadingNumber filename = None /\
   findNumberBeforeExt filename = None) /\
  ((longestDigitRun filename <= 15)%nat ->
   (forall n, _extractTrackNumber filename = Some n ->
              (0 <= n <= MAX_SAFE_INTEGER)%Z) /\
   (forall file, FileEntry.name file = filename ->
                 (0 <= trackNumberOrZero file <= MAX_SAFE_INTEGER)%Z)).
Proof.
  assert (forall digits,
             captured filename digits ->
             exists n, parseInt digits = Some n /\
                       ((longestDigitRun filename <= 15)%nat ->
                        (0 <= n <= MAX_SAFE_INTEGER)%Z)) as Hparse.
  { intros digits Hc. destruct (captured_parses _ _ Hc) as (n & Hn & Hlo & Hhi).
    exists n. split; [done|]. intros Hrun. split; [done|].
    assert (10 ^ Z.of_nat (longestDigitRun filename) <= 10 ^ 15)%Z
      by (apply Z.pow_le_mono_r; lia).
    unfold MAX_SAFE_INTEGER. lia. }
  assert ((_extractTrackNumber filename = None <->
           findNumbered (js "track") filename = None /\
           findNumbered (js "chapter") filename = None /\
           matchLeadingNumber filename = None /\
           findNumberBeforeExt filename = None) /\
          ((longestDigitRun filename <= 15)%nat ->
           forall n, _extractTrackNumber filename = Some n ->
                     (0 <= n <= MAX_SAFE_INTEGER)%Z)) as [Hnull Hnat].
  { unfold _extractTrackNumber.
    destruct (findNumbered (js "track") filename) as [d1|] eqn:E1.
    { destruct (Hparse d1 (findNumbered_digits _ _ _ E1)) as (n & -> & Hn).
      split; [split; [done|by intros [? _]]|]. intros Hrun ? [= <-]. by apply Hn. }
    destruct (findNumbered (js "chapter") filename) as [d2|] eqn:E2.
    { destruct (Hparse d2 (findNumbered_digits _ _ _ E2)) as (n & -> & Hn).
      split; [split; [done|by intros (_ & ? & _)]|].
      intros Hrun ? [= <-]. by apply Hn. }
    destruct (matchLeadingNumber filename) as [[d3 rest]|] eqn:E3.
    { destruct (Hparse d3 (matchLeadingNumber_digits _ _ _ E3)) as (n & -> & Hn).
      split; [split; [done|by intros (_ & _ & ? & _)]|].
      intros Hrun ? [= <-]. by apply Hn. }
    destruct (findNumberBeforeExt filename) as [d4|] eqn:E4.
    { destruct (Hparse d4 (findNumberBeforeExt_digits _ _ E4)) as (n & -> & Hn).
      split; [split; [done|by intros (_ & _ & _ & ?)]|].
      intros Hrun ? [= <-]. by apply Hn. }
    split; [by split|]. done. }
  split; [done|]. intros Hrun. split; [by apply Hnat|].
  intros file <-. unfold trackNumberOrZero.
  destruct (_extractTrackNumber (FileEntry.name file)) as [n|] eqn:E.
  - by apply Hnat.
  - cbn. unfold MAX_SAFE_INTEGER. lia.
Qed.

Lemma _extractTrackNumber_is_null_or_natural_witness :
  _extractTrackNumber (js "Track_12 intro.mp3") = Some 12%Z /\
  (0 <= 12 <= MAX_SAFE_INTEGER)%Z.
Proof.
  split; [reflexivity|].
  apply (proj1 (proj2 (_extractTrackNumber_is_null_or_natural (js "Track_12 intro.mp3"))
                  ltac:(vm_compute; lia))).
  reflexivity.
Defined.

End TrackNumberFacts.

(** ** [runWithConcurrency] *)

Module RunAllFacts.
Import Queue QueueSpec QueueFacts RunAll.

Section RunAll.
Context {V E : Type}.
Variable concurrency : nat.
Variable settles : nat -> E + V.

Lemma processNext_tickets (q : Queue.State) i :
  In i (map ticket (queue (processNext concurrency q)))
  \/ In i (map ticket (inflight (processNext concurrency q)))
  <-> In i (map ticket (queue q)) \/ In i (map ticket (inflight q)).
Proof.
  unfold processNext. destruct (queue q) as [|task rest] eqn:Eq; [by rewrite Eq|].
  destruct (concurrency <=? running q); [by rewrite Eq|].
  cbn [queue inflight map]. rewrite map_app, in_app_iff. cbn [map In]. tauto.
Qed.

Lemma processNext_submitted (q : Queue.State) :
  submitted (processNext concurrency q) = submitted q.
Proof.
  unfold processNext. destruct (queue q); [done|].
  by destruct (concurrency <=? running q).
Qed.

Lemma add_unsettled (q : Queue.State) :
  unsettled (add concurrency q) = S (unsettled q).
Proof.
  unfold add. rewrite processNext_unsettled. unfold unsettled.
  cbn [queue inflight]. rewrite length_app. cbn [length]. lia.
Qed.

(** The state after the tasks are added. *)
Lemma addAll_spec count (q : Queue.State) (res : gmap nat V) (rej : option E) :
  invariant concurrency q ->
  accounted settles {| queueState := q; results := res; rejection := rej |} ->
  invariant concurrency (addAll concurrency count q) /\
  accounted settles
    {| queueState := addAll concurrency count q; results := res; rejection := rej |} /\
  submitted (addAll concurrency count q) = (count + submitted q)%nat /\
  unsettled (addAll concurrency count q) = (count + unsettled q)%nat.
Proof.
  revert q. induction count as [|count IH]; intros q Hinv Hacc; [done|].
  cbn [addAll].
  destruct (IH (add concurrency q)) as (H1 & H2 & H3 & H4).
  - by apply invariant_add.
  - intros i Hi. unfold accounted in Hacc. cbn [queueState results rejection] in *.
    unfold add in Hi |- *. rewrite processNext_submitted in Hi.
    cbn [submitted] in Hi.
    match goal with
    | |- In i (map ticket (queue (processNext _ ?q'))) \/ _ =>
        pose proof (processNext_tickets q' i) as Ht
    end.
    cbn [queue inflight] in Ht. rewrite map_app, in_app_iff in Ht.
    cbn [map In ticket] in Ht.
    destruct (decide (i = submitted q)) as [->|Hne]; [tauto|].
    destruct (Hacc i ltac:(lia)) as [?|[?|[?|?]]]; tauto.
  - split; [done|]. split; [done|]. rewrite H3, H4, add_unsettled.
    unfold add. rewrite processNext_submitted. cbn [submitted]. lia.
Qed.

(** What a settling keeps and what it changes. *)
Lemma settle_spec (st st' : State V E) :
  invariant concurrency (queueState st) ->
  accounted settles st ->
  (forall e, rejection st = Some e ->
             exists i, i < submitted (queueState st) /\ settles i = inl e) ->
  settle concurrency settles st st' ->
  invariant concurrency (queueState st') /\
  accounted settles st' /\
  (forall e, rejection st' = Some e ->
             exists i, i < submitted (queueState st') /\ settles i = inl e) /\
  submitted (queueState st') = submitted (queueState st) /\
  S (unsettled (queueState st')) = unsettled (queueState st).
Proof.
  intros Hinv Hacc Hrej Hstep.
  assert (forall t, In t (inflight (queueState st)) ->
                    ticket t < submitted (queueState st)) as Hbelow.
  { intros t Ht. pose proof (inv_below _ _ Hinv) as Hb.
    rewrite Forall_app in Hb. destruct Hb as [Hb _].
    rewrite Forall_forall in Hb. apply Hb. apply list_elem_of_In.
    by apply (inv_inflight_started _ _ Hinv). }
  destruct Hstep as [st t v Hin Hv|st t e Hin He]; cbn [queueState results rejection].
  - split; [by apply invariant_settle|].
    split; [|split; [|split]].
    + intros i Hi. cbn [queueState results rejection] in Hi |- *.
      unfold onSuccess in Hi |- *.
      rewrite processNext_submitted in Hi. cbn [submitted] in Hi.
      match goal with
      | |- In i (map ticket (queue (processNext _ ?q'))) \/ _ =>
          pose proof (processNext_tickets q' i) as Ht
      end.
      cbn [queue inflight] in Ht.
      destruct (decide (i = ticket t)) as [->|Hne].
      * right. right. left. exists v. by rewrite lookup_insert_eq.
      * destruct (Hacc i Hi) as [?|[Hi'|[(v' & ? & ?)|?]]]; [tauto| | |tauto].
        -- assert (In i (map ticket (removeTask t (inflight (queueState st)))));
             [|tauto].
           apply in_map_iff in Hi' as (u & <- & Hu).
           apply in_map_iff. exists u. split; [done|].
           apply removeTask_In. split; [done|]. congruence.
        -- right. right. left. exists v'. by rewrite lookup_insert_ne.
    + intros e He. unfold onSuccess. rewrite processNext_submitted.
      cbn [submitted]. by apply Hrej.
    + unfold onSuccess. by rewrite processNext_submitted.
    + apply (settle_unsettled concurrency _ (Succeed t)); [done|done|].
      by constructor.
  - split; [by apply invariant_settle|].
    split; [|split; [|split]].
    + intros i Hi. cbn [queueState results rejection] in Hi |- *.
      unfold onError in Hi |- *.
      rewrite processNext_submitted in Hi. cbn [submitted] in Hi.
      match goal with
      | |- In i (map ticket (queue (processNext _ ?q'))) \/ _ =>
          pose proof (processNext_tickets q' i) as Ht
      end.
      cbn [queue inflight] in Ht.
      destruct (decide (i = ticket t)) as [->|Hne].
      * right. right. right. exists e. split; [done|]. by destruct (rejection st).
      * destruct (Hacc i Hi) as [?|[Hi'|[?|(e' & ? & ?)]]]; [tauto| |tauto|].
        -- assert (In i (map ticket (removeTask t (inflight (queueState st)))));
             [|tauto].
           apply in_map_iff in Hi' as (u & <- & Hu).
           apply in_map_iff. exists u. split; [done|].
           apply removeTask_In. split; [done|]. congruence.
        -- right. right. right. exists e'. split; [done|].
           by destruct (rejection st).
    + intros e'. unfold onError. rewrite processNext_submitted. cbn [submitted].
      destruct (rejection st) as [first|] eqn:Er.
      * intros [= <-]. by apply Hrej.
      * intros [= <-]. exists (ticket t). split; [by apply Hbelow|done].
    + unfold onError. by rewrite processNext_submitted.
    + apply (settle_unsettled concurrency _ (Fail t)); [done|done|].
      by constructor.
Qed.

Lemma settleMany_spec (st : State V E) k st' :
  invariant concurrency (queueState st) ->
  accounted settles st ->
  (forall e, rejection st = Some e ->
             exists i, i < submitted (queueState st) /\ settles i = inl e) ->
  settleMany concurrency settles st k st' ->
  invariant concurrency (queueState st') /\
  accounted settles st' /\
  (forall e, rejection st' = Some e ->
             exists i, i < submitted (queueState st') /\ settles i = inl e) /\
  submitted (queueState st') = submitted (queueState st) /\
  (k + unsettled (queueState st') = unsettled (queueState st))%nat.
Proof.
  intros Hinv Hacc Hrej Hrun. induction Hrun as [|st st1 k st2 Hstep Hrun IH]; [done|].
  destruct (settle_spec _ _ Hinv Hacc Hrej Hstep) as (H1 & H2 & H3 & H4 & H5).
  destruct (IH H1 H2 H3) as (I1 & I2 & I3 & I4 & I5).
  split; [done|]. split; [done|]. split; [done|]. split; [congruence|lia].
Qed.

(** X30: [runWithConcurrency] gives the results in the order of the
    functions, in whatever order they settle.  After any [k] settlings
    of the [count] tasks, [count - k] tasks are unsettled; when the
    promise has resolved, every task has settled, every function has
    resolved and slot [i] of the array holds the value of [fns[i]];
    when it has rejected, the error is that of one of the functions;
    and while it is pending some task can settle, provided the
    concurrency is at least 1. *)
Theorem runWithConcurrency_results_in_order (count k : nat) (st : State V E) :
  settleMany concurrency settles (start concurrency count) k st ->
  (k + unsettled (queueState st) = count)%nat /\
  (forall array,
      outcome count st = Resolved array ->
      k = count /\
      array = map (fun i => match settles i with
                            | inr v => Some v
                            | inl _ => None
                            end) (seq 0 count) /\
      forall i, i < count -> exists v, settles i = inr v) /\
  (forall e, outcome count st = RejectedWith e ->
             exists i, i < count /\ settles i = inl e) /\
  (1 <= concurrency -> outcome count st = Pending ->
   exists st', settle concurrency settles st st').
Proof.
  intros Hrun.
  destruct (addAll_spec count initial ∅ None (invariant_initial concurrency))
    as (Hinv0 & Hacc0 & Hsub0 & Hun0); [intros i Hi; cbn in Hi; lia|].
  destruct (settleMany_spec (start concurrency count) k st Hinv0 Hacc0
              ltac:(done) Hrun) as (Hinv & Hacc & Hrej & Hsub & Hun).
  cbn [start queueState] in Hsub, Hun. rewrite Hsub0 in Hsub. rewrite Hun0 in Hun.
  cbn [initial submitted] in Hsub. change (unsettled initial) with 0 in Hun.
  rewrite Nat.add_0_r in Hsub, Hun.
  split; [done|]. unfold outcome. split; [|split].
  - intros array. destruct (rejection st) as [e|] eqn:Er; [done|].
    destruct (Nat.eqb_spec (length (queue (queueState st))
                            + length (inflight (queueState st))) 0) as [Hidle|];
      [|done].
    intros [= <-].
    assert (forall i, i < count -> exists v, settles i = inr v
                                            /\ results st !! i = Some v) as Hall.
    { intros i Hi. destruct (Hacc i ltac:(lia)) as [Hq|[Hf|[?|(e & _ & ?)]]];
        [| |done|done].
      - destruct (queue (queueState st)); [done|cbn in Hidle; lia].
      - destruct (inflight (queueState st)); [done|cbn in Hidle; lia]. }
    split; [unfold unsettled in Hun; lia|]. split.
    + apply map_ext_in. intros i Hi. apply in_seq in Hi.
      destruct (Hall i ltac:(lia)) as (v & -> & ->). done.
    + intros i Hi. destruct (Hall i Hi) as (v & ? & _). eauto.
  - intros e. destruct (rejection st) as [e'|] eqn:Er.
    + intros [= <-]. destruct (Hrej e' eq_refl) as (i & Hi & He).
      exists i. split; [lia|done].
    + by destruct (_ =? _).
  - intros HN. destruct (rejection st); [done|].
    destruct (Nat.eqb_spec (length (queue (queueState st))
                            + length (inflight (queueState st))) 0) as [|Hbusy];
      [done|]. intros _.
    pose proof (progress concurrency (queueState st) HN Hinv
                  ltac:(unfold unsettled; lia)) as Hne.
    destruct (inflight (queueState st)) as [|t rest] eqn:Ei; [done|].
    destruct (settles (ticket t)) as [e|v] eqn:Es.
    + eexists. eapply (settle_rejected _ _ st t e); [rewrite Ei; by left|done].
    + eexists. eapply (settle_resolved _ _ st t v); [rewrite Ei; by left|done].
Qed.

End RunAll.

Lemma runWithConcurrency_results_in_order_witness :
  (2 + unsettled (queueState bothSettled) = 2)%nat.
Proof.
  apply (runWithConcurrency_results_in_order 1 (fun i => inr i) 2 2 bothSettled).
  eapply settleMany_more.
  - apply (settle_resolved 1 (fun i => inr i) (start 1 2) {| ticket := 0 |} 0%nat);
      [left; reflexivity|reflexivity].
  - eapply settleMany_more; [|apply settleMany_none].
    exact (settle_resolved 1 (fun i => inr i)
             {| queueState := onSuccess 1 {| ticket := 0 |} (addAll 1 2 initial);
                results := <[0%nat := 0%nat]> ∅;
                rejection := None |}
             {| ticket := 1 |} 1%nat (or_introl eq_refl) eq_refl).
Defined.

End RunAllFacts.
